(** * Rule-based atom typing (mosdef_gomc/tools/parameterize/atomtyper.py)

    A shallow embedding of the atom-typing engine: the rule decorators, the
    rule registry [build_rule_map], the white-/blacklist propagation loop of
    [find_atomtypes], the neighbour-type cache [neighbor_types], the
    membership query [check_atom] and the rule analysis [sanitize].

    Python objects with identity (atoms) are references into a store; the
    three module-level dictionaries are the fields of [Globals]; [warn] is an
    append to a log of [Warning]s; a raised exception is the [Raised] result. *)

From stdpp Require Import gmap strings list fin_maps pretty sorting.

Open Scope string_scope.
Open Scope list_scope.
Open Scope nat_scope.

(** ** Exceptions and results *)

Inductive Exn : Type :=
| KeyError (msg : string)
| AssertionError (msg : string)
| TypeError
| AttributeError
| IndexError
| NetworkXPointlessConcept.

Inductive Result (A : Type) : Type :=
| Returned (a : A)
| Raised (e : Exn).
Arguments Returned {A} a.
Arguments Raised {A} e.

#[global] Instance result_ret : MRet Result := λ A a, Returned a.
#[global] Instance result_bind : MBind Result := λ A B f m,
  match m with
  | Returned a => f a
  | Raised e => Raised e
  end.

Definition raises {A} (m : Result A) : Prop := ∃ e, m = Raised e.
Definition returns {A} (m : Result A) : Prop := ∃ a, m = Returned a.

(** A [for] loop whose body may raise, threading the loop-carried state. *)
Fixpoint for_each {A S} (body : S → A → Result S) (l : list A) (st : S)
  : Result S :=
  match l with
  | [] => Returned st
  | x :: l' => st' ← body st x; for_each body l' st'
  end.

(** ** Diagnostics ([warnings.warn]) *)

Inductive Issue : Type := Unconnected | NotDAG | MultipleSinks.

Inductive Warning : Type :=
| NoRuleForNeighbors (n : nat) (kind : string)
| NoRuleForKind (kind : string)
| MaxIterations
| CheckTopology (i : nat) (kind : string) (atomtype : list string)
| NoElementType (rule_number : string)
| NoNeighborCount (rule_number : string)
| RuleGraph (issue : Issue) (element : option string)
            (pattern : list string) (sinks : option (list string)).

#[global] Instance Issue_eq_dec : EqDecision Issue.
Proof. solve_decision. Defined.
#[global] Instance Warning_eq_dec : EqDecision Warning.
Proof. solve_decision. Defined.

(** ** Rule identifiers and [str] *)

(** Rule identifiers are written as integers or strings in decorators and
    queries; [str] is Python's conversion. *)
Inductive RuleId : Type := IdInt (z : Z) | IdStr (s : string).

Definition str (r : RuleId) : string :=
  match r with
  | IdInt z => pretty z
  | IdStr s => s
  end.

(** The argument of [Whitelist], [Blacklist] and [check_atom]: a list, tuple
    or set of identifiers, or a single one. *)
Inductive RuleIds : Type := OneId (r : RuleId) | ManyIds (l : list RuleId).

(** ** mbuild.orderedset.OrderedSet *)

(** Modelled from the spec: [OrderedSet] (imported from mbuild.orderedset,
    not among the sources here) is the growable set of
    type-identifier strings of the data model: a set that keeps insertion
    order, here a list in which [add] appends only absent elements. *)
Module OrderedSet.
Definition t := list string.
Definition empty : t := [].
Definition add (x : string) (s : t) : t :=
  if decide (x ∈ s) then s else s ++ [x].
Definition difference (s k : t) : t := list_difference s k.
Definition len (s : t) : nat := length s.
End OrderedSet.

(** ** Atoms and the store *)

Inductive AtomtypeExtra : Type :=
| AtomtypeList (l : list string)      (* [atomtype[0]] *)
| AtomtypeJoined (s : string).        (* ', '.join(atomtype) *)

(** Modelled from the spec: the Atom class (mbuild, not among the sources
    here) is the Atom of the data model: its [kind], its bonds (each given by
    the reference of the atom at the other end, so [atom.neighbors] has
    [length bonds] entries), and the mutable extras storage, of which the
    engine uses three entries, absent until set. *)
Record Atom : Type := mkAtom {
  kind : string;
  bonds : list nat;
  whitelist : option OrderedSet.t;
  blacklist : option OrderedSet.t;
  atomtype : option AtomtypeExtra
}.

Definition set_whitelist (w : option OrderedSet.t) (a : Atom) : Atom :=
  mkAtom (kind a) (bonds a) w (blacklist a) (atomtype a).
Definition set_blacklist (b : option OrderedSet.t) (a : Atom) : Atom :=
  mkAtom (kind a) (bonds a) (whitelist a) b (atomtype a).
Definition set_atomtype (t : option AtomtypeExtra) (a : Atom) : Atom :=
  mkAtom (kind a) (bonds a) (whitelist a) (blacklist a) t.
Definition set_bonds (bs : list nat) (a : Atom) : Atom :=
  mkAtom (kind a) bs (whitelist a) (blacklist a) (atomtype a).

(** The atoms of a compound in the order of [compound.yield_atoms()]; an atom
    object is identified with its position. *)
Abbreviation Store := (list Atom).

(** Modelled from the spec: the Compound class (mbuild, not among the
    sources here) is the bonded-atom structure of the external interfaces.
    [yield_atoms] gives every atom, ports included (the rounds test for
    them); [atoms] is a second view of the same atom objects, the real atoms
    that the resolution goes through ([real_atoms] below says so). *)
Record Compound : Type := mkCompound {
  yield_atoms : Store;
  atoms : list nat
}.

(** Following a reference; the references of a well-formed compound all
    lie in the store. *)
Definition get (s : Store) (i : nat) : Result Atom :=
  match s !! i with
  | Some a => Returned a
  | None => Raised IndexError
  end.

(** [atom.whitelist] and [atom.blacklist] read the entries that [prepare]
    puts into [atom.extras]. *)
Definition read_whitelist (a : Atom) : Result OrderedSet.t :=
  match whitelist a with
  | Some w => Returned w
  | None => Raised AttributeError
  end.
Definition read_blacklist (a : Atom) : Result OrderedSet.t :=
  match blacklist a with
  | Some b => Returned b
  | None => Raised AttributeError
  end.

(** ** Rules: decorator objects around a body *)

Inductive RuleDecorator : Type :=
| Element (element_type : string)
| NeighborCount (count : nat)
| NeighborsExactly (neighbor_type : string) (count : nat)
| NeighborsAtLeast (neighbor_type : string) (count : nat)
| NeighborsAtMost (neighbor_type : string) (count : nat)
| Whitelist (rule_numbers : list string)
| Blacklist (rule_numbers : list string).

Definition str_le (a b : string) : Prop := String.leb a b = true.
#[global] Instance str_le_dec a b : Decision (str_le a b).
Proof. unfold str_le. apply _. Defined.

(** [Whitelist.__init__] / [Blacklist.__init__]. *)
Definition init_rule_numbers (rule_numbers : RuleIds) : list string :=
  match rule_numbers with
  | ManyIds l => merge_sort str_le (str <$> l)
  | OneId r => [str r]
  end.
Definition mkWhitelist (rule_numbers : RuleIds) : RuleDecorator :=
  Whitelist (init_rule_numbers rule_numbers).
Definition mkBlacklist (rule_numbers : RuleIds) : RuleDecorator :=
  Blacklist (init_rule_numbers rule_numbers).

(** A rule function of the catalogue: the body (an externally supplied
    predicate on the structure and the atom) under the [wrapped] closures of
    its decorators, outermost first. *)
Inductive RuleFn : Type :=
| Body (f : Store → nat → bool)
| Wrapped (dec : RuleDecorator) (f : RuleFn).

(** ** Module-level state *)

Record Globals : Type := mkGlobals {
  rule_number_to_rule : gmap string RuleFn;
  rule_map : gmap (option string) (gmap (option nat) (list string));
  neighbor_types_map : gmap nat (gmap string nat)
}.

Definition initial_globals : Globals := mkGlobals ∅ ∅ ∅.

(** ** [get_decorator_objects_by_type]

    The function walks the closure cells of a [wrapped] function: the
    decorator object [self], then the inner function when it is again called
    [wrapped].  Every decorator of this module derives from [RuleDecorator],
    the only type it is ever asked for.  A bare function has no closure
    ([func_closure] is [None]), so iterating over it raises. *)
Fixpoint closure_decorators (fn : RuleFn) : list RuleDecorator :=
  match fn with
  | Body _ => []
  | Wrapped dec f => dec :: closure_decorators f
  end.

Definition get_decorator_objects_by_type (decorated_function : RuleFn)
  : Result (list RuleDecorator) :=
  match decorated_function with
  | Body _ => Raised TypeError
  | Wrapped _ _ => Returned (closure_decorators decorated_function)
  end.

(** ** [neighbor_types] *)

(** The [defaultdict(int)] filled from [atom.bonds]. *)
Definition count_neighbors (s : Store) (bs : list nat) : gmap string nat :=
  foldl (λ neighbors b,
           match s !! b with
           | Some other => <[kind other := S (default 0 (neighbors !! kind other))]> neighbors
           | None => neighbors
           end) ∅ bs.

Definition neighbor_types (ntm : gmap nat (gmap string nat)) (s : Store)
    (i : nat) (a : Atom) : gmap string nat * gmap nat (gmap string nat) :=
  match ntm !! i with
  | Some neighbors => (neighbors, ntm)
  | None =>
      let neighbors := count_neighbors s (bonds a) in
      (neighbors, <[i := neighbors]> ntm)
  end.

(** ** Calling a decorated rule *)

(** [Whitelist.whitelist] and [Blacklist.blacklist]: one [add] per entry of
    [rule_numbers], each reading the atom's set. *)
Definition whitelist_add (rule_numbers : list string) (a : Atom) : Result Atom :=
  for_each (λ a rule, w ← read_whitelist a;
                      mret (set_whitelist (Some (OrderedSet.add rule w)) a))
           rule_numbers a.

Definition blacklist_add (rule_numbers : list string) (a : Atom) : Result Atom :=
  for_each (λ a rule, b ← read_blacklist a;
                      mret (set_blacklist (Some (OrderedSet.add rule b)) a))
           rule_numbers a.

(** The state a rule call can touch: the neighbour cache and the store. *)
Record Heap : Type := mkHeap {
  cache : gmap nat (gmap string nat);
  store : Store
}.

Definition neighbor_guard (cmp : nat → nat → bool) (neighbor_type : string)
    (count : nat) (h : Heap) (i : nat) (a : Atom) : bool * Heap :=
  let '(neighbors, ntm) := neighbor_types (cache h) (store h) i a in
  (* the second [neighbor_types(atom)] of the condition hits the cache *)
  (match neighbors !! neighbor_type with
   | Some n => cmp n count
   | None => false
   end, mkHeap ntm (store h)).

(** [rule_fn(atom)]: the truth value of what the call returns, and the heap
    it leaves. *)
Fixpoint call (fn : RuleFn) (h : Heap) (i : nat) : Result (bool * Heap) :=
  match fn with
  | Body f => mret (f (store h) i, h)
  | Wrapped dec f =>
      a ← get (store h) i;
      match dec with
      | Element element_type =>
          if decide (kind a = element_type) then call f h i else mret (false, h)
      | NeighborCount count =>
          if decide (length (bonds a) = count) then call f h i else mret (false, h)
      | NeighborsExactly neighbor_type count =>
          let '(ok, h') := neighbor_guard Nat.eqb neighbor_type count h i a in
          if ok then call f h' i else mret (false, h')
      | NeighborsAtLeast neighbor_type count =>
          let '(ok, h') := neighbor_guard (λ n c, Nat.leb c n) neighbor_type count h i a in
          if ok then call f h' i else mret (false, h')
      | NeighborsAtMost neighbor_type count =>
          let '(ok, h') := neighbor_guard (λ n c, Nat.leb n c) neighbor_type count h i a in
          if ok then call f h' i else mret (false, h')
      | Whitelist rule_numbers =>
          '(r, h') ← call f h i;
          if r : bool then
            a' ← get (store h') i;
            a'' ← whitelist_add rule_numbers a';
            mret (true, mkHeap (cache h') (<[i := a'']> (store h')))
          else mret (false, h')
      | Blacklist rule_numbers =>
          '(r, h') ← call f h i;
          if r : bool then
            a' ← get (store h') i;
            a'' ← blacklist_add rule_numbers a';
            mret (true, mkHeap (cache h') (<[i := a'']> (store h')))
          else mret (false, h')
      end
  end.

(** ** [run_rule] *)
Definition run_rule (rules : gmap string RuleFn) (h : Heap) (i : nat)
    (rule_id : string) : Result Heap :=
  a ← get (store h) i;
  w ← read_whitelist a;
  if decide (rule_id ∈ w) then mret h
  else
    match rules !! rule_id with
    | None => Raised (KeyError ("Rule for " +:+ rule_id +:+ " not implemented"))
    | Some rule_fn => '(_, h') ← call rule_fn h i; mret h'
    end.

(** ** [prepare] *)
Definition prepare (a : Atom) : Atom :=
  set_blacklist (Some OrderedSet.empty) (set_whitelist (Some OrderedSet.empty) a).

(** ** [build_rule_map] *)

(** Dictionary [items()]: the entries in the dictionary's own order. *)
Definition items {K} `{Countable K} {V} (d : gmap K V) : list (K * V) :=
  map_to_list d.

(** The loop over the decorators: a later guard of a kind overrides. *)
Definition scan_guards (decorators : list RuleDecorator)
  : option string * option nat :=
  foldl (λ '(element_type, neighbor_count) dec,
           match dec with
           | Element t => (Some t, neighbor_count)
           | NeighborCount c => (element_type, Some c)
           | _ => (element_type, neighbor_count)
           end) (None, None) decorators.

(** Python truth of [element_type] and of [neighbor_count]. *)
Definition truthy_element (element_type : option string) : bool :=
  match element_type with
  | Some (String _ _) => true
  | _ => false
  end.
Definition truthy_count (neighbor_count : option nat) : bool :=
  match neighbor_count with
  | Some (S _) => true
  | _ => false
  end.

Definition append_rule (rmap : gmap (option string) (gmap (option nat) (list string)))
    (element_type : option string) (neighbor_count : option nat)
    (rule_number : string) : gmap (option string) (gmap (option nat) (list string)) :=
  let by_count := default ∅ (rmap !! element_type) in
  let bucket := default [] (by_count !! neighbor_count) in
  <[element_type := <[neighbor_count := bucket ++ [rule_number]]> by_count]> rmap.

Definition build_rule_step
    (acc : gmap (option string) (gmap (option nat) (list string)) * list Warning)
    (entry : string * RuleFn)
  : Result (gmap (option string) (gmap (option nat) (list string)) * list Warning) :=
  let '(rmap, log) := acc in
  let '(rule_number, rule) := entry in
  decorators ← get_decorator_objects_by_type rule;
  let '(element_type, neighbor_count) := scan_guards decorators in
  let log1 := if truthy_element element_type then log
              else log ++ [NoElementType rule_number] in
  let log2 := if truthy_count neighbor_count then log1
              else log1 ++ [NoNeighborCount rule_number] in
  mret (append_rule rmap element_type neighbor_count rule_number, log2).

Definition build_rule_map (g : Globals) : Result (Globals * list Warning) :=
  '(rmap, log) ← for_each build_rule_step (items (rule_number_to_rule g))
                          (rule_map g, []);
  mret (mkGlobals (rule_number_to_rule g) rmap (neighbor_types_map g), log).

(** ** The rounds of [find_atomtypes] *)

Record RoundState : Type := mkRound {
  old_len : nat;
  new_len : nat;
  heap : Heap;
  log : list Warning
}.

(** The body of [for atom in compound.yield_atoms()] inside a round. *)
Definition round_step (g : Globals) (st : RoundState) (i : nat) : Result RoundState :=
  a ← get (store (heap st)) i;
  w ← read_whitelist a;
  b ← read_blacklist a;
  let old_len' := old_len st + OrderedSet.len w + OrderedSet.len b in
  if decide (kind a = "G") then
    mret (mkRound old_len' (new_len st) (heap st) (log st))
  else
    '(h', log') ←
      match rule_map g !! Some (kind a) with
      | Some by_count =>
          match by_count !! Some (length (bonds a)) with
          | Some rules =>
              h' ← for_each (λ h rule, run_rule (rule_number_to_rule g) h i rule)
                            rules (heap st);
              mret (h', log st)
          | None =>
              mret (heap st, log st ++ [NoRuleForNeighbors (length (bonds a)) (kind a)])
          end
      | None => mret (heap st, log st ++ [NoRuleForKind (kind a)])
      end;
    a' ← get (store h') i;
    w' ← read_whitelist a';
    b' ← read_blacklist a';
    mret (mkRound old_len' (new_len st + OrderedSet.len w' + OrderedSet.len b') h' log').

Definition typing_round (g : Globals) (h : Heap) : Result RoundState :=
  for_each (round_step g) (seq 0 (length (store h))) (mkRound 0 0 h []).

(** [for iter_cnt in range(max_iter): ... else: warn(...)]. *)
Fixpoint typing_loop (max_iter : nat) (g : Globals) (h : Heap)
  : Result (Heap * list Warning) :=
  match max_iter with
  | 0 => mret (h, [MaxIterations])
  | S n =>
      st ← typing_round g h;
      if decide (old_len st = new_len st) then mret (heap st, log st)
      else '(h', log') ← typing_loop n g (heap st); mret (h', log st ++ log')
  end.

(** ** Resolution: [for i, atom in enumerate(compound.atoms)] *)

Definition join (sep : string) (l : list string) : string := String.concat sep l.

Definition resolve_step (acc : Store * list Warning) (entry : nat * nat)
  : Result (Store * list Warning) :=
  let '(s, log) := acc in
  let '(i, ref) := entry in
  a ← get s ref;
  w ← read_whitelist a;
  b ← read_blacklist a;
  let atomtype := OrderedSet.difference w b in
  match atomtype with
  | [t] => mret (<[ref := set_atomtype (Some (AtomtypeList [t])) a]> s, log)
  | _ => mret (<[ref := set_atomtype (Some (AtomtypeJoined (join ", " atomtype))) a]> s,
               log ++ [CheckTopology i (kind a) atomtype])
  end.

Definition enumerate {A} (l : list A) : list (nat * A) := imap (λ i x, (i, x)) l.

Definition resolve_all (atoms : list nat) (s : Store) : Result (Store * list Warning) :=
  for_each resolve_step (enumerate atoms) (s, []).

(** ** [check_atom] *)

(** The value is Python's: [Some true] for [True], [None] for the implicit
    [None] at the end of the function. *)
Fixpoint check_atom_loop (a : Atom) (rule_ids : list string) : Result (option bool) :=
  match rule_ids with
  | [] => mret None
  | rule :: rest =>
      w ← read_whitelist a;
      if decide (rule ∈ w) then mret (Some true) else check_atom_loop a rest
  end.

Definition collect_rule_ids (input_rule_ids : RuleIds) : gset string :=
  match input_rule_ids with
  | ManyIds l => foldl (λ rule_ids rule, rule_ids ∪ {[str rule]}) ∅ l
  | OneId r => {[str r]}
  end.

Definition check_atom (a : Atom) (input_rule_ids : RuleIds) : Result (option bool) :=
  check_atom_loop a (elements (collect_rule_ids input_rule_ids)).

(** ** networkx, as far as [sanitize] uses it

    An external library: a directed graph with the nodes and edges in the
    order they were added, and the three queries by their documented
    meaning. *)
Module nx.
Record DiGraph : Type := mkDiGraph {
  nodes : list string;
  edges : list (string * string)
}.

Definition empty : DiGraph := mkDiGraph [] [].

Definition add_node (u : string) (G : DiGraph) : DiGraph :=
  if decide (u ∈ nodes G) then G else mkDiGraph (nodes G ++ [u]) (edges G).

Definition add_edge (u v : string) (G : DiGraph) : DiGraph :=
  let G' := add_node v (add_node u G) in
  if decide ((u, v) ∈ edges G') then G'
  else mkDiGraph (nodes G') (edges G' ++ [(u, v)]).

Definition successors (G : DiGraph) (u : string) : list string :=
  omap (λ e : string * string, if decide (e.1 = u) then Some e.2 else None) (edges G).

Definition to_undirected (G : DiGraph) : DiGraph :=
  mkDiGraph (nodes G) (edges G ++ map (λ e : string * string, (e.2, e.1)) (edges G)).

(** Nodes reachable from [visited], whose newest members are [frontier]. *)
Fixpoint reach (fuel : nat) (G : DiGraph) (frontier visited : list string)
  : list string :=
  match fuel with
  | 0 => visited
  | S fuel' =>
      let fresh := remove_dups (list_difference (frontier ≫= successors G) visited) in
      match fresh with
      | [] => visited
      | _ => reach fuel' G fresh (visited ++ fresh)
      end
  end.

Definition reachable (G : DiGraph) (u : string) : list string :=
  reach (length (nodes G)) G [u] [u].

(** All nodes reachable from [source], [source] itself left out. *)
Definition descendants (G : DiGraph) (source : string) : list string :=
  list_difference (reachable G source) [source].

(** Connectivity of an undirected graph; undefined for the null graph. *)
Definition is_connected (G : DiGraph) : Result bool :=
  match nodes G with
  | [] => Raised NetworkXPointlessConcept
  | u :: _ => Returned (forallb (λ v, bool_decide (v ∈ reachable G u)) (nodes G))
  end.

(** No node lies on a directed cycle. *)
Definition is_directed_acyclic_graph (G : DiGraph) : bool :=
  forallb (λ u, negb (bool_decide (u ∈ successors G u ≫= reachable G))) (nodes G).
End nx.

(** ** [sanitize] *)

Definition check_duplicate_element (element_type : option string)
    (rule_number : string) : Result unit :=
  match element_type with
  | None => mret ()
  | Some _ =>
      Raised (AssertionError ("Duplicate element type decorators on rule " +:+ rule_number))
  end.

Definition check_duplicate_neighbor_count (neighbor_count : option nat)
    (rule_number : string) : Result unit :=
  match neighbor_count with
  | None => mret ()
  | Some _ =>
      Raised (AssertionError ("Duplicate neighbor count decorators on rule " +:+ rule_number))
  end.

(** [itertools.combinations_with_replacement(pool, r)]. *)
Fixpoint combinations_with_replacement (r : nat) (pool : list string)
  : list (list string) :=
  match r with
  | 0 => [[]]
  | S r' =>
      (fix from (p : list string) : list (list string) :=
         match p with
         | [] => []
         | x :: rest => map (cons x) (combinations_with_replacement r' p) ++ from rest
         end) pool
  end.

Definition pattern_count (pattern : list string) (t : string) : nat :=
  length (filter (λ x, x = t) pattern).

(** The patterns a neighbour-composition decorator rules out. *)
Definition excluded_by (dec : RuleDecorator) (pattern : list string) : bool :=
  match dec with
  | NeighborsExactly t c => negb (Nat.eqb (pattern_count pattern t) c)
  | NeighborsAtLeast t c => negb (Nat.leb c (pattern_count pattern t))
  | NeighborsAtMost t c => negb (Nat.leb (pattern_count pattern t) c)
  | _ => false
  end.

(** First loop: the elements that some rule supports. *)
Definition supported_step (supported : gset string) (entry : string * RuleFn)
  : Result (gset string) :=
  let '(rule_number, rule) := entry in
  decorators ← get_decorator_objects_by_type rule;
  '(_, supported') ←
    for_each (λ '(element_type, supported) dec,
                match dec with
                | Element t =>
                    _ ← check_duplicate_element element_type rule_number;
                    mret (Some t, supported ∪ {[t]})
                | _ => mret (element_type, supported)
                end) decorators (None, supported);
  mret supported'.

(** Second loop: which (element, neighbour pattern) each rule matches. *)
Definition matches_step (supported_elements : list string)
    (rule_matches : gmap (option string * list string) (gset string))
    (entry : string * RuleFn)
  : Result (gmap (option string * list string) (gset string)) :=
  let '(rule_number, rule) := entry in
  decorators ← get_decorator_objects_by_type rule;
  '(element_type, neighbor_count) ←
    for_each (λ '(element_type, neighbor_count) dec,
                match dec with
                | Element t => mret (Some t, neighbor_count)
                | NeighborCount c =>
                    _ ← check_duplicate_neighbor_count neighbor_count rule_number;
                    mret (element_type, Some c)
                | _ => mret (element_type, neighbor_count)
                end) decorators (None, None);
  count ← match neighbor_count with
          | Some c => mret c
          | None => Raised TypeError    (* an integer is required *)
          end;
  let all_patterns :=
    remove_dups (combinations_with_replacement count supported_elements) in
  let removed_patterns :=
    decorators ≫= (λ dec, filter (λ pattern, excluded_by dec pattern = true) all_patterns) in
  let all_patterns := list_difference all_patterns removed_patterns in
  mret (foldl (λ rule_matches pattern,
                 match rule_matches !! (element_type, pattern) with
                 | None => <[(element_type, pattern) := {[rule_number]}]> rule_matches
                 | Some rules => <[(element_type, pattern) := rules ∪ {[rule_number]}]> rule_matches
                 end) rule_matches all_patterns).

Definition blacklisted_by (decorators : list RuleDecorator) : gset string :=
  foldl (λ blacklisted_rules dec,
           match dec with
           | Blacklist rule_numbers => blacklisted_rules ∪ list_to_set rule_numbers
           | _ => blacklisted_rules
           end) ∅ decorators.

(** The graph of one group: an edge from each rule to every rule it
    blacklists.  Nodes enter the graph only as end points of edges. *)
Definition build_graph (rules_by_number : gmap string RuleFn) (rules : list string)
  : Result nx.DiGraph :=
  for_each (λ G rule_number,
              rule ← match rules_by_number !! rule_number with
                     | Some rule => mret rule
                     | None => Raised (KeyError rule_number)
                     end;
              decorators ← get_decorator_objects_by_type rule;
              mret (foldl (λ G blacklisted_rule, nx.add_edge rule_number blacklisted_rule G)
                          G (elements (blacklisted_by decorators))))
           rules nx.empty.

Definition find_sinks (G : nx.DiGraph) : list string :=
  filter (λ node, length (nx.descendants G node) = 0) (nx.nodes G).

(** Third loop; [draw_rule_graph] is its warning, the picture is left out. *)
Definition graph_step (rules_by_number : gmap string RuleFn) (log : list Warning)
    (entry : (option string * list string) * gset string) : Result (list Warning) :=
  let '((element_type, pattern), rules) := entry in
  if decide (size rules < 2)%nat then mret log
  else
    G ← build_graph rules_by_number (elements rules);
    connected ← nx.is_connected (nx.to_undirected G);
    let log1 := if connected : bool then log
                else log ++ [RuleGraph Unconnected element_type pattern None] in
    let log2 := if nx.is_directed_acyclic_graph G then log1
                else log1 ++ [RuleGraph NotDAG element_type pattern None] in
    let sinks := find_sinks G in
    let log3 := if decide (1 < length sinks)%nat
                then log2 ++ [RuleGraph MultipleSinks element_type pattern (Some sinks)]
                else log2 in
    mret log3.

Definition sanitize (g : Globals) : Result (list Warning) :=
  supported ← for_each supported_step (items (rule_number_to_rule g)) ∅;
  let supported_elements := merge_sort str_le (elements supported) in
  rule_matches ← for_each (matches_step supported_elements)
                          (items (rule_number_to_rule g)) ∅;
  for_each (graph_step (rule_number_to_rule g)) (items rule_matches) [].

(** ** [find_atomtypes] *)

(** [str.split(sep)] for a one-character separator. *)
Fixpoint split_on (sep : Ascii.ascii) (s : string) : list string :=
  match s with
  | EmptyString => [EmptyString]
  | String c s' =>
      if Ascii.eqb c sep then EmptyString :: split_on sep s'
      else match split_on sep s' with
           | w :: ws => String c w :: ws
           | [] => [String c EmptyString]
           end
  end.

Definition underscore : Ascii.ascii := Ascii.ascii_of_nat 95.

(** The loop over the names of the [oplsaa] module, the external rule
    catalogue: the entries named [opls_*] are its rule functions. *)
Definition load_rules (module : list (string * RuleFn)) (rules : gmap string RuleFn)
  : Result (gmap string RuleFn) :=
  for_each (λ rules '(fn, fcn),
              if String.prefix "opls_" fn then
                match split_on underscore fn !! 1 with
                | Some rule_number => mret (<[rule_number := fcn]> rules)
                | None => Raised IndexError
                end
              else mret rules) module rules.

Definition max_iter : nat := 10.

Definition find_atomtypes (oplsaa : list (string * RuleFn)) (g : Globals)
    (compound : Compound) (forcefield : string) (debug : bool)
  : Result (Globals * Store * list Warning) :=
  rules ← (if decide (forcefield = "OPLS-AA")
           then load_rules oplsaa (rule_number_to_rule g)
           else mret (rule_number_to_rule g));
  '(g1, log1) ← build_rule_map (mkGlobals rules (rule_map g) (neighbor_types_map g));
  log2 ← (if debug then sanitize g1 else mret []);
  let s0 := prepare <$> yield_atoms compound in
  '(h, log3) ← typing_loop max_iter g1 (mkHeap (neighbor_types_map g1) s0);
  '(s, log4) ← resolve_all (atoms compound) (store h);
  mret (mkGlobals (rule_number_to_rule g1) (rule_map g1) (cache h), s,
        log1 ++ log2 ++ log3 ++ log4).

(** * Notions used in the statements, and the examples *)

(** The identifiers a query asks about, converted to strings. *)
Definition asked (input_rule_ids : RuleIds) : list string :=
  match input_rule_ids with
  | OneId r => [str r]
  | ManyIds l => str <$> l
  end.

(** Two states of one atom that differ at most in [extras['atomtype']]. *)
Definition same_lists (a a' : Atom) : Prop :=
  kind a' = kind a ∧ bonds a' = bonds a ∧
  whitelist a' = whitelist a ∧ blacklist a' = blacklist a.

(** What the resolution loop stores for an atom with the given sets. *)
Definition resolution (w b : OrderedSet.t) : AtomtypeExtra :=
  match OrderedSet.difference w b with
  | [t] => AtomtypeList [t]
  | atomtype => AtomtypeJoined (join ", " atomtype)
  end.

(** The three atoms of the resolution example: whitelist {135}; whitelist
    {135, 145} with 145 blacklisted; whitelist {135, 145} and nothing
    blacklisted. *)
Definition resolution_example : Store :=
  [ mkAtom "C" [] (Some ["135"]) (Some []) None;
    mkAtom "C" [] (Some ["135"; "145"]) (Some ["145"]) None;
    mkAtom "C" [] (Some ["135"; "145"]) (Some []) None ].

(** A slot of [atom.extras] holding a set: it stays absent, or it is kept as
    a prefix of the later set (nothing removed, nothing reordered). *)
Definition slot_grows (o o' : option OrderedSet.t) : Prop :=
  match o with
  | Some w => ∃ w', o' = Some w' ∧ w `prefix_of` w'
  | None => o' = None
  end.

Definition atom_grows (a a' : Atom) : Prop :=
  kind a' = kind a ∧ bonds a' = bonds a ∧ atomtype a' = atomtype a ∧
  slot_grows (whitelist a) (whitelist a') ∧ slot_grows (blacklist a) (blacklist a').

Definition store_grows : relation Store := Forall2 atom_grows.

(** No duplicate entries in any set of the store. *)
Definition slot_nodup (o : option OrderedSet.t) : Prop :=
  ∀ w, o = Some w → NoDup w.
Definition store_nodup (s : Store) : Prop :=
  Forall (λ a, slot_nodup (whitelist a) ∧ slot_nodup (blacklist a)) s.

(** What a step that works on atom [i] may do to the heap: the sets of atom
    [i] grow, every other atom is left as it is, and the neighbour cache
    gains at most an entry for [i]. *)
Record heap_step (i : nat) (h h' : Heap) : Prop := mkHeapStep {
  step_grows : store_grows (store h) (store h');
  step_frame : ∀ j, j ≠ i → store h' !! j = store h !! j;
  step_nodup : store_nodup (store h) → store_nodup (store h');
  step_cache : cache h ⊆ cache h';
  step_cache_frame : ∀ j, j ≠ i → cache h' !! j = cache h !! j
}.

Definition atom_len (a : Atom) : nat :=
  length (default [] (whitelist a)) + length (default [] (blacklist a)).

(** The sum over all atoms of |whitelist| + |blacklist|. *)
Definition total_len (s : Store) : nat := sum_list_with atom_len s.

(** The same sum with the ports left out, as [new_len] counts it. *)
Definition real_len (a : Atom) : nat :=
  if decide (kind a = "G") then 0 else atom_len a.

Definition coverage_warning (k : string) (w : Warning) : Prop :=
  w = NoRuleForKind k ∨ ∃ n, w = NoRuleForNeighbors n k.

(** What holds after the first [k] atoms of a round that started in [h0]. *)
Record round_inv (h0 : Heap) (k : nat) (st : RoundState) : Prop := mkRoundInv {
  inv_grows : store_grows (store h0) (store (heap st));
  inv_nodup : store_nodup (store h0) → store_nodup (store (heap st));
  inv_cache : cache h0 ⊆ cache (heap st);
  inv_rest : ∀ j, k ≤ j → store (heap st) !! j = store h0 !! j;
  inv_ports : ∀ j a, store h0 !! j = Some a → kind a = "G" →
                store (heap st) !! j = Some a ∧ cache (heap st) !! j = cache h0 !! j;
  inv_old : old_len st = sum_list_with atom_len (take k (store h0));
  inv_new : new_len st = sum_list_with real_len (take k (store (heap st)));
  inv_log : ∀ w, w ∈ log st →
              ∃ j a, store h0 !! j = Some a ∧ kind a ≠ "G" ∧ coverage_warning (kind a) w
}.

(** Every atom carries both sets. *)
Definition prepared (s : Store) : Prop :=
  Forall (λ a, is_Some (whitelist a) ∧ is_Some (blacklist a)) s.

(** Ports hold nothing in their sets. *)
Definition ports_blank (s : Store) : Prop :=
  Forall (λ a, kind a = "G" → atom_len a = 0) s.

(** Every rule number filed in the registry names a rule of the catalogue. *)
Definition registry_closed (g : Globals) : Prop :=
  ∀ element_type by_count neighbor_count rules rule_number,
    rule_map g !! element_type = Some by_count →
    by_count !! neighbor_count = Some rules →
    rule_number ∈ rules →
    is_Some (rule_number_to_rule g !! rule_number).

(** What a run of rounds does to the heap it started from. *)
Record run_inv (h h' : Heap) : Prop := mkRunInv {
  run_grows : store_grows (store h) (store h');
  run_nodup : store_nodup (store h) → store_nodup (store h');
  run_cache : cache h ⊆ cache h';
  run_ports : ∀ j a, store h !! j = Some a → kind a = "G" →
                store h' !! j = Some a ∧ cache h' !! j = cache h !! j
}.

(** The warnings of the rounds: missing rules for atoms that are not ports,
    and the one about the iteration cap. *)
Definition round_warning (s : Store) (w : Warning) : Prop :=
  ∃ j a, s !! j = Some a ∧ kind a ≠ "G" ∧ coverage_warning (kind a) w.

(** The heap after [k] full rounds. *)
Fixpoint after_rounds (g : Globals) (k : nat) (h : Heap) : Result Heap :=
  match k with
  | 0 => mret h
  | S k' => st ← typing_round g h; after_rounds g k' (heap st)
  end.

(** Round [j] (counting from 0) changes, or keeps, the sum over all atoms
    of |whitelist| + |blacklist|. *)
Definition round_changes (g : Globals) (h : Heap) (j : nat) : Prop :=
  ∃ hj hj', after_rounds g j h = Returned hj ∧ after_rounds g (S j) h = Returned hj' ∧
            total_len (store hj) ≠ total_len (store hj').
Definition round_keeps (g : Globals) (h : Heap) (j : nat) : Prop :=
  ∃ hj hj', after_rounds g j h = Returned hj ∧ after_rounds g (S j) h = Returned hj' ∧
            total_len (store hj) = total_len (store hj').

(** A small run: a carbon bonded to a hydrogen, a port, and one rule for a
    carbon with exactly one hydrogen neighbour. *)
Definition example_rule : RuleFn :=
  Wrapped (Element "C")
    (Wrapped (NeighborCount 1)
       (Wrapped (NeighborsExactly "H" 1)
          (Wrapped (mkWhitelist (OneId (IdInt 1))) (Body (λ _ _, true))))).

Definition example_globals : Globals :=
  mkGlobals {["1" := example_rule]} {[Some "C" := {[Some 1 := ["1"]]}]} ∅.

Definition example_compound : Compound :=
  mkCompound [ mkAtom "C" [1] None None None;
               mkAtom "H" [0] None None None;
               mkAtom "G" [] None None None ]
             [0; 1].

(** Modelled from the spec: [compound.atoms] lists the real atoms of the
    compound, so every reference it holds is an atom of the structure that is
    not a port. *)
Definition real_atoms (c : Compound) : Prop :=
  ∀ ref, ref ∈ atoms c → ∃ a, yield_atoms c !! ref = Some a ∧ kind a ≠ "G".

(** A warning about an atom of kind 'G': one of the two coverage warnings or
    the warning of the resolution. *)
Definition about_port (w : Warning) : Prop :=
  coverage_warning "G" w ∨ ∃ i atomtype, w = CheckTopology i "G" atomtype.

(** The rules filed under a key; no entry is no rule. *)
Definition bucket (rmap : gmap (option string) (gmap (option nat) (list string)))
    (element_type : option string) (neighbor_count : option nat) : list string :=
  default [] (rmap !! element_type ≫= (.!! neighbor_count)).

Definition guards_of (rule : RuleFn) : option string * option nat :=
  scan_guards (closure_decorators rule).

Definition build_warnings (entry : string * RuleFn) : list Warning :=
  (if truthy_element (guards_of entry.2).1 then [] else [NoElementType entry.1]) ++
  (if truthy_count (guards_of entry.2).2 then [] else [NoNeighborCount entry.1]).

Definition decorated (rule : RuleFn) : Prop := ∃ dec f, rule = Wrapped dec f.

(** A rule that only whitelists, with neither guard. *)
Definition unguarded_rule : RuleFn :=
  Wrapped (mkWhitelist (OneId (IdInt 7))) (Body (λ _ _, true)).

Definition unguarded_catalogue : Globals :=
  mkGlobals {["7" := unguarded_rule; "1" := example_rule]} ∅ ∅.

(** A rule for an atom without neighbours. *)
Definition lone_atom_rule : RuleFn :=
  Wrapped (Element "Ar")
    (Wrapped (NeighborCount 0)
       (Wrapped (mkWhitelist (OneId (IdInt 97))) (Body (λ _ _, true)))).

Definition is_Element (dec : RuleDecorator) : bool :=
  match dec with Element _ => true | _ => false end.
Definition is_NeighborCount (dec : RuleDecorator) : bool :=
  match dec with NeighborCount _ => true | _ => false end.

(** A rule carries two guards of the same kind. *)
Definition duplicate_element (rule : RuleFn) : Prop :=
  2 ≤ length (filter is_Element (closure_decorators rule)).
Definition duplicate_neighbor_count (rule : RuleFn) : Prop :=
  2 ≤ length (filter is_NeighborCount (closure_decorators rule)).

Definition seen {A} (o : option A) : nat :=
  match o with Some _ => 1 | None => 0 end.

(** A rule with two element guards, next to a sound one. *)
Definition twice_element_rule : RuleFn :=
  Wrapped (Element "C")
    (Wrapped (Element "N")
       (Wrapped (NeighborCount 1)
          (Wrapped (mkWhitelist (OneId (IdInt 9))) (Body (λ _ _, true))))).

Definition duplicate_catalogue : Globals :=
  mkGlobals {["9" := twice_element_rule; "1" := example_rule]}
            {[Some "N" := {[Some 1 := ["9"]]}; Some "C" := {[Some 1 := ["1"]]}]} ∅.

(** A rule with two neighbour-count guards, next to a sound one. *)
Definition twice_count_rule : RuleFn :=
  Wrapped (Element "C")
    (Wrapped (NeighborCount 1)
       (Wrapped (NeighborCount 2)
          (Wrapped (mkWhitelist (OneId (IdInt 8))) (Body (λ _ _, true))))).

Definition duplicate_count_catalogue : Globals :=
  mkGlobals {["8" := twice_count_rule; "1" := example_rule]} ∅ ∅.

(** The four rules of the sink example; all are for a carbon with one
    neighbour.  "1" and "3" blacklist "2"; "2" and "4" blacklist nothing. *)
Definition sink_rule (own : Z) (blacklisted : list RuleId) : RuleFn :=
  Wrapped (Element "C")
    (Wrapped (NeighborCount 1)
       (match blacklisted with
        | [] => Wrapped (mkWhitelist (OneId (IdInt own))) (Body (λ _ _, true))
        | _ => Wrapped (mkBlacklist (ManyIds blacklisted))
                 (Wrapped (mkWhitelist (OneId (IdInt own))) (Body (λ _ _, true)))
        end)).

Definition three_rules : gmap string RuleFn :=
  {[ "1" := sink_rule 1 [IdInt 2]; "2" := sink_rule 2 []; "3" := sink_rule 3 [IdInt 2] ]}.

Definition four_rules : gmap string RuleFn := <["4" := sink_rule 4 []]> three_rules.

(** Two structures over the same three atoms: the carbon is bonded to the
    hydrogen in the first and to the oxygen in the second. *)
Definition bonded_to_hydrogen : Compound :=
  mkCompound [ mkAtom "C" [1] None None None;
               mkAtom "H" [0] None None None;
               mkAtom "O" [] None None None ] [0].

Definition bonded_to_oxygen : Compound :=
  mkCompound [ mkAtom "C" [2] None None None;
               mkAtom "H" [] None None None;
               mkAtom "O" [0] None None None ] [0].

(** The module-level state after a first run on the carbon bonded to the
    hydrogen. *)
Definition after_first_run : Globals :=
  mkGlobals {["1" := example_rule]}
            {[Some "C" := {[Some 1 := ["1"]]}]}
            {[0 := {["H" := 1]}]}.

(** ** Further notions *)
(** The kinds of the atoms at the other end of the bonds. *)
Definition neighbor_kinds (s : Store) (bs : list nat) : list string :=
  omap (λ b, kind <$> s !! b) bs.

(** The tally a neighbour guard of atom [i] works with: the cached one, or
    the count of the atom's bonds. *)
Definition tally_for (h : Heap) (i : nat) (a : Atom) : gmap string nat :=
  (neighbor_types (cache h) (store h) i a).1.

(** The condition a decorator puts on the atom; the two effect decorators
    put none. *)
Definition guard_holds (h : Heap) (i : nat) (a : Atom) (dec : RuleDecorator) : bool :=
  match dec with
  | Element element_type => bool_decide (kind a = element_type)
  | NeighborCount count => bool_decide (length (bonds a) = count)
  | NeighborsExactly t count =>
      match tally_for h i a !! t with Some n => Nat.eqb n count | None => false end
  | NeighborsAtLeast t count =>
      match tally_for h i a !! t with Some n => Nat.leb count n | None => false end
  | NeighborsAtMost t count =>
      match tally_for h i a !! t with Some n => Nat.leb n count | None => false end
  | Whitelist _ | Blacklist _ => true
  end.

(** The function under all the decorators. *)
Fixpoint body_of (fn : RuleFn) : Store → nat → bool :=
  match fn with
  | Body f => f
  | Wrapped _ f => body_of f
  end.

(** The rule numbers of the catalogue that belong under a key, in the order
    of the catalogue. *)
Definition filed (g : Globals) (element_type : option string)
    (neighbor_count : option nat) : list string :=
  (filter (λ entry, guards_of entry.2 = (element_type, neighbor_count))
          (items (rule_number_to_rule g))).*1.

(** A character occurs in a string. *)
Fixpoint contains (c : Ascii.ascii) (s : string) : bool :=
  match s with
  | EmptyString => false
  | String c' s' => Ascii.eqb c' c || contains c s'
  end.

(** The warning a round has for an atom that the registry does not cover:
    no entry for its kind, or none for its number of neighbours. *)
Definition coverage_gap (g : Globals) (a : Atom) : option Warning :=
  match rule_map g !! Some (kind a) with
  | Some by_count =>
      match by_count !! Some (length (bonds a)) with
      | Some _ => None
      | None => Some (NoRuleForNeighbors (length (bonds a)) (kind a))
      end
  | None => Some (NoRuleForKind (kind a))
  end.

(** Every cached tally is the neighbour count of its atom in the store. *)
Definition cache_right (s : Store) (ntm : gmap nat (gmap string nat)) : Prop :=
  ∀ i tally, ntm !! i = Some tally →
    ∃ a, s !! i = Some a ∧ tally = count_neighbors s (bonds a).

(** Two stores with the same atoms as far as kinds and bonds go. *)
Definition same_shape : relation Store :=
  Forall2 (λ a a', kind a' = kind a ∧ bonds a' = bonds a).

(** The heap before the first round on the example compound. *)
Definition example_heap : Heap :=
  mkHeap ∅ (prepare <$> yield_atoms example_compound).


(** Every rule number that the groups hold is a key of the catalogue. *)
Definition groups_within (rules_by_number : gmap string RuleFn)
    (rule_matches : gmap (option string * list string) (gset string)) : Prop :=
  ∀ key rules r, rule_matches !! key = Some rules → r ∈ rules →
    is_Some (rules_by_number !! r).

(** Two rules for a carbon with one neighbour, neither with a blacklist. *)
Definition overlapping_catalogue : Globals :=
  mkGlobals {["1" := sink_rule 1 []; "2" := sink_rule 2 []]} ∅ ∅.

(** An identifier that the registry offers to an atom: some rule filed under
    the atom's kind and number of bonds carries an effect decorator (a
    [Whitelist] or a [Blacklist]) that names it. *)
Definition offered (g : Globals) (effect : list string → RuleDecorator) (a : Atom)
    (x : string) : Prop :=
  ∃ rule_number rule ids,
    rule_number ∈ bucket (rule_map g) (Some (kind a)) (Some (length (bonds a))) ∧
    rule_number_to_rule g !! rule_number = Some rule ∧
    effect ids ∈ closure_decorators rule ∧ x ∈ ids.

(** Every entry of every set of the store was offered to its atom. *)
Definition sourced (g : Globals) (s : Store) : Prop :=
  ∀ i a, s !! i = Some a →
    (∀ w x, whitelist a = Some w → x ∈ w → offered g Whitelist a x) ∧
    (∀ b x, blacklist a = Some b → x ∈ b → offered g Blacklist a x).

(** * Properties *)

(** ** Results and loops *)

Lemma bind_Returned {A B} (m : Result A) (f : A → Result B) (b : B) :
  m ≫= f = Returned b ↔ ∃ a, m = Returned a ∧ f a = Returned b.
Proof.
  destruct m as [a|e]; simpl; split.
  - intros H. by exists a.
  - by intros (a' & [= ->] & H).
  - intros H. discriminate H.
  - by intros (a' & [=] & _).
Qed.

Ltac inv_bind_anon H :=
  let x := fresh "x" in
  let Hx := fresh "Hx" in
  apply bind_Returned in H as (x & Hx & H).

Tactic Notation "inv_bind" hyp(H) := inv_bind_anon H.

Tactic Notation "inv_bind" hyp(H) "as" simple_intropattern(p) ident(Hp) :=
  apply bind_Returned in H as (p & Hp & H).

Lemma get_Returned (s : Store) (i : nat) (a : Atom) :
  get s i = Returned a ↔ s !! i = Some a.
Proof. unfold get. destruct (s !! i); split; congruence. Qed.

Lemma read_whitelist_Returned (a : Atom) (w : OrderedSet.t) :
  read_whitelist a = Returned w ↔ whitelist a = Some w.
Proof. unfold read_whitelist. destruct (whitelist a); split; congruence. Qed.

Lemma read_blacklist_Returned (a : Atom) (b : OrderedSet.t) :
  read_blacklist a = Returned b ↔ blacklist a = Some b.
Proof. unfold read_blacklist. destruct (blacklist a); split; congruence. Qed.

(** An invariant of the loop-carried state holds after the loop. *)
Lemma for_each_invariant {A S} (P : S → Prop) (body : S → A → Result S)
    (l : list A) (st st' : S) :
  P st →
  (∀ s x s', x ∈ l → P s → body s x = Returned s' → P s') →
  for_each body l st = Returned st' →
  P st'.
Proof.
  revert st. induction l as [|x l IH]; intros st HP Hstep Hrun; simpl in Hrun.
  - by injection Hrun as <-.
  - inv_bind Hrun. apply (IH x0); [|by intros; eapply Hstep; [right|..]|done].
    apply (Hstep st x); [by left|done..].
Qed.

(** A loop whose body always returns, returns. *)
Lemma for_each_returns {A S} (P : S → Prop) (body : S → A → Result S)
    (l : list A) (st : S) :
  P st →
  (∀ s x, x ∈ l → P s → ∃ s', body s x = Returned s' ∧ P s') →
  ∃ st', for_each body l st = Returned st' ∧ P st'.
Proof.
  revert st. induction l as [|x l IH]; intros st HP Hstep; simpl.
  - by exists st.
  - destruct (Hstep st x) as (s' & -> & HP'); [by left|done|]. simpl.
    apply IH; [done|]. intros. apply Hstep; [by right|done].
Qed.

Lemma for_each_app {A S} (body : S → A → Result S) (l1 l2 : list A) (st : S) :
  for_each body (l1 ++ l2) st = for_each body l1 st ≫= for_each body l2.
Proof.
  revert st. induction l1 as [|x l1 IH]; intros st; simpl; [done|].
  destruct (body st x); simpl; [apply IH|done].
Qed.

(** ** The ordered set *)

Lemma OrderedSet_elem_of_add (x y : string) (s : OrderedSet.t) :
  y ∈ OrderedSet.add x s ↔ y = x ∨ y ∈ s.
Proof.
  unfold OrderedSet.add. case_decide.
  - split; [by right|]. by intros [-> | ?].
  - rewrite elem_of_app, list_elem_of_singleton. tauto.
Qed.

Lemma OrderedSet_add_NoDup (x : string) (s : OrderedSet.t) :
  NoDup s → NoDup (OrderedSet.add x s).
Proof.
  unfold OrderedSet.add. case_decide; [done|]. intros Hs.
  apply NoDup_app. split_and!; [done| |apply NoDup_singleton].
  intros y Hy ->%list_elem_of_singleton. done.
Qed.

Lemma OrderedSet_add_prefix (x : string) (s : OrderedSet.t) :
  s `prefix_of` OrderedSet.add x s.
Proof. unfold OrderedSet.add. case_decide; [done|]. by apply prefix_app_r. Qed.

Lemma OrderedSet_add_present (x : string) (s : OrderedSet.t) :
  x ∈ s → OrderedSet.add x s = s.
Proof. unfold OrderedSet.add. by case_decide. Qed.

(** ** [check_atom] *)

Lemma elem_of_collect_rule_ids (x : string) (input_rule_ids : RuleIds) :
  x ∈ collect_rule_ids input_rule_ids ↔
  match input_rule_ids with
  | OneId r => x = str r
  | ManyIds l => ∃ r, r ∈ l ∧ x = str r
  end.
Proof.
  destruct input_rule_ids as [r|l]; simpl.
  - apply elem_of_singleton.
  - assert (∀ X : gset string,
      x ∈ foldl (λ rule_ids rule, rule_ids ∪ {[str rule]}) X l ↔
      x ∈ X ∨ ∃ r, r ∈ l ∧ x = str r) as Hfold.
    { induction l as [|r l IH]; intros X; simpl.
      - split; [by left|]. intros [?|(r & Hr & _)]; [done|]. by apply elem_of_nil in Hr.
      - rewrite IH, elem_of_union, elem_of_singleton. split.
        + intros [[? | ->] | (r' & ? & ->)]; [by left|right..].
          * exists r. split; [by left|done].
          * exists r'. split; [by right|done].
        + intros [? | (r' & [-> | ?]%elem_of_cons & ->)].
          * by left; left.
          * by left; right.
          * right. by exists r'. }
    rewrite Hfold. split; [|by right]. intros [H|H]; [|done].
    by apply elem_of_empty in H.
Qed.

Lemma check_atom_loop_spec (a : Atom) (w : OrderedSet.t) (rule_ids : list string) :
  whitelist a = Some w →
  check_atom_loop a rule_ids =
    Returned (if decide (Exists (λ rule, rule ∈ w) rule_ids) then Some true else None).
Proof.
  intros Hw. induction rule_ids as [|rule rest IH]; simpl.
  - done.
  - destruct (decide (Exists (λ rule, rule ∈ w) (rule :: rest))) as [Hex|Hnex];
      simpl; unfold read_whitelist; rewrite Hw; simpl.
    + destruct (decide (rule ∈ w)); [done|]. rewrite IH.
      rewrite decide_True; [done|]. by apply Exists_cons in Hex as [?|?].
    + rewrite decide_False by (contradict Hnex; by left).
      rewrite IH. rewrite decide_False; [done|]. contradict Hnex. by right.
Qed.

(** C10: on an atom that carries a whitelist, [check_atom] returns [True]
    when one of the given identifiers, converted with [str], is in the
    whitelist, and otherwise the implicit [None]; it never returns [False]. *)
Theorem check_atom_true_or_none (a : Atom) (w : OrderedSet.t) (input_rule_ids : RuleIds) :
  whitelist a = Some w →
  ((∃ rule, rule ∈ asked input_rule_ids ∧ rule ∈ w) →
     check_atom a input_rule_ids = Returned (Some true)) ∧
  (¬ (∃ rule, rule ∈ asked input_rule_ids ∧ rule ∈ w) →
     check_atom a input_rule_ids = Returned None) ∧
  check_atom a input_rule_ids ≠ Returned (Some false).
Proof.
  intros Hw. unfold check_atom. rewrite (check_atom_loop_spec a w _ Hw).
  assert (Exists (λ rule, rule ∈ w) (elements (collect_rule_ids input_rule_ids)) ↔
          ∃ rule, rule ∈ asked input_rule_ids ∧ rule ∈ w) as Hex.
  { rewrite Exists_exists. apply exist_proper; intros rule.
    rewrite elem_of_elements, elem_of_collect_rule_ids.
    destruct input_rule_ids as [r|l]; simpl.
    - by rewrite list_elem_of_singleton.
    - rewrite list_elem_of_fmap.
      split; intros [(r & ? & ?) ?]; (split; [by exists r|done]). }
  split_and!.
  - intros H. by rewrite decide_True by by apply Hex.
  - intros H. by rewrite decide_False by by rewrite Hex.
  - by case_decide.
Qed.

Lemma check_atom_true_or_none_witness :
  check_atom (mkAtom "C" [] (Some ["135"; "145"]) (Some []) None)
             (ManyIds [IdInt 141; IdInt 145]) = Returned (Some true) ∧
  check_atom (mkAtom "C" [] (Some ["135"; "145"]) (Some []) None)
             (OneId (IdStr "140")) = Returned None.
Proof.
  pose proof (check_atom_true_or_none
                (mkAtom "C" [] (Some ["135"; "145"]) (Some []) None)
                ["135"; "145"] (ManyIds [IdInt 141; IdInt 145]) eq_refl) as (H1 & _ & _).
  pose proof (check_atom_true_or_none
                (mkAtom "C" [] (Some ["135"; "145"]) (Some []) None)
                ["135"; "145"] (OneId (IdStr "140")) eq_refl) as (_ & H2 & _).
  split.
  - apply H1. exists "145". split; vm_compute; repeat constructor.
  - apply H2. intros (rule & Hr & Hw). vm_compute in Hr.
    apply list_elem_of_singleton in Hr as ->.
    by repeat (apply elem_of_cons in Hw as [Hw|Hw]; [discriminate Hw|]);
       apply elem_of_nil in Hw.
Defined.

(** ** Resolution *)

Lemma resolve_step_spec (s : Store) (log : list Warning) (i ref : nat)
    (a : Atom) (w b : OrderedSet.t) :
  s !! ref = Some a → whitelist a = Some w → blacklist a = Some b →
  resolve_step (s, log) (i, ref) =
    Returned (<[ref := set_atomtype (Some (resolution w b)) a]> s,
              log ++ (if decide (length (OrderedSet.difference w b) = 1) then []
                      else [CheckTopology i (kind a) (OrderedSet.difference w b)])).
Proof.
  intros Hs Hw Hb. unfold resolve_step, get, read_whitelist, read_blacklist, resolution.
  rewrite Hs. simpl. rewrite Hw. simpl. rewrite Hb. simpl.
  destruct (OrderedSet.difference w b) as [|t [|t' rest]]; simpl; try done.
  by rewrite app_nil_r.
Qed.

Lemma for_each_cons {A S} (body : S → A → Result S) (x : A) (l : list A) (st : S) :
  for_each body (x :: l) st = body st x ≫= for_each body l.
Proof. done. Qed.

Lemma same_lists_refl (a : Atom) : same_lists a a.
Proof. by unfold same_lists. Qed.

Lemma same_lists_trans (a b c : Atom) :
  same_lists a b → same_lists b c → same_lists a c.
Proof. unfold same_lists. intros (?&?&?&?) (?&?&?&?). split_and!; congruence. Qed.

Lemma resolve_loop_spec (l : list (nat * nat)) (s : Store) (log : list Warning) :
  (∀ ref, ref ∈ l.*2 →
     ∃ a w b, s !! ref = Some a ∧ whitelist a = Some w ∧ blacklist a = Some b) →
  ∃ s' log',
    for_each resolve_step l (s, log) = Returned (s', log ++ log') ∧
    length s' = length s ∧
    (∀ ref a, s !! ref = Some a →
       ∃ a', s' !! ref = Some a' ∧ same_lists a a' ∧
             (ref ∈ l.*2 →
              ∀ w b, whitelist a = Some w → blacklist a = Some b →
                     atomtype a' = Some (resolution w b)) ∧
             (ref ∉ l.*2 → a' = a)) ∧
    (∀ wng, wng ∈ log' ↔
       ∃ i ref a w b, (i, ref) ∈ l ∧ s !! ref = Some a ∧
         whitelist a = Some w ∧ blacklist a = Some b ∧
         length (OrderedSet.difference w b) ≠ 1 ∧
         wng = CheckTopology i (kind a) (OrderedSet.difference w b)).
Proof.
  revert s log. induction l as [|[i ref] l IH]; intros s log Hprep.
  - exists s, []. simpl. rewrite app_nil_r. split_and!; [done..| |].
    + intros ref a Hs. exists a. split_and!; [done|apply same_lists_refl| |done].
      by intros ?%elem_of_nil.
    + intros wng. split; [by intros ?%elem_of_nil|].
      intros (i & ref & a & w & b & Hi & _). by apply elem_of_nil in Hi.
  - destruct (Hprep ref) as (a & w & b & Hs & Hw & Hb); [by left|].
    rewrite for_each_cons, (resolve_step_spec s log i ref a w b Hs Hw Hb). simpl.
    set (a1 := set_atomtype (Some (resolution w b)) a).
    set (s1 := <[ref := a1]> s).
    set (w1 := if decide (length (OrderedSet.difference w b) = 1) then []
               else [CheckTopology i (kind a) (OrderedSet.difference w b)]).
    assert (ref < length s) as Hlt by by eapply lookup_lt_Some.
    assert (s1 !! ref = Some a1) as Hs1ref by by apply list_lookup_insert_eq.
    assert (∀ r, r ≠ ref → s1 !! r = s !! r) as Hs1ne
        by by intros; apply list_lookup_insert_ne.
    destruct (IH s1 (log ++ w1)) as (s' & log' & Hrun & Hlen & Hst & Hlog).
    { intros ref' Hin. destruct (decide (ref' = ref)) as [->|Hne].
      - by exists a1, w, b.
      - rewrite Hs1ne by done. apply Hprep. by right. }
    exists s', (w1 ++ log'). rewrite Hrun, (assoc_L (++)).
    split_and!; [done|by rewrite Hlen; apply length_insert| |].
    + intros r x Hr. destruct (decide (r = ref)) as [->|Hne].
      * assert (x = a) as -> by congruence.
        destruct (Hst ref a1 Hs1ref) as (x' & Hx' & Hsame & Hin & Hout).
        exists x'. split_and!; [done|by eapply same_lists_trans| |].
        -- intros _ wx bx Hwx Hbx.
           assert (w = wx ∧ b = bx) as [<- <-] by (split; congruence).
           destruct (decide (ref ∈ l.*2)) as [Hl|Hnl]; [by apply Hin|].
           by rewrite (Hout Hnl).
        -- intros Hnot. exfalso. apply Hnot. by left.
      * rewrite <-Hs1ne in Hr by done.
        destruct (Hst r x Hr) as (x' & Hx' & Hsame & Hin & Hout).
        exists x'. split_and!; [done..| |].
        -- intros [?|?]%elem_of_cons; [done|by apply Hin].
        -- intros Hnot. apply Hout. contradict Hnot. by right.
    + intros wng. rewrite elem_of_app, Hlog. split.
      * intros [Hin|(i' & ref' & x1 & wx & bx & Hin & Hx1 & Hwx & Hbx & Hne & ->)].
        -- unfold w1 in Hin. case_decide; [by apply elem_of_nil in Hin|].
           apply list_elem_of_singleton in Hin as ->.
           exists i, ref, a, w, b. split_and!; [by left|done..].
        -- destruct (decide (ref' = ref)) as [->|Hneq].
           ++ assert (x1 = a1) as -> by congruence.
              exists i', ref, a, wx, bx. split_and!; [by right|done..].
           ++ rewrite Hs1ne in Hx1 by done.
              exists i', ref', x1, wx, bx. split_and!; [by right|done..].
      * intros (i' & ref' & x & wx & bx & Hin & Hx & Hwx & Hbx & Hne & ->).
        apply elem_of_cons in Hin as [[= -> ->]|Hin].
        -- left. assert (x = a) as -> by congruence.
           assert (w = wx ∧ b = bx) as [<- <-] by (split; congruence).
           unfold w1. rewrite decide_False by done. by left.
        -- right. destruct (decide (ref' = ref)) as [->|Hneq].
           ++ assert (x = a) as -> by congruence.
              exists i', ref, a1, wx, bx. split_and!; done.
           ++ exists i', ref', x, wx, bx. rewrite Hs1ne by done. split_and!; done.
Qed.

(** The remainder is the set difference, in the order of the whitelist. *)
Lemma OrderedSet_elem_of_difference (w b : OrderedSet.t) (x : string) :
  x ∈ OrderedSet.difference w b ↔ x ∈ w ∧ x ∉ b.
Proof. apply list_elem_of_difference. Qed.

Lemma elem_of_enumerate {A} (l : list A) (i : nat) (x : A) :
  (i, x) ∈ enumerate l ↔ l !! i = Some x.
Proof.
  unfold enumerate. rewrite elem_of_lookup_imap. split.
  - by intros (j & y & [= -> ->] & ?).
  - intros ?. by exists i, x.
Qed.

Lemma enumerate_snd {A} (l : list A) : (enumerate l).*2 = l.
Proof.
  unfold enumerate. rewrite fmap_imap.
  transitivity (imap (const id) l); [by apply imap_ext|].
  by rewrite imap_const, list_fmap_id.
Qed.

(** C2: once every listed atom carries its two sets, the resolution loop
    runs to the end; for each listed atom it takes the set difference
    whitelist − blacklist; a single remaining identifier is recorded as the
    atom's atomtype and no warning mentions that position; with none or
    several remaining, a warning carries the atom's position, its kind and
    the whole remainder. *)
Theorem resolve_all_types_or_warns (atoms : list nat) (s : Store) :
  (∀ ref, ref ∈ atoms →
     ∃ a w b, s !! ref = Some a ∧ whitelist a = Some w ∧ blacklist a = Some b) →
  ∃ s' log,
    resolve_all atoms s = Returned (s', log) ∧
    ∀ i ref a w b,
      atoms !! i = Some ref → s !! ref = Some a →
      whitelist a = Some w → blacklist a = Some b →
      (∀ x, x ∈ OrderedSet.difference w b ↔ x ∈ w ∧ x ∉ b) ∧
      (∀ t, OrderedSet.difference w b = [t] →
         (∃ a', s' !! ref = Some a' ∧ atomtype a' = Some (AtomtypeList [t])) ∧
         ∀ k ts, CheckTopology i k ts ∉ log) ∧
      (length (OrderedSet.difference w b) ≠ 1 →
         CheckTopology i (kind a) (OrderedSet.difference w b) ∈ log).
Proof.
  intros Hprep. unfold resolve_all.
  destruct (resolve_loop_spec (enumerate atoms) s []) as (s' & log & Hrun & _ & Hst & Hlog).
  { by rewrite enumerate_snd. }
  exists s', log. split; [done|]. intros i ref a w b Hi Hs Hw Hb. split_and!.
  - intros x. apply OrderedSet_elem_of_difference.
  - intros t Ht. split.
    + destruct (Hst ref a Hs) as (a' & Ha' & _ & Hin & _). exists a'. split; [done|].
      rewrite (Hin ltac:(rewrite enumerate_snd; by eapply list_elem_of_lookup_2) w b Hw Hb).
      unfold resolution. by rewrite Ht.
    + intros k ts (i' & ref' & a' & w' & b' & Hin & Hs' & Hw' & Hb' & Hne & [= -> -> ->])%Hlog.
      apply elem_of_enumerate in Hin.
      assert (ref' = ref) as -> by congruence. assert (a' = a) as -> by congruence.
      assert (w' = w ∧ b' = b) as [-> ->] by (split; congruence).
      by rewrite Ht in Hne.
  - intros Hne. apply Hlog. exists i, ref, a, w, b.
    split_and!; [by apply elem_of_enumerate|done..].
Qed.

Example resolution_example_run :
  resolve_all [0; 1; 2] resolution_example =
  Returned
    ([ mkAtom "C" [] (Some ["135"]) (Some []) (Some (AtomtypeList ["135"]));
       mkAtom "C" [] (Some ["135"; "145"]) (Some ["145"]) (Some (AtomtypeList ["135"]));
       mkAtom "C" [] (Some ["135"; "145"]) (Some [])
              (Some (AtomtypeJoined "135, 145")) ],
     [CheckTopology 2 "C" ["135"; "145"]]).
Proof. reflexivity. Qed.

Lemma resolve_all_types_or_warns_witness :
  ∃ s' log,
    resolve_all [0; 1; 2] resolution_example = Returned (s', log) ∧
    ∀ i ref a w b,
      [0; 1; 2] !! i = Some ref → resolution_example !! ref = Some a →
      whitelist a = Some w → blacklist a = Some b →
      (∀ x, x ∈ OrderedSet.difference w b ↔ x ∈ w ∧ x ∉ b) ∧
      (∀ t, OrderedSet.difference w b = [t] →
         (∃ a', s' !! ref = Some a' ∧ atomtype a' = Some (AtomtypeList [t])) ∧
         ∀ k ts, CheckTopology i k ts ∉ log) ∧
      (length (OrderedSet.difference w b) ≠ 1 →
         CheckTopology i (kind a) (OrderedSet.difference w b) ∈ log).
Proof.
  apply (resolve_all_types_or_warns [0; 1; 2] resolution_example).
  intros ref Hin.
  repeat (apply elem_of_cons in Hin as [->|Hin]);
    [by eexists _, _, _..|by apply elem_of_nil in Hin].
Defined.

(** ** Growth of the white- and blacklists *)

#[global] Instance slot_grows_preorder : PreOrder slot_grows.
Proof.
  split.
  - intros [w|]; simpl; [by exists w|done].
  - intros [w|] y z; simpl.
    + intros (w' & -> & Hp) (w'' & -> & Hp'). exists w''. split; [done|by etrans].
    + by intros -> ->.
Qed.

#[global] Instance atom_grows_preorder : PreOrder atom_grows.
Proof.
  split.
  - intros a. by unfold atom_grows.
  - intros a b c (?&?&?&?&?) (?&?&?&?&?). unfold atom_grows.
    split_and!; [congruence..|by etrans|by etrans].
Qed.

#[global] Instance store_grows_preorder : PreOrder store_grows.
Proof. unfold store_grows. apply _. Qed.

Lemma whitelist_add_spec (rule_numbers : list string) (a a' : Atom) :
  whitelist_add rule_numbers a = Returned a' →
  atom_grows a a' ∧ blacklist a' = blacklist a ∧
  (slot_nodup (whitelist a) → slot_nodup (whitelist a')).
Proof.
  unfold whitelist_add.
  apply (for_each_invariant (λ a', atom_grows a a' ∧ blacklist a' = blacklist a ∧
           (slot_nodup (whitelist a) → slot_nodup (whitelist a')))).
  - split_and!; [reflexivity|done..].
  - intros a1 rule a2 _ (Hg & Hb & Hn) Hstep. inv_bind Hstep.
    injection Hstep as <-. unfold read_whitelist in Hx.
    destruct (whitelist a1) as [w|] eqn:Hw; [|done]. injection Hx as <-.
    split_and!; [|done|].
    + etrans; [done|]. unfold atom_grows; simpl. split_and!; [done..| |reflexivity].
      rewrite Hw. simpl. eexists. split; [done|]. apply OrderedSet_add_prefix.
    + intros Hnd w' [= <-]. apply OrderedSet_add_NoDup. by apply Hn.
Qed.

Lemma blacklist_add_spec (rule_numbers : list string) (a a' : Atom) :
  blacklist_add rule_numbers a = Returned a' →
  atom_grows a a' ∧ whitelist a' = whitelist a ∧
  (slot_nodup (blacklist a) → slot_nodup (blacklist a')).
Proof.
  unfold blacklist_add.
  apply (for_each_invariant (λ a', atom_grows a a' ∧ whitelist a' = whitelist a ∧
           (slot_nodup (blacklist a) → slot_nodup (blacklist a')))).
  - split_and!; [reflexivity|done..].
  - intros a1 rule a2 _ (Hg & Hb & Hn) Hstep. inv_bind Hstep.
    injection Hstep as <-. unfold read_blacklist in Hx.
    destruct (blacklist a1) as [w|] eqn:Hw; [|done]. injection Hx as <-.
    split_and!; [|done|].
    + etrans; [done|]. unfold atom_grows; simpl. split_and!; [done..|reflexivity|].
      rewrite Hw. simpl. eexists. split; [done|]. apply OrderedSet_add_prefix.
    + intros Hnd w' [= <-]. apply OrderedSet_add_NoDup. by apply Hn.
Qed.

Lemma heap_step_refl (i : nat) (h : Heap) : heap_step i h h.
Proof. by split. Qed.

Lemma heap_step_trans (i : nat) (h1 h2 h3 : Heap) :
  heap_step i h1 h2 → heap_step i h2 h3 → heap_step i h1 h3.
Proof.
  intros [] []. split.
  - by etrans.
  - intros j Hj. by rewrite step_frame1, step_frame0.
  - auto.
  - by etrans.
  - intros j Hj. by rewrite step_cache_frame1, step_cache_frame0.
Qed.

Lemma heap_step_update (i : nat) (h : Heap) (a a' : Atom) :
  store h !! i = Some a → atom_grows a a' →
  (slot_nodup (whitelist a) ∧ slot_nodup (blacklist a) →
   slot_nodup (whitelist a') ∧ slot_nodup (blacklist a')) →
  heap_step i h (mkHeap (cache h) (<[i := a']> (store h))).
Proof.
  intros Hi Hg Hn. split; simpl; [| | |done..].
  - unfold store_grows. apply Forall2_same_length_lookup. split.
    + by rewrite length_insert.
    + intros j x y Hx Hy. destruct (decide (j = i)) as [->|Hne].
      * rewrite list_lookup_insert_eq in Hy by by eapply lookup_lt_Some. congruence.
      * rewrite list_lookup_insert_ne in Hy by done.
        assert (x = y) as -> by congruence. reflexivity.
  - intros j Hj. by apply list_lookup_insert_ne.
  - unfold store_nodup. rewrite !Forall_lookup. intros Hall j x Hx.
    destruct (decide (j = i)) as [->|Hne].
    + rewrite list_lookup_insert_eq in Hx by by eapply lookup_lt_Some.
      injection Hx as <-. apply Hn. by eapply Hall.
    + rewrite list_lookup_insert_ne in Hx by done. by eapply Hall.
Qed.

Lemma neighbor_guard_step cmp neighbor_type count (h h' : Heap) (i : nat)
    (a : Atom) (ok : bool) :
  neighbor_guard cmp neighbor_type count h i a = (ok, h') → heap_step i h h'.
Proof.
  unfold neighbor_guard, neighbor_types. destruct (cache h !! i) as [t|] eqn:Hc.
  - intros [= _ <-]. destruct h. by split.
  - intros [= _ <-]. split; simpl; [reflexivity|done..| |].
    + by apply insert_subseteq.
    + intros j Hj. by apply lookup_insert_ne.
Qed.

Lemma call_step (fn : RuleFn) (h h' : Heap) (i : nat) (r : bool) :
  call fn h i = Returned (r, h') → heap_step i h h'.
Proof.
  revert h h' r. induction fn as [f|dec fn IH]; intros h h' r Hcall; simpl in Hcall.
  - injection Hcall as _ <-. apply heap_step_refl.
  - inv_bind Hcall. rename x into a. unfold get in Hx.
    destruct (store h !! i) as [a0|] eqn:Hi; [injection Hx as ->|done].
    destruct dec as [e|c|t c|t c|t c|ids|ids].
    + case_decide; [by eapply IH|]. injection Hcall as _ <-. apply heap_step_refl.
    + case_decide; [by eapply IH|]. injection Hcall as _ <-. apply heap_step_refl.
    + destruct (neighbor_guard _ _ _ _ _ _) as [ok h1] eqn:Hg.
      apply neighbor_guard_step in Hg. destruct ok.
      * eapply heap_step_trans; [done|by eapply IH].
      * by injection Hcall as _ <-.
    + destruct (neighbor_guard _ _ _ _ _ _) as [ok h1] eqn:Hg.
      apply neighbor_guard_step in Hg. destruct ok.
      * eapply heap_step_trans; [done|by eapply IH].
      * by injection Hcall as _ <-.
    + destruct (neighbor_guard _ _ _ _ _ _) as [ok h1] eqn:Hg.
      apply neighbor_guard_step in Hg. destruct ok.
      * eapply heap_step_trans; [done|by eapply IH].
      * by injection Hcall as _ <-.
    + inv_bind Hcall. destruct x as [r1 h1]. apply IH in Hx.
      destruct r1; [|by injection Hcall as _ <-].
      inv_bind Hcall. inv_bind Hcall. injection Hcall as _ <-.
      unfold get in Hx0. destruct (store h1 !! i) as [a1|] eqn:Hi1; [injection Hx0 as ->|done].
      apply whitelist_add_spec in Hx1 as (Hg & Hb & Hn).
      eapply heap_step_trans; [done|]. apply (heap_step_update i h1 x x0); [done..|].
      intros [??]. split; [auto|]. by rewrite Hb.
    + inv_bind Hcall. destruct x as [r1 h1]. apply IH in Hx.
      destruct r1; [|by injection Hcall as _ <-].
      inv_bind Hcall. inv_bind Hcall. injection Hcall as _ <-.
      unfold get in Hx0. destruct (store h1 !! i) as [a1|] eqn:Hi1; [injection Hx0 as ->|done].
      apply blacklist_add_spec in Hx1 as (Hg & Hb & Hn).
      eapply heap_step_trans; [done|]. apply (heap_step_update i h1 x x0); [done..|].
      intros [??]. split; [|auto]. by rewrite Hb.
Qed.

Lemma run_rule_step (rules : gmap string RuleFn) (h h' : Heap) (i : nat)
    (rule_id : string) :
  run_rule rules h i rule_id = Returned h' → heap_step i h h'.
Proof.
  unfold run_rule. intros Hrun. inv_bind Hrun as a Ha. inv_bind Hrun as w Hw.
  case_decide; [injection Hrun as <-; apply heap_step_refl|].
  destruct (rules !! rule_id) as [rule_fn|]; [|done].
  inv_bind Hrun as [r h1] Hcall. injection Hrun as <-. by eapply call_step.
Qed.

(** Re-applying a rule that the atom's whitelist already names does nothing. *)
Lemma run_rule_present (rules : gmap string RuleFn) (h : Heap) (i : nat)
    (rule_id : string) (a : Atom) (w : OrderedSet.t) :
  store h !! i = Some a → whitelist a = Some w → rule_id ∈ w →
  run_rule rules h i rule_id = Returned h.
Proof.
  intros Hi Hw Hin. unfold run_rule, get, read_whitelist. rewrite Hi. simpl.
  rewrite Hw. simpl. by rewrite decide_True.
Qed.

Lemma for_each_seq_invariant {S} (P : nat → S → Prop) (body : S → nat → Result S)
    (n : nat) (st st' : S) :
  P 0 st →
  (∀ k s s', k < n → P k s → body s k = Returned s' → P (Datatypes.S k) s') →
  for_each body (seq 0 n) st = Returned st' →
  P n st'.
Proof.
  intros H0 Hstep.
  assert (∀ len start st, start + len = n → P start st →
            for_each body (seq start len) st = Returned st' → P n st') as Hgen.
  { induction len as [|len IH]; intros start st1 Hn HP Hrun; simpl in Hrun.
    - injection Hrun as <-. by replace n with start by lia.
    - inv_bind Hrun. apply (IH (Datatypes.S start) x); [lia| |done].
      apply (Hstep start st1); [lia|done..]. }
  by apply (Hgen n 0 st).
Qed.

(** ** One round *)

Lemma run_rules_step (rules : gmap string RuleFn) (i : nat) (l : list string)
    (h h' : Heap) :
  for_each (λ h rule, run_rule rules h i rule) l h = Returned h' → heap_step i h h'.
Proof.
  apply (for_each_invariant (heap_step i h)); [apply heap_step_refl|].
  intros h1 rule h2 _ H1 H2. eapply heap_step_trans; [done|by eapply run_rule_step].
Qed.

Lemma round_step_spec (g : Globals) (st st' : RoundState) (i : nat) :
  round_step g st i = Returned st' →
  ∃ a, store (heap st) !! i = Some a ∧
       is_Some (whitelist a) ∧ is_Some (blacklist a) ∧
       heap_step i (heap st) (heap st') ∧
       old_len st' = old_len st + atom_len a ∧
       (kind a = "G" →
          heap st' = heap st ∧ new_len st' = new_len st ∧ log st' = log st) ∧
       (kind a ≠ "G" →
          ∃ a' extra, store (heap st') !! i = Some a' ∧
            new_len st' = new_len st + atom_len a' ∧
            log st' = log st ++ extra ∧
            ∀ w, w ∈ extra → coverage_warning (kind a) w).
Proof.
  unfold round_step. intros Hrun.
  inv_bind Hrun as a Ha. inv_bind Hrun as w Hw. inv_bind Hrun as b Hb.
  apply get_Returned in Ha. apply read_whitelist_Returned in Hw.
  apply read_blacklist_Returned in Hb.
  exists a. split; [done|]. split; [by eexists|]. split; [by eexists|].
  assert (atom_len a = OrderedSet.len w + OrderedSet.len b) as Hlen
    by by unfold atom_len; rewrite Hw, Hb.
  destruct (decide (kind a = "G")) as [HG|HG].
  { injection Hrun as <-. simpl. split_and!; [apply heap_step_refl|lia|done..]. }
  inv_bind Hrun as [h1 log1] Hrules. inv_bind Hrun as a' Ha'.
  inv_bind Hrun as w' Hw'. inv_bind Hrun as b' Hb'. injection Hrun as <-. simpl.
  apply get_Returned in Ha'. apply read_whitelist_Returned in Hw'.
  apply read_blacklist_Returned in Hb'.
  assert (heap_step i (heap st) h1 ∧
          ∃ extra, log1 = log st ++ extra ∧ ∀ w, w ∈ extra → coverage_warning (kind a) w)
    as (Hstep & extra & -> & Hextra).
  { destruct (rule_map g !! Some (kind a)) as [by_count|].
    - destruct (by_count !! Some (length (bonds a))) as [rules|].
      + inv_bind Hrules as h2 Hh2. injection Hrules as <- <-.
        split; [by eapply run_rules_step|]. exists []. rewrite app_nil_r.
        split; [done|]. by intros w0 ?%elem_of_nil.
      + injection Hrules as <- <-. split; [apply heap_step_refl|]. eexists. split; [done|].
        intros w0 ->%list_elem_of_singleton. right. by eexists.
    - injection Hrules as <- <-. split; [apply heap_step_refl|]. eexists. split; [done|].
      intros w0 ->%list_elem_of_singleton. by left. }
  split_and!; [done|lia|done|].
  intros _. exists a', extra. split_and!.
  - done.
  - unfold atom_len, OrderedSet.len. rewrite Hw', Hb'. simpl. lia.
  - done.
  - done.
Qed.

Lemma take_agree {A} (l l' : list A) (k : nat) :
  (∀ j, j < k → l' !! j = l !! j) → take k l' = take k l.
Proof.
  intros Hagree. apply list_eq. intros j. destruct (decide (j < k)).
  - rewrite !lookup_take_lt by done. by apply Hagree.
  - rewrite !lookup_take_ge by lia. done.
Qed.

Lemma round_inv_step (g : Globals) (h0 : Heap) (k : nat) (st st' : RoundState) :
  round_inv h0 k st → round_step g st k = Returned st' → round_inv h0 (S k) st'.
Proof.
  intros [Hgrows Hnodup Hcache Hrest Hports Hold Hnew Hlog] Hstep.
  apply round_step_spec in Hstep
    as (a & Ha & _ & _ & [Sgrows Sframe Snodup Scache Scframe] & Sold & SG & SnG).
  assert (store h0 !! k = Some a) as Ha0 by by rewrite <-Hrest.
  assert (take k (store (heap st')) = take k (store (heap st))) as Htake.
  { apply take_agree. intros j Hj. apply Sframe. lia. }
  split.
  - by etrans.
  - auto.
  - by etrans.
  - intros j Hj. rewrite Sframe by lia. apply Hrest. lia.
  - intros j aj Hj HGj. destruct (Hports j aj Hj HGj) as [Hs Hc].
    destruct (decide (j = k)) as [->|Hne].
    + assert (aj = a) as -> by congruence. destruct (SG HGj) as (-> & _ & _). done.
    + by rewrite Sframe, Scframe.
  - rewrite Sold, Hold, (take_S_r _ _ _ Ha0), sum_list_with_app. simpl. lia.
  - destruct (decide (kind a = "G")) as [HG|HG].
    + destruct (SG HG) as (Hh & -> & _). rewrite Hh, (take_S_r _ _ _ Ha), sum_list_with_app.
      simpl. unfold real_len at 2. rewrite decide_True by done. lia.
    + destruct (SnG HG) as (a' & extra & Ha' & -> & _ & _).
      rewrite (take_S_r _ _ _ Ha'), sum_list_with_app, Htake, Hnew. simpl.
      unfold real_len at 3. rewrite decide_False; [lia|].
      destruct (Forall2_lookup_lr _ _ _ _ _ _ Sgrows Ha Ha') as (-> & _). done.
  - intros w Hw. destruct (decide (kind a = "G")) as [HG|HG].
    + destruct (SG HG) as (_ & _ & Hl). rewrite Hl in Hw. by apply Hlog.
    + destruct (SnG HG) as (a' & extra & _ & _ & Hl & Hextra).
      rewrite Hl in Hw. apply elem_of_app in Hw as [Hw|Hw]; [by apply Hlog|].
      exists k, a. split_and!; [done..|by apply Hextra].
Qed.

Lemma typing_round_inv (g : Globals) (h : Heap) (st : RoundState) :
  typing_round g h = Returned st → round_inv h (length (store h)) st.
Proof.
  unfold typing_round.
  apply (for_each_seq_invariant (round_inv h)).
  - split; simpl; [reflexivity|done..| |].
    + done.
    + by intros w ?%elem_of_nil.
  - intros k s s' _. apply round_inv_step.
Qed.

Lemma store_grows_prepared (s s' : Store) :
  store_grows s s' → prepared s → prepared s'.
Proof.
  unfold prepared. rewrite !Forall_lookup. intros Hg Hp i a' Ha'.
  destruct (Forall2_lookup_r _ _ _ _ _ Hg Ha') as (a & Ha & _ & _ & _ & Hw & Hb).
  destruct (Hp i a Ha) as [[w Hw0] [b Hb0]]. rewrite Hw0 in Hw. rewrite Hb0 in Hb.
  destruct Hw as (w' & -> & _). destruct Hb as (b' & -> & _). by split.
Qed.

Lemma store_grows_length (s s' : Store) : store_grows s s' → length s' = length s.
Proof. intros Hg. symmetry. by eapply Forall2_length. Qed.

Lemma sum_list_with_ext_Forall {A} (f g : A → nat) (l : list A) :
  Forall (λ x, f x = g x) l → sum_list_with f l = sum_list_with g l.
Proof. induction 1 as [|x l Hx _ IH]; simpl; [done|]. by rewrite Hx, IH. Qed.

(** The two counters of a round are the totals before and after it. *)
Lemma typing_round_counts (g : Globals) (h : Heap) (st : RoundState) :
  ports_blank (store h) →
  typing_round g h = Returned st →
  old_len st = total_len (store h) ∧
  new_len st = total_len (store (heap st)) ∧
  ports_blank (store (heap st)).
Proof.
  intros Hblank Hrun. apply typing_round_inv in Hrun as [].
  assert (ports_blank (store (heap st))) as Hblank'.
  { unfold ports_blank in *. rewrite Forall_lookup in *. intros j a' Ha' HG.
    destruct (Forall2_lookup_r _ _ _ _ _ inv_grows0 Ha') as (a & Ha & Hk & _).
    rewrite Hk in HG. destruct (inv_ports0 j a Ha HG) as [Hs _].
    assert (a' = a) as -> by congruence. by eapply Hblank. }
  split_and!; [| |done].
  - by rewrite inv_old0, take_ge.
  - rewrite inv_new0, take_ge by (by rewrite (store_grows_length _ _ inv_grows0)).
    unfold total_len. apply sum_list_with_ext_Forall.
    eapply Forall_impl; [exact Hblank'|]. intros a Ha. unfold real_len.
    case_decide; [by rewrite Ha|done].
Qed.

(** ** The rounds do not raise on a prepared store *)

Lemma whitelist_add_returns (rule_numbers : list string) (a : Atom) :
  is_Some (whitelist a) → ∃ a', whitelist_add rule_numbers a = Returned a'.
Proof.
  intros Hw. unfold whitelist_add.
  destruct (for_each_returns (λ a : Atom, is_Some (whitelist a))
              (λ a rule, w ← read_whitelist a;
                         mret (set_whitelist (Some (OrderedSet.add rule w)) a))
              rule_numbers a Hw) as (a' & Hrun & _); [|by eexists].
  intros a1 rule _ [w Hw1]. unfold read_whitelist. rewrite Hw1. simpl. by eexists.
Qed.

Lemma blacklist_add_returns (rule_numbers : list string) (a : Atom) :
  is_Some (blacklist a) → ∃ a', blacklist_add rule_numbers a = Returned a'.
Proof.
  intros Hb. unfold blacklist_add.
  destruct (for_each_returns (λ a : Atom, is_Some (blacklist a))
              (λ a rule, b ← read_blacklist a;
                         mret (set_blacklist (Some (OrderedSet.add rule b)) a))
              rule_numbers a Hb) as (a' & Hrun & _); [|by eexists].
  intros a1 rule _ [b Hb1]. unfold read_blacklist. rewrite Hb1. simpl. by eexists.
Qed.

Lemma neighbor_guard_store cmp neighbor_type count (h : Heap) (i : nat) (a : Atom) :
  store (neighbor_guard cmp neighbor_type count h i a).2 = store h.
Proof. unfold neighbor_guard. by destruct (neighbor_types _ _ _ _). Qed.

Lemma call_returns (fn : RuleFn) (h : Heap) (i : nat) :
  prepared (store h) → i < length (store h) →
  ∃ r h', call fn h i = Returned (r, h').
Proof.
  revert h. induction fn as [f|dec fn IH]; intros h Hprep Hi; simpl; [by eexists _, _|].
  destruct (lookup_lt_is_Some_2 _ _ Hi) as [a Ha].
  rewrite (proj2 (get_Returned _ _ _) Ha). simpl.
  assert (∀ cmp t c, ∃ r h',
            (let '(ok, h1) := neighbor_guard cmp t c h i a in
             if ok then call fn h1 i else mret (false, h1)) = Returned (r, h')) as Hguard.
  { intros cmp t c. pose proof (neighbor_guard_store cmp t c h i a) as Hst.
    destruct (neighbor_guard cmp t c h i a) as [ok h1]. simpl in Hst.
    destruct ok; [|by eexists _, _]. apply IH; by rewrite Hst. }
  destruct dec as [e|c|t c|t c|t c|ids|ids]; try apply Hguard.
  - case_decide; [by apply IH|by eexists _, _].
  - case_decide; [by apply IH|by eexists _, _].
  - destruct (IH h Hprep Hi) as (r & h1 & Hcall). rewrite Hcall. simpl.
    destruct r; [|by eexists _, _]. apply call_step in Hcall as [Hg _ _ _ _].
    pose proof (store_grows_prepared _ _ Hg Hprep) as Hprep1.
    assert (i < length (store h1)) as Hi1 by by rewrite (store_grows_length _ _ Hg).
    destruct (lookup_lt_is_Some_2 _ _ Hi1) as [a1 Ha1].
    rewrite (proj2 (get_Returned _ _ _) Ha1). simpl.
    unfold prepared in Hprep1. rewrite Forall_lookup in Hprep1.
    destruct (whitelist_add_returns ids a1) as [a2 ->]; [by eapply Hprep1|].
    simpl. by eexists _, _.
  - destruct (IH h Hprep Hi) as (r & h1 & Hcall). rewrite Hcall. simpl.
    destruct r; [|by eexists _, _]. apply call_step in Hcall as [Hg _ _ _ _].
    pose proof (store_grows_prepared _ _ Hg Hprep) as Hprep1.
    assert (i < length (store h1)) as Hi1 by by rewrite (store_grows_length _ _ Hg).
    destruct (lookup_lt_is_Some_2 _ _ Hi1) as [a1 Ha1].
    rewrite (proj2 (get_Returned _ _ _) Ha1). simpl.
    unfold prepared in Hprep1. rewrite Forall_lookup in Hprep1.
    destruct (blacklist_add_returns ids a1) as [a2 ->]; [by eapply Hprep1|].
    simpl. by eexists _, _.
Qed.

Lemma run_rule_returns (rules : gmap string RuleFn) (h : Heap) (i : nat)
    (rule_id : string) :
  prepared (store h) → i < length (store h) → is_Some (rules !! rule_id) →
  ∃ h', run_rule rules h i rule_id = Returned h'.
Proof.
  intros Hprep Hi [rule_fn Hrule]. unfold run_rule.
  destruct (lookup_lt_is_Some_2 _ _ Hi) as [a Ha].
  rewrite (proj2 (get_Returned _ _ _) Ha). simpl.
  unfold prepared in Hprep. rewrite Forall_lookup in Hprep.
  destruct (Hprep i a Ha) as [[w Hw] _]. unfold read_whitelist. rewrite Hw. simpl.
  case_decide; [by eexists|]. rewrite Hrule.
  destruct (call_returns rule_fn h i) as (r & h' & ->); [by apply Forall_lookup|done|].
  simpl. by eexists.
Qed.

Lemma round_step_returns (g : Globals) (st : RoundState) (i : nat) :
  registry_closed g → prepared (store (heap st)) → i < length (store (heap st)) →
  ∃ st', round_step g st i = Returned st'.
Proof.
  intros Hclosed Hprep Hi. unfold round_step.
  destruct (lookup_lt_is_Some_2 _ _ Hi) as [a Ha].
  rewrite (proj2 (get_Returned _ _ _) Ha). simpl.
  pose proof Hprep as Hprep0. unfold prepared in Hprep0. rewrite Forall_lookup in Hprep0.
  destruct (Hprep0 i a Ha) as [[w Hw] [b Hb]].
  rewrite (proj2 (read_whitelist_Returned _ _) Hw). simpl.
  rewrite (proj2 (read_blacklist_Returned _ _) Hb). simpl.
  case_decide; [by eexists|].
  assert (∃ h1 log1,
    match rule_map g !! Some (kind a) with
    | Some by_count =>
        match by_count !! Some (length (bonds a)) with
        | Some rules =>
            h' ← for_each (λ h rule, run_rule (rule_number_to_rule g) h i rule)
                          rules (heap st);
            mret (h', log st)
        | None =>
            mret (heap st, log st ++ [NoRuleForNeighbors (length (bonds a)) (kind a)])
        end
    | None => mret (heap st, log st ++ [NoRuleForKind (kind a)])
    end = Returned (h1, log1) ∧ heap_step i (heap st) h1) as (h1 & log1 & -> & Hstep).
  { destruct (rule_map g !! Some (kind a)) as [by_count|] eqn:Hmap;
      [|eexists _, _; split; [done|apply heap_step_refl]].
    destruct (by_count !! Some (length (bonds a))) as [rules|] eqn:Hcount;
      [|eexists _, _; split; [done|apply heap_step_refl]].
    edestruct (for_each_returns (λ h, heap_step i (heap st) h)
                 (λ h rule, run_rule (rule_number_to_rule g) h i rule) rules (heap st))
      as (h1 & Hrun & Hstep); [apply heap_step_refl| |].
    - intros h2 rule Hin Hstep2. pose proof Hstep2 as [Hg _ _ _ _].
      destruct (run_rule_returns (rule_number_to_rule g) h2 i rule) as [h3 Hh3].
      + by eapply store_grows_prepared.
      + by rewrite (store_grows_length _ _ Hg).
      + by eapply Hclosed.
      + exists h3. split; [done|]. eapply heap_step_trans; [done|by eapply run_rule_step].
    - rewrite Hrun. simpl. by eexists _, _. }
  simpl. destruct Hstep as [Hg _ _ _ _].
  pose proof (store_grows_prepared _ _ Hg Hprep) as Hprep1.
  assert (i < length (store h1)) as Hi1 by by rewrite (store_grows_length _ _ Hg).
  destruct (lookup_lt_is_Some_2 _ _ Hi1) as [a1 Ha1].
    rewrite (proj2 (get_Returned _ _ _) Ha1). simpl.
  unfold prepared in Hprep1. rewrite Forall_lookup in Hprep1.
  destruct (Hprep1 i a1 Ha1) as [[w1 Hw1] [b1 Hb1]].
  rewrite (proj2 (read_whitelist_Returned _ _) Hw1). simpl.
  rewrite (proj2 (read_blacklist_Returned _ _) Hb1). simpl. by eexists.
Qed.

Lemma typing_round_returns (g : Globals) (h : Heap) :
  registry_closed g → prepared (store h) → ∃ st, typing_round g h = Returned st.
Proof.
  intros Hclosed Hprep. unfold typing_round.
  edestruct (for_each_returns
               (λ st, store_grows (store h) (store (heap st)))
               (round_step g) (seq 0 (length (store h))) (mkRound 0 0 h []))
    as (st & Hrun & _); [reflexivity| |by eexists].
  intros st k [_ Hk]%elem_of_seq Hg.
  destruct (round_step_returns g st k) as [st' Hst'];
    [done|by eapply store_grows_prepared|by rewrite (store_grows_length _ _ Hg)|].
  exists st'. split; [done|]. etrans; [done|].
  apply round_step_spec in Hst' as (_ & _ & _ & _ & [Hg' _ _ _ _] & _). done.
Qed.

(** ** The loop over the rounds *)

Lemma run_inv_refl (h : Heap) : run_inv h h.
Proof. by split. Qed.

Lemma run_inv_trans (h1 h2 h3 : Heap) : run_inv h1 h2 → run_inv h2 h3 → run_inv h1 h3.
Proof.
  intros [] []. split; [by etrans|auto|by etrans|].
  intros j a Ha HG. destruct (run_ports0 j a Ha HG) as [Hs Hc].
  destruct (run_ports1 j a Hs HG) as [Hs' Hc']. split; [done|congruence].
Qed.

Lemma typing_round_run (g : Globals) (h : Heap) (st : RoundState) :
  typing_round g h = Returned st → run_inv h (heap st).
Proof. intros []%typing_round_inv. by split. Qed.

Lemma round_warning_mono (s s' : Store) (w : Warning) :
  store_grows s s' → round_warning s' w → round_warning s w.
Proof.
  intros Hg (j & a' & Ha' & HG & Hw).
  destruct (Forall2_lookup_r _ _ _ _ _ Hg Ha') as (a & Ha & Hk & _).
  exists j, a. by rewrite <-Hk.
Qed.

Lemma typing_loop_run (cap : nat) (g : Globals) (h h' : Heap) (log : list Warning) :
  typing_loop cap g h = Returned (h', log) →
  run_inv h h' ∧ ∀ w, w ∈ log → w = MaxIterations ∨ round_warning (store h) w.
Proof.
  revert h h' log. induction cap as [|n IH]; intros h h' log Hrun; simpl in Hrun.
  - injection Hrun as <- <-. split; [apply run_inv_refl|].
    intros w ->%list_elem_of_singleton. by left.
  - inv_bind Hrun as st Hst. pose proof (typing_round_run _ _ _ Hst) as Hinv.
    apply typing_round_inv in Hst as [_ _ _ _ _ _ _ Hlog].
    case_decide.
    + injection Hrun as <- <-. split; [done|]. intros w Hw. right. by apply Hlog.
    + inv_bind Hrun as [h1 log1] Hrest. injection Hrun as <- <-.
      apply IH in Hrest as [Hinv1 Hlog1]. split; [by eapply run_inv_trans|].
      intros w [Hw|Hw]%elem_of_app; [right; by apply Hlog|].
      destruct (Hlog1 w Hw) as [->|Hrw]; [by left|right].
      eapply round_warning_mono; [|done]. by destruct Hinv.
Qed.

Lemma after_rounds_S (g : Globals) (h : Heap) (st : RoundState) (k : nat) :
  typing_round g h = Returned st →
  after_rounds g (S k) h = after_rounds g k (heap st).
Proof. intros Hst. simpl. by rewrite Hst. Qed.

Lemma round_changes_S (g : Globals) (h : Heap) (st : RoundState) (j : nat) :
  typing_round g h = Returned st →
  round_changes g (heap st) j → round_changes g h (S j).
Proof.
  intros Hst (hj & hj' & H1 & H2 & Hne). exists hj, hj'.
  by rewrite !(after_rounds_S g h st) by done.
Qed.

Lemma round_keeps_S (g : Globals) (h : Heap) (st : RoundState) (j : nat) :
  typing_round g h = Returned st →
  round_keeps g (heap st) j → round_keeps g h (S j).
Proof.
  intros Hst (hj & hj' & H1 & H2 & Hne). exists hj, hj'.
  by rewrite !(after_rounds_S g h st) by done.
Qed.

Lemma MaxIterations_not_round_warning (s : Store) : ¬ round_warning s MaxIterations.
Proof. by intros (j & a & _ & _ & [?|[n ?]]). Qed.

Lemma typing_loop_rounds (cap : nat) (g : Globals) (h h' : Heap) (log : list Warning) :
  ports_blank (store h) →
  typing_loop cap g h = Returned (h', log) →
  ∃ k, k ≤ cap ∧ after_rounds g k h = Returned h' ∧
       (∀ j, S j < k → round_changes g h j) ∧
       ((0 < k ∧ round_keeps g h (k - 1) ∧ MaxIterations ∉ log) ∨
        (k = cap ∧ (∀ j, j < cap → round_changes g h j) ∧ MaxIterations ∈ log)).
Proof.
  revert h h' log. induction cap as [|n IH]; intros h h' log Hblank Hrun; simpl in Hrun.
  - injection Hrun as <- <-. exists 0. split_and!; [done..|lia|].
    right. split_and!; [done|lia|by left].
  - inv_bind Hrun as st Hst.
    destruct (typing_round_counts g h st Hblank Hst) as (Hold & Hnew & Hblank').
    pose proof (typing_round_inv _ _ _ Hst) as [_ _ _ _ _ _ _ Hlog].
    assert (after_rounds g 1 h = Returned (heap st)) as H1 by by rewrite (after_rounds_S g h st).
    case_decide as Hsame.
    + injection Hrun as <- <-. exists 1. split_and!; [lia|done|lia|].
      left. split_and!; [lia| |].
      * exists h, (heap st). split_and!; [done..|congruence].
      * intros Hin%Hlog. by eapply MaxIterations_not_round_warning.
    + inv_bind Hrun as [h1 log1] Hrest. injection Hrun as <- <-.
      destruct (IH _ _ _ Hblank' Hrest) as (k & Hk & Hafter & Hchanges & Hend).
      assert (round_changes g h 0) as H0.
      { exists h, (heap st). split_and!; [done..|congruence]. }
      assert (∀ j, round_changes g (heap st) j → round_changes g h (S j)) as Hshift
        by by intros; eapply round_changes_S.
      exists (S k). split_and!; [lia|by rewrite (after_rounds_S g h st)| |].
      * intros [|j] Hj; [done|]. apply Hshift, Hchanges. lia.
      * destruct Hend as [(Hpos & Hkeeps & Hno)|(-> & Hall & Hmax)].
        -- left. split_and!; [lia| |].
           ++ replace (S k - 1) with (S (k - 1)) by lia. by eapply round_keeps_S.
           ++ intros [Hin%Hlog|Hin]%elem_of_app; [|done].
              by eapply MaxIterations_not_round_warning.
        -- right. split_and!; [done| |apply elem_of_app; by right].
           intros [|j] Hj; [done|]. apply Hshift, Hall. lia.
Qed.

Lemma typing_loop_returns (cap : nat) (g : Globals) (h : Heap) :
  registry_closed g → prepared (store h) →
  ∃ h' log, typing_loop cap g h = Returned (h', log).
Proof.
  intros Hclosed. revert h. induction cap as [|n IH]; intros h Hprep; simpl.
  - by eexists _, _.
  - destruct (typing_round_returns g h Hclosed Hprep) as [st Hst]. rewrite Hst. simpl.
    case_decide; [by eexists _, _|].
    destruct (IH (heap st)) as (h' & log' & ->); [|by eexists _, _].
    eapply store_grows_prepared; [|done]. by apply typing_round_run in Hst as [].
Qed.

Lemma prepare_prepared (s : Store) : prepared (prepare <$> s) ∧ ports_blank (prepare <$> s).
Proof.
  unfold prepared, ports_blank. rewrite !Forall_fmap. split.
  - apply Forall_true. intros a. simpl. by split; eexists.
  - by apply Forall_true.
Qed.

(** C1: started on the prepared atoms with a registry whose rule numbers all
    name catalogue rules, the loop over the rounds returns after at most [cap]
    rounds ([find_atomtypes] runs it with [max_iter] = 10).  Every round before
    the last one changed the sum over all atoms of |whitelist| + |blacklist|;
    either the last round left the sum unchanged and there is no warning about
    the cap, or all [cap] rounds changed it and that warning is emitted.  In
    both cases the resolution that follows returns and gives every atom listed
    by the compound an atomtype entry. *)
Theorem typing_halts_within_cap (cap : nat) (g : Globals) (c : Compound) :
  registry_closed g →
  (∀ ref, ref ∈ atoms c → ref < length (yield_atoms c)) →
  let h0 := mkHeap (neighbor_types_map g) (prepare <$> yield_atoms c) in
  ∃ h log k,
    typing_loop cap g h0 = Returned (h, log) ∧
    k ≤ cap ∧ after_rounds g k h0 = Returned h ∧
    (∀ j, S j < k → round_changes g h0 j) ∧
    ((0 < k ∧ round_keeps g h0 (k - 1) ∧ MaxIterations ∉ log) ∨
     (k = cap ∧ (∀ j, j < cap → round_changes g h0 j) ∧ MaxIterations ∈ log)) ∧
    ∃ s' log', resolve_all (atoms c) (store h) = Returned (s', log') ∧
      ∀ ref, ref ∈ atoms c → ∃ a, s' !! ref = Some a ∧ is_Some (atomtype a).
Proof.
  intros Hclosed Hrefs h0.
  destruct (prepare_prepared (yield_atoms c)) as [Hprep Hblank].
  destruct (typing_loop_returns cap g h0 Hclosed Hprep) as (h & log & Hrun).
  destruct (typing_loop_rounds cap g h0 h log Hblank Hrun) as (k & Hk & Hafter & Hch & Hend).
  exists h, log, k. split_and!; [done..|].
  apply typing_loop_run in Hrun as [[Hg _ _ _] _].
  pose proof (store_grows_prepared _ _ Hg Hprep) as Hprep'.
  assert (∀ ref, ref ∈ atoms c →
            ∃ a w b, store h !! ref = Some a ∧ whitelist a = Some w ∧ blacklist a = Some b)
    as Hlisted.
  { intros ref Hin. apply Hrefs in Hin.
    assert (ref < length (store h)) as Hlt.
    { rewrite (store_grows_length _ _ Hg). simpl. by rewrite length_fmap. }
    destruct (lookup_lt_is_Some_2 _ _ Hlt) as [a Ha].
    unfold prepared in Hprep'. rewrite Forall_lookup in Hprep'.
    destruct (Hprep' ref a Ha) as [[w Hw] [b Hb]]. by exists a, w, b. }
  destruct (resolve_loop_spec (enumerate (atoms c)) (store h) [])
    as (s' & log' & Hres & _ & Hst & _); [by rewrite enumerate_snd|].
  exists s', log'. split; [done|]. intros ref Hin.
  destruct (Hlisted ref Hin) as (a & w & b & Ha & Hw & Hb).
  destruct (Hst ref a Ha) as (a' & Ha' & _ & Htype & _). exists a'. split; [done|].
  rewrite (Htype ltac:(by rewrite enumerate_snd) w b Hw Hb). by eexists.
Qed.

Lemma example_globals_closed : registry_closed example_globals.
Proof.
  intros e by_count n rules r He Hn Hr. simpl in *.
  apply lookup_singleton_Some in He as [<- <-].
  apply lookup_singleton_Some in Hn as [<- <-].
  apply list_elem_of_singleton in Hr as ->.
  rewrite lookup_singleton_eq. by eexists.
Qed.

Lemma typing_halts_within_cap_witness :
  let h0 := mkHeap (neighbor_types_map example_globals)
                   (prepare <$> yield_atoms example_compound) in
  ∃ h log k,
    typing_loop max_iter example_globals h0 = Returned (h, log) ∧
    k ≤ max_iter ∧ after_rounds example_globals k h0 = Returned h ∧
    (∀ j, S j < k → round_changes example_globals h0 j) ∧
    ((0 < k ∧ round_keeps example_globals h0 (k - 1) ∧ MaxIterations ∉ log) ∨
     (k = max_iter ∧ (∀ j, j < max_iter → round_changes example_globals h0 j) ∧
      MaxIterations ∈ log)) ∧
    ∃ s' log', resolve_all (atoms example_compound) (store h) = Returned (s', log') ∧
      ∀ ref, ref ∈ atoms example_compound → ∃ a, s' !! ref = Some a ∧ is_Some (atomtype a).
Proof.
  apply (typing_halts_within_cap max_iter example_globals example_compound).
  - apply example_globals_closed.
  - intros ref Hin. simpl in *.
    repeat (apply elem_of_cons in Hin as [->|Hin]); [lia..|by apply elem_of_nil in Hin].
Defined.

(** The run above takes two rounds: the first whitelists "1" on the carbon,
    the second changes nothing. *)
Example example_run :
  (let h0 := mkHeap ∅ (prepare <$> yield_atoms example_compound) in
   typing_loop max_iter example_globals h0) =
  Returned
    (mkHeap {[0 := {["H" := 1]}]}
       [ mkAtom "C" [1] (Some ["1"]) (Some []) None;
         mkAtom "H" [0] (Some []) (Some []) None;
         mkAtom "G" [] (Some []) (Some []) None ],
     [NoRuleForKind "H"; NoRuleForKind "H"]).
Proof. vm_compute. reflexivity. Qed.

(** C3: a round, and so a whole run of rounds, keeps every atom's whitelist
    and blacklist as a prefix of the later one (no element is removed) and
    keeps the sets free of duplicates; and running a rule whose identifier is
    already in the atom's whitelist leaves the whole heap as it is. *)
Theorem lists_only_grow :
  (∀ g h st, typing_round g h = Returned st →
     (∀ i a, store h !! i = Some a →
        ∃ a', store (heap st) !! i = Some a' ∧
              slot_grows (whitelist a) (whitelist a') ∧
              slot_grows (blacklist a) (blacklist a')) ∧
     (store_nodup (store h) → store_nodup (store (heap st)))) ∧
  (∀ cap g h h' log, typing_loop cap g h = Returned (h', log) →
     (∀ i a, store h !! i = Some a →
        ∃ a', store h' !! i = Some a' ∧
              slot_grows (whitelist a) (whitelist a') ∧
              slot_grows (blacklist a) (blacklist a')) ∧
     (store_nodup (store h) → store_nodup (store h'))) ∧
  (∀ rules h i rule_id a w,
     store h !! i = Some a → whitelist a = Some w → rule_id ∈ w →
     run_rule rules h i rule_id = Returned h).
Proof.
  assert (∀ h h', run_inv h h' →
            (∀ i a, store h !! i = Some a →
               ∃ a', store h' !! i = Some a' ∧
                     slot_grows (whitelist a) (whitelist a') ∧
                     slot_grows (blacklist a) (blacklist a')) ∧
            (store_nodup (store h) → store_nodup (store h'))) as Hrun.
  { intros h h' [Hg Hn _ _]. split; [|done]. intros i a Ha.
    destruct (Forall2_lookup_l _ _ _ _ _ Hg Ha) as (a' & Ha' & _ & _ & _ & Hw & Hb).
    by exists a'. }
  split_and!.
  - intros g h st Hst. by apply Hrun, (typing_round_run g).
  - intros cap g h h' log Hloop. by apply Hrun, (typing_loop_run cap g h h' log).
  - apply run_rule_present.
Qed.

Lemma lists_only_grow_witness :
  let h0 := mkHeap ∅ (prepare <$> yield_atoms example_compound) in
  ∃ h1 log,
    typing_loop 1 example_globals h0 = Returned (h1, log) ∧
    (∀ i a, store h0 !! i = Some a →
       ∃ a', store h1 !! i = Some a' ∧
             slot_grows (whitelist a) (whitelist a') ∧
             slot_grows (blacklist a) (blacklist a')) ∧
    run_rule (rule_number_to_rule example_globals) h1 0 "1" = Returned h1.
Proof.
  destruct lists_only_grow as (_ & Hloop & Hagain).
  eexists _, _. split; [vm_compute; reflexivity|]. split.
  - eapply (Hloop 1 example_globals). vm_compute. reflexivity.
  - eapply Hagain; [reflexivity..|]. by left.
Defined.

(** ** [prepare] *)

Lemma prepare_lookup (s : Store) (i : nat) (a : Atom) :
  s !! i = Some a →
  ∃ a', (prepare <$> s) !! i = Some a' ∧ kind a' = kind a ∧
        whitelist a' = Some [] ∧ blacklist a' = Some [].
Proof. intros Ha. exists (prepare a). by rewrite list_lookup_fmap, Ha. Qed.

(** ** The registry *)

Lemma bucket_append_rule rmap e n r e' n' :
  bucket (append_rule rmap e n r) e' n' =
  if decide (e' = e ∧ n' = n) then bucket rmap e n ++ [r] else bucket rmap e' n'.
Proof.
  unfold bucket, append_rule. destruct (decide (e' = e)) as [->|He].
  - rewrite lookup_insert_eq. simpl. destruct (decide (n' = n)) as [->|Hn].
    + rewrite lookup_insert_eq, decide_True by done. simpl.
      by destruct (rmap !! e) as [by_count|]; simpl.
    + rewrite lookup_insert_ne, decide_False by (try intros [??]; done).
      by destruct (rmap !! e) as [by_count|]; simpl.
  - rewrite lookup_insert_ne, decide_False by (try intros [??]; done). done.
Qed.

Lemma build_rule_step_spec rmap log rule_number rule :
  decorated rule →
  build_rule_step (rmap, log) (rule_number, rule) =
  Returned (append_rule rmap (guards_of rule).1 (guards_of rule).2 rule_number,
            log ++ build_warnings (rule_number, rule)).
Proof.
  intros (dec & f & ->). unfold build_rule_step, build_warnings, guards_of. simpl.
  destruct (scan_guards _) as [e n]. simpl.
  destruct (truthy_element e), (truthy_count n); simpl;
    by rewrite ?app_nil_r, <-?(assoc_L (++)).
Qed.

Lemma build_rule_loop_spec (l : list (string * RuleFn)) rmap log :
  Forall (λ entry, decorated entry.2) l →
  ∃ rmap',
    for_each build_rule_step l (rmap, log) = Returned (rmap', log ++ (l ≫= build_warnings)) ∧
    ∀ e n, bucket rmap' e n =
           bucket rmap e n ++ (filter (λ entry, guards_of entry.2 = (e, n)) l).*1.
Proof.
  revert rmap log. induction l as [|[rule_number rule] l IH]; intros rmap log Hdec.
  - exists rmap. simpl. rewrite app_nil_r. split; [done|]. intros. by rewrite app_nil_r.
  - apply Forall_cons in Hdec as [Hrule Hdec]. simpl in Hrule.
    rewrite for_each_cons, (build_rule_step_spec _ _ _ _ Hrule). simpl.
    destruct (IH (append_rule rmap (guards_of rule).1 (guards_of rule).2 rule_number)
                 (log ++ build_warnings (rule_number, rule)) Hdec) as (rmap' & -> & Hb).
    exists rmap'. split; [by rewrite (assoc_L (++))|].
    intros e n. rewrite Hb, bucket_append_rule, filter_cons. simpl.
    destruct (guards_of rule) as [e0 n0] eqn:Hg. simpl.
    destruct (decide (e = e0 ∧ n = n0)) as [[-> ->]|Hne].
    + rewrite decide_True by done. simpl. by rewrite <-(assoc_L (++)).
    + rewrite decide_False; [done|]. intros [= -> ->]. by apply Hne.
Qed.

(** A rule has no [Element] decorator exactly when the scan leaves
    [element_type] at [None]; likewise for [NeighborCount]. *)
Lemma scan_guards_None (decorators : list RuleDecorator) :
  ((scan_guards decorators).1 = None ↔ ∀ t, Element t ∉ decorators) ∧
  ((scan_guards decorators).2 = None ↔ ∀ c, NeighborCount c ∉ decorators).
Proof.
  unfold scan_guards.
  induction decorators as [|dec l IH] using rev_ind.
  - simpl. split; (split; [intros _ ? ?%elem_of_nil; done|done]).
  - rewrite foldl_app. simpl. destruct IH as [IHe IHn].
    destruct (foldl _ _ l) as [e n]. simpl in *.
    setoid_rewrite elem_of_app. setoid_rewrite list_elem_of_singleton.
    destruct dec; simpl; split;
      (split; [intros H; try done; try (intros ? [?|?]; [|done]);
               try (by eapply IHe); try (by eapply IHn)
              |intros H; try (by exfalso; eapply H; right);
               try (apply IHe; intros ? ?; eapply H; by left);
               try (apply IHn; intros ? ?; eapply H; by left)]).
Qed.

Lemma elem_of_items {K} `{Countable K} {V} (d : gmap K V) (k : K) (v : V) :
  (k, v) ∈ items d ↔ d !! k = Some v.
Proof. apply elem_of_map_to_list. Qed.

Lemma items_unique {K} `{Countable K} {V} (d : gmap K V) (k : K) (v v' : V) :
  (k, v) ∈ items d → (k, v') ∈ items d → v = v'.
Proof. rewrite !elem_of_items. congruence. Qed.

Lemma build_rule_map_spec (g : Globals) :
  (∀ rule_number rule, rule_number_to_rule g !! rule_number = Some rule → decorated rule) →
  ∃ rmap,
    build_rule_map g =
      Returned (mkGlobals (rule_number_to_rule g) rmap (neighbor_types_map g),
                items (rule_number_to_rule g) ≫= build_warnings) ∧
    ∀ e n, bucket rmap e n =
           bucket (rule_map g) e n ++
           (filter (λ entry, guards_of entry.2 = (e, n)) (items (rule_number_to_rule g))).*1.
Proof.
  intros Hdec. unfold build_rule_map.
  destruct (build_rule_loop_spec (items (rule_number_to_rule g)) (rule_map g) [])
    as (rmap & -> & Hb).
  { apply Forall_forall. intros [rule_number rule] Hin%elem_of_items. by eapply Hdec. }
  by exists rmap.
Qed.

(** C5, as the code has it: over a catalogue of decorated rules and starting
    from an empty registry, [build_rule_map] returns; a rule without an
    [Element] (or [NeighborCount]) decorator is warned about; every rule,
    such a rule included, is filed once, under the one key made of its element
    type and neighbour count, [None] standing in for a missing guard; so a rule
    with a missing guard sits under no key that an atom's kind and number of
    neighbours can form. *)
Theorem build_rule_map_files_every_rule (g : Globals) :
  rule_map g = ∅ →
  (∀ rule_number rule, rule_number_to_rule g !! rule_number = Some rule → decorated rule) →
  ∃ g' log,
    build_rule_map g = Returned (g', log) ∧
    rule_number_to_rule g' = rule_number_to_rule g ∧
    ∀ rule_number rule, rule_number_to_rule g !! rule_number = Some rule →
      ((∀ t, Element t ∉ closure_decorators rule) → NoElementType rule_number ∈ log) ∧
      ((∀ c, NeighborCount c ∉ closure_decorators rule) → NoNeighborCount rule_number ∈ log) ∧
      (∀ e n, rule_number ∈ bucket (rule_map g') e n ↔ (e, n) = guards_of rule) ∧
      (∀ e n, NoDup (bucket (rule_map g') e n)) ∧
      ((∀ t, Element t ∉ closure_decorators rule) ∨
       (∀ c, NeighborCount c ∉ closure_decorators rule) →
       ∀ kind count, rule_number ∉ bucket (rule_map g') (Some kind) (Some count)).
Proof.
  intros Hempty Hdec. destruct (build_rule_map_spec g Hdec) as (rmap & Hrun & Hb).
  eexists _, _. split; [exact Hrun|]. split; [done|]. simpl.
  assert (∀ e n, bucket rmap e n =
            (filter (λ entry, guards_of entry.2 = (e, n)) (items (rule_number_to_rule g))).*1)
    as Hb'.
  { intros e n. rewrite Hb. unfold bucket at 1. by rewrite Hempty, lookup_empty. }
  intros rule_number rule Hrule.
  assert (∀ e n, rule_number ∈ bucket rmap e n ↔ (e, n) = guards_of rule) as Hkey.
  { intros e n. rewrite Hb', list_elem_of_fmap. split.
    - intros ([rn rule'] & -> & [Hg Hin]%list_elem_of_filter). simpl in *.
      apply elem_of_items in Hin. congruence.
    - intros Hg. exists (rule_number, rule). split; [done|].
      apply list_elem_of_filter. split; [done|by apply elem_of_items]. }
  destruct (scan_guards_None (closure_decorators rule)) as [Helem Hcount].
  split_and!.
  - intros Hno%Helem. apply list_elem_of_bind. exists (rule_number, rule).
    split; [|by apply elem_of_items]. unfold build_warnings, guards_of. simpl.
    rewrite Hno. simpl. by left.
  - intros Hno%Hcount. apply list_elem_of_bind. exists (rule_number, rule).
    split; [|by apply elem_of_items]. unfold build_warnings, guards_of. simpl.
    rewrite Hno. simpl. apply elem_of_app. right. by left.
  - done.
  - intros e n. rewrite Hb'. eapply NoDup_fmap_fst.
    + intros k v v' [_ H1]%list_elem_of_filter [_ H2]%list_elem_of_filter.
      by eapply items_unique.
    + apply NoDup_filter, NoDup_map_to_list.
  - intros Hlack kind count Hin%Hkey. unfold guards_of in Hin.
    destruct Hlack as [Hno%Helem|Hno%Hcount]; rewrite <-Hin in Hno; done.
Qed.

Lemma unguarded_catalogue_decorated rule_number rule :
  rule_number_to_rule unguarded_catalogue !! rule_number = Some rule → decorated rule.
Proof.
  simpl. intros [[_ <-]|[_ [_ <-]%lookup_singleton_Some]]%lookup_insert_Some;
    by eexists _, _.
Qed.

Lemma build_rule_map_files_every_rule_witness :
  ∃ g' log,
    build_rule_map unguarded_catalogue = Returned (g', log) ∧
    rule_number_to_rule g' = rule_number_to_rule unguarded_catalogue ∧
    ∀ rule_number rule,
      rule_number_to_rule unguarded_catalogue !! rule_number = Some rule →
      ((∀ t, Element t ∉ closure_decorators rule) → NoElementType rule_number ∈ log) ∧
      ((∀ c, NeighborCount c ∉ closure_decorators rule) → NoNeighborCount rule_number ∈ log) ∧
      (∀ e n, rule_number ∈ bucket (rule_map g') e n ↔ (e, n) = guards_of rule) ∧
      (∀ e n, NoDup (bucket (rule_map g') e n)) ∧
      ((∀ t, Element t ∉ closure_decorators rule) ∨
       (∀ c, NeighborCount c ∉ closure_decorators rule) →
       ∀ kind count, rule_number ∉ bucket (rule_map g') (Some kind) (Some count)).
Proof.
  apply (build_rule_map_files_every_rule unguarded_catalogue).
  - reflexivity.
  - apply unguarded_catalogue_decorated.
Defined.

(** The claim that a rule without guards is left out of the index fails: it
    is warned about and then filed, under the key (None, None). *)
Lemma unguarded_rule_is_indexed :
  ∃ g' log,
    build_rule_map unguarded_catalogue = Returned (g', log) ∧
    (∀ t, Element t ∉ closure_decorators unguarded_rule) ∧
    (∀ c, NeighborCount c ∉ closure_decorators unguarded_rule) ∧
    NoElementType "7" ∈ log ∧ NoNeighborCount "7" ∈ log ∧
    rule_map g' !! None ≫= (.!! None) = Some ["7"].
Proof.
  eexists _, _. split; [vm_compute; reflexivity|]. split_and!.
  - intros t [[=]|?%elem_of_nil]%elem_of_cons. done.
  - intros c [[=]|?%elem_of_nil]%elem_of_cons. done.
  - vm_compute. repeat constructor.
  - vm_compute. repeat constructor.
  - vm_compute. reflexivity.
Qed.

(** Two corners of the build.  The warnings test the Python truth of the
    guard values, so a rule for an atom without neighbours is warned about
    although it has its neighbour-count guard, and is filed as usual.  A bare
    function has no closure to inspect, and the build raises. *)
Example neighbor_count_zero_is_warned_about :
  ∃ g' log,
    build_rule_map (mkGlobals {["97" := lone_atom_rule]} ∅ ∅) = Returned (g', log) ∧
    log = [NoNeighborCount "97"] ∧
    rule_map g' !! Some "Ar" ≫= (.!! Some 0) = Some ["97"].
Proof. eexists _, _. split_and!; vm_compute; reflexivity. Qed.

Example bare_function_raises :
  build_rule_map (mkGlobals {["5" := Body (λ _ _, true)]} ∅ ∅) = Raised TypeError.
Proof. vm_compute. reflexivity. Qed.

(** ** The force-field argument *)

Lemma round_step_no_rules (g : Globals) (st st' : RoundState) (i : nat) :
  rule_map g = ∅ → round_step g st i = Returned st' → heap st' = heap st.
Proof.
  intros Hempty Hrun. unfold round_step in Hrun. rewrite Hempty in Hrun.
  inv_bind Hrun as a Ha. inv_bind Hrun as w Hw. inv_bind Hrun as b Hb.
  case_decide; [by injection Hrun as <-|]. rewrite lookup_empty in Hrun. simpl in Hrun.
  inv_bind Hrun as a' Ha'. inv_bind Hrun as w' Hw'. inv_bind Hrun as b' Hb'.
  by injection Hrun as <-.
Qed.

Lemma typing_round_no_rules (g : Globals) (h : Heap) (st : RoundState) :
  rule_map g = ∅ → typing_round g h = Returned st → heap st = h.
Proof.
  intros Hempty. unfold typing_round.
  apply (for_each_invariant (λ st, heap st = h)); [done|].
  intros s k s' _ <- Hstep. by eapply round_step_no_rules.
Qed.

Lemma registry_closed_empty (g : Globals) : rule_map g = ∅ → registry_closed g.
Proof. intros Hempty e by_count n rules r He. by rewrite Hempty, lookup_empty in He. Qed.

Lemma typing_loop_no_rules (cap : nat) (g : Globals) (h : Heap) :
  rule_map g = ∅ → prepared (store h) → ports_blank (store h) →
  ∃ log, typing_loop (S cap) g h = Returned (h, log).
Proof.
  intros Hempty Hprep Hblank. simpl.
  destruct (typing_round_returns g h (registry_closed_empty g Hempty) Hprep) as [st Hst].
  rewrite Hst. simpl.
  destruct (typing_round_counts g h st Hblank Hst) as (Hold & Hnew & _).
  pose proof (typing_round_no_rules g h st Hempty Hst) as Hheap.
  rewrite decide_True by (rewrite Hold, Hnew, Hheap; done).
  rewrite Hheap. by eexists.
Qed.

Lemma build_rule_map_empty (g : Globals) :
  rule_number_to_rule g = ∅ → build_rule_map g = Returned (g, []).
Proof.
  intros Hempty. unfold build_rule_map, items. rewrite Hempty, map_to_list_empty.
  simpl. destruct g. simpl in *. by subst.
Qed.

Lemma sanitize_empty (g : Globals) :
  rule_number_to_rule g = ∅ → sanitize g = Returned [].
Proof.
  intros Hempty. unfold sanitize, items. rewrite Hempty, map_to_list_empty. simpl.
  by rewrite map_to_list_empty.
Qed.

(** C6, as the code has it: the force field is only compared with
    'OPLS-AA'.  Any other identifier raises nothing of its own; the run is the
    one an empty rule module would give, on the catalogue the module-level
    dictionary already holds.  With that dictionary and the registry still
    empty the run returns, and every atom the compound lists is left with no
    type: an empty remainder and the warning for it. *)
Theorem other_forcefield_loads_nothing (oplsaa : list (string * RuleFn)) (g : Globals)
    (c : Compound) (forcefield : string) (debug : bool) :
  forcefield ≠ "OPLS-AA" →
  find_atomtypes oplsaa g c forcefield debug = find_atomtypes [] g c "OPLS-AA" debug ∧
  (rule_number_to_rule g = ∅ → rule_map g = ∅ →
   (∀ ref, ref ∈ atoms c → ref < length (yield_atoms c)) →
   ∃ s log,
     find_atomtypes oplsaa g c forcefield debug = Returned (g, s, log) ∧
     ∀ i ref a, atoms c !! i = Some ref → yield_atoms c !! ref = Some a →
       s !! ref = Some (set_atomtype (Some (AtomtypeJoined "")) (prepare a)) ∧
       CheckTopology i (kind a) [] ∈ log).
Proof.
  intros Hff. split.
  { unfold find_atomtypes. by rewrite decide_False, decide_True by done. }
  intros Hrules Hmap Hrefs. unfold find_atomtypes. rewrite decide_False by done.
  destruct g as [rules rmap ntm].
  cbn [rule_number_to_rule rule_map neighbor_types_map] in *. subst rules rmap.
  cbn [mbind result_bind mret result_ret].
  rewrite build_rule_map_empty by done.
  cbn [mbind result_bind mret result_ret].
  assert ((if debug then sanitize (mkGlobals ∅ ∅ ntm) else mret []) = Returned []) as ->
    by (destruct debug; [by apply sanitize_empty|done]).
  destruct (prepare_prepared (yield_atoms c)) as [Hprep Hblank].
  assert (∃ log3, typing_loop max_iter (mkGlobals ∅ ∅ ntm)
                    (mkHeap ntm (prepare <$> yield_atoms c)) =
                  Returned (mkHeap ntm (prepare <$> yield_atoms c), log3)) as [log3 Hloop]
    by by apply (typing_loop_no_rules 9).
  cbn [mbind result_bind neighbor_types_map rule_number_to_rule rule_map].
  rewrite Hloop. cbn [mbind result_bind store cache].
  destruct (resolve_loop_spec (enumerate (atoms c)) (prepare <$> yield_atoms c) [])
    as (s' & log4 & Hres & _ & Hst & Hlog).
  { rewrite enumerate_snd. intros ref Hin%Hrefs.
    destruct (lookup_lt_is_Some_2 (yield_atoms c) ref Hin) as [a Ha].
    exists (prepare a), [], []. by rewrite list_lookup_fmap, Ha. }
  unfold resolve_all. rewrite Hres. cbn [mbind result_bind]. eexists _, _. split; [done|].
  intros i ref a Hi Ha.
  assert ((prepare <$> yield_atoms c) !! ref = Some (prepare a)) as Hpa
    by by rewrite list_lookup_fmap, Ha.
  destruct (Hst ref (prepare a) Hpa) as (a' & Ha' & (Hk & Hbo & Hw & Hb) & Htype & _).
  split.
  - rewrite Ha'. f_equal. destruct a' as [k' bo' w' b' t']. simpl in *.
    rewrite (Htype ltac:(rewrite enumerate_snd; by eapply list_elem_of_lookup_2) [] []) by done.
    unfold set_atomtype, prepare. simpl. by subst.
  - repeat (apply elem_of_app; right). apply Hlog. exists i, ref, (prepare a), [], [].
    split_and!; [by apply elem_of_enumerate|done..].
Qed.

Lemma other_forcefield_loads_nothing_witness :
  find_atomtypes [("opls_1", example_rule)] initial_globals example_compound "AMBER" true
    = find_atomtypes [] initial_globals example_compound "OPLS-AA" true ∧
  ∃ s log,
    find_atomtypes [("opls_1", example_rule)] initial_globals example_compound "AMBER" true
      = Returned (initial_globals, s, log) ∧
    ∀ i ref a, atoms example_compound !! i = Some ref →
      yield_atoms example_compound !! ref = Some a →
      s !! ref = Some (set_atomtype (Some (AtomtypeJoined "")) (prepare a)) ∧
      CheckTopology i (kind a) [] ∈ log.
Proof.
  destruct (other_forcefield_loads_nothing [("opls_1", example_rule)] initial_globals
              example_compound "AMBER" true) as [Hsame Hrun]; [done|].
  split; [exact Hsame|]. apply Hrun; [done..|].
  intros ref Hin. simpl in *.
  repeat (apply elem_of_cons in Hin as [->|Hin]); [lia..|by apply elem_of_nil in Hin].
Defined.

(** The claim that an unrecognised force field fails the run is false: the
    call returns, with warnings that no atom could be typed. *)
Lemma unknown_forcefield_returns :
  find_atomtypes [("opls_1", example_rule)] initial_globals example_compound "AMBER" true =
  Returned
    (initial_globals,
     [ mkAtom "C" [1] (Some []) (Some []) (Some (AtomtypeJoined ""));
       mkAtom "H" [0] (Some []) (Some []) (Some (AtomtypeJoined ""));
       mkAtom "G" [] (Some []) (Some []) None ],
     [ NoRuleForKind "C"; NoRuleForKind "H";
       CheckTopology 0 "C" []; CheckTopology 1 "H" [] ]) ∧
  ¬ raises (find_atomtypes [("opls_1", example_rule)] initial_globals example_compound
              "AMBER" true).
Proof.
  assert (find_atomtypes [("opls_1", example_rule)] initial_globals example_compound
            "AMBER" true =
          Returned
            (initial_globals,
             [ mkAtom "C" [1] (Some []) (Some []) (Some (AtomtypeJoined ""));
               mkAtom "H" [0] (Some []) (Some []) (Some (AtomtypeJoined ""));
               mkAtom "G" [] (Some []) (Some []) None ],
             [ NoRuleForKind "C"; NoRuleForKind "H";
               CheckTopology 0 "C" []; CheckTopology 1 "H" [] ])) as Hrun
    by (vm_compute; reflexivity).
  split; [exact Hrun|]. intros [e He]. rewrite Hrun in He. discriminate He.
Qed.

(** ** Duplicate guards in [sanitize] *)

(** A loop raises as soon as one of its steps does. *)
Lemma for_each_raises {A S} (Q : Exn → Prop) (P : A → Prop) (body : S → A → Result S)
    (l : list A) (st : S) :
  (∀ s x, x ∈ l → (∃ s', body s x = Returned s' ∧ ¬ P x) ∨
                  (∃ e, body s x = Raised e ∧ Q e)) →
  (∃ x, x ∈ l ∧ P x) →
  ∃ e, for_each body l st = Raised e ∧ Q e.
Proof.
  revert st. induction l as [|x l IH]; intros st Hstep (y & Hy & HP).
  - by apply elem_of_nil in Hy.
  - rewrite for_each_cons. destruct (Hstep st x) as [(s' & -> & HnP)|(e & -> & HQ)];
      [by left| |by exists e].
    simpl. apply IH; [by intros; apply Hstep; right|].
    apply elem_of_cons in Hy as [->|Hy]; [done|by exists y].
Qed.

Lemma element_scan (rule_number : string) (decorators : list RuleDecorator)
    (element_type : option string) (supported : gset string) :
  let body := λ '(element_type, supported) dec,
    match dec with
    | Element t =>
        _ ← check_duplicate_element element_type rule_number;
        mret (Some t, supported ∪ {[t]})
    | _ => mret (element_type, supported)
    end in
  if decide (length (filter is_Element decorators) + seen element_type ≤ 1)
  then ∃ st, for_each body decorators (element_type, supported) = Returned st
  else for_each body decorators (element_type, supported) =
       Raised (AssertionError ("Duplicate element type decorators on rule " +:+ rule_number)).
Proof.
  intros body. revert element_type supported.
  induction decorators as [|dec l IH]; intros et sup.
  - simpl. destruct et; simpl; by eexists.
  - rewrite for_each_cons, filter_cons. destruct dec as [t| | | | | |];
      simpl; try apply IH.
    destruct et as [t0|]; simpl.
    + rewrite decide_False by lia. done.
    + specialize (IH (Some t) (sup ∪ {[t]})). simpl in IH.
      destruct (decide (length (filter is_Element l) + 1 ≤ 1)).
      * rewrite decide_True by lia. done.
      * rewrite decide_False by lia. done.
Qed.

Lemma neighbor_count_scan (rule_number : string) (decorators : list RuleDecorator)
    (element_type : option string) (neighbor_count : option nat) :
  let body := λ '(element_type, neighbor_count) dec,
    match dec with
    | Element t => mret (Some t, neighbor_count)
    | NeighborCount c =>
        _ ← check_duplicate_neighbor_count neighbor_count rule_number;
        mret (element_type, Some c)
    | _ => mret (element_type, neighbor_count)
    end in
  if decide (length (filter is_NeighborCount decorators) + seen neighbor_count ≤ 1)
  then ∃ st, for_each body decorators (element_type, neighbor_count) = Returned st
  else for_each body decorators (element_type, neighbor_count) =
       Raised (AssertionError ("Duplicate neighbor count decorators on rule " +:+ rule_number)).
Proof.
  intros body. revert element_type neighbor_count.
  induction decorators as [|dec l IH]; intros et nc.
  - simpl. destruct nc; simpl; by eexists.
  - rewrite for_each_cons, filter_cons. destruct dec as [t|c| | | | |];
      simpl; try apply IH.
    destruct nc as [c0|]; simpl.
    + rewrite decide_False by lia. done.
    + specialize (IH et (Some c)). simpl in IH.
      destruct (decide (length (filter is_NeighborCount l) + 1 ≤ 1)).
      * rewrite decide_True by lia. done.
      * rewrite decide_False by lia. done.
Qed.

Lemma supported_step_spec (supported : gset string) (rule_number : string) (rule : RuleFn) :
  decorated rule →
  (∃ supported', supported_step supported (rule_number, rule) = Returned supported' ∧
                 ¬ duplicate_element rule) ∨
  (supported_step supported (rule_number, rule) =
     Raised (AssertionError ("Duplicate element type decorators on rule " +:+ rule_number)) ∧
   duplicate_element rule).
Proof.
  intros (dec & f & ->). unfold supported_step, duplicate_element.
  cbn [get_decorator_objects_by_type mbind result_bind].
  pose proof (element_scan rule_number (closure_decorators (Wrapped dec f)) None supported)
    as Hscan. cbn zeta in Hscan. unfold seen in Hscan. rewrite Nat.add_0_r in Hscan.
  case_decide as Hcount.
  - left. destruct Hscan as [[et sup'] ->]. cbn [mbind result_bind mret result_ret].
    exists sup'. split; [done|lia].
  - right. rewrite Hscan. split; [done|lia].
Qed.

Lemma matches_step_dup (supported_elements : list string) rule_matches
    (rule_number : string) (rule : RuleFn) :
  decorated rule → duplicate_neighbor_count rule →
  matches_step supported_elements rule_matches (rule_number, rule) =
  Raised (AssertionError ("Duplicate neighbor count decorators on rule " +:+ rule_number)).
Proof.
  intros (dec & f & ->) Hdup. unfold matches_step, duplicate_neighbor_count in *.
  cbn [get_decorator_objects_by_type mbind result_bind].
  pose proof (neighbor_count_scan rule_number (closure_decorators (Wrapped dec f)) None None)
    as Hscan. cbn zeta in Hscan. unfold seen in Hscan. rewrite Nat.add_0_r in Hscan.
  rewrite decide_False in Hscan by lia. by rewrite Hscan.
Qed.

Lemma matches_step_raises (supported_elements : list string) rule_matches
    (rule_number : string) (rule : RuleFn) (e : Exn) :
  decorated rule →
  matches_step supported_elements rule_matches (rule_number, rule) = Raised e →
  e = TypeError ∨
  e = AssertionError ("Duplicate neighbor count decorators on rule " +:+ rule_number).
Proof.
  intros (dec & f & ->). unfold matches_step.
  cbn [get_decorator_objects_by_type mbind result_bind].
  pose proof (neighbor_count_scan rule_number (closure_decorators (Wrapped dec f)) None None)
    as Hscan. cbn zeta in Hscan. case_decide.
  - destruct Hscan as [[et nc] ->]. cbn [mbind result_bind].
    destruct nc; cbn [mbind result_bind mret result_ret]; [done|]. intros [= <-]. by left.
  - rewrite Hscan. intros [= <-]. by right.
Qed.

Lemma sanitize_first_loop_returns (g : Globals) :
  (∀ rule_number rule, rule_number_to_rule g !! rule_number = Some rule →
     decorated rule ∧ ¬ duplicate_element rule) →
  ∃ supported, for_each supported_step (items (rule_number_to_rule g)) ∅ = Returned supported.
Proof.
  intros Hok.
  destruct (for_each_returns (λ _, True) supported_step (items (rule_number_to_rule g)) ∅ I)
    as (supported & Hrun & _); [|by exists supported].
  intros s [rule_number rule] Hin%elem_of_items _. destruct (Hok _ _ Hin) as [Hdec Hnd].
  destruct (supported_step_spec s rule_number rule Hdec) as [(s' & Hs' & _)|[_ Hdup]];
    [by exists s'|done].
Qed.

(** The scan of the second loop ends without a neighbour count exactly
    when no decorator is a [NeighborCount]. *)
Lemma neighbor_count_scan_result (rule_number : string) (decorators : list RuleDecorator)
    (element_type : option string) (neighbor_count : option nat)
    (st : option string * option nat) :
  for_each (λ '(element_type, neighbor_count) dec,
              match dec with
              | Element t => mret (Some t, neighbor_count)
              | NeighborCount c =>
                  _ ← check_duplicate_neighbor_count neighbor_count rule_number;
                  mret (element_type, Some c)
              | _ => mret (element_type, neighbor_count)
              end) decorators (element_type, neighbor_count) = Returned st →
  st.2 = None ↔ neighbor_count = None ∧ ∀ c, NeighborCount c ∉ decorators.
Proof.
  revert element_type neighbor_count.
  induction decorators as [|dec l IH]; intros et nc Hrun.
  - simpl in Hrun. injection Hrun as <-. simpl. split; [|by intros [? _]].
    intros ->. split; [done|]. by intros c ?%elem_of_nil.
  - rewrite for_each_cons in Hrun.
    assert (∀ d, (∀ c, d ≠ NeighborCount c) →
              ((nc = None ∧ ∀ c, NeighborCount c ∉ l) ↔
               (nc = None ∧ ∀ c, NeighborCount c ∉ d :: l))) as Hskip.
    { intros d Hd. split; intros [Hn Hl]; (split; [done|]); intros c.
      - intros [Heq|Hin]%elem_of_cons; [by eapply Hd|by eapply Hl].
      - intros Hin. eapply Hl. by right. }
    destruct dec as [t|c0| | | | |]; cbn [mbind result_bind mret result_ret] in Hrun;
      try (rewrite (IH _ _ Hrun); by apply Hskip).
    destruct nc as [c1|]; [done|]. cbn [check_duplicate_neighbor_count mbind result_bind
                                         mret result_ret] in Hrun.
    rewrite (IH _ _ Hrun). split; [by intros [? _]|].
    intros [_ Hno]. exfalso. eapply Hno. by left.
Qed.

(** What the second loop does with a rule that has no duplicate neighbour
    count: TypeError without any neighbour count, a result otherwise. *)
Lemma matches_step_cases (supported_elements : list string) rule_matches
    (rule_number : string) (rule : RuleFn) :
  decorated rule → ¬ duplicate_neighbor_count rule →
  ((∀ c, NeighborCount c ∉ closure_decorators rule) ∧
   matches_step supported_elements rule_matches (rule_number, rule) = Raised TypeError) ∨
  (¬ (∀ c, NeighborCount c ∉ closure_decorators rule) ∧
   ∃ rule_matches',
     matches_step supported_elements rule_matches (rule_number, rule) = Returned rule_matches').
Proof.
  intros (dec & f & ->) Hnd. unfold matches_step, duplicate_neighbor_count in *.
  cbn [get_decorator_objects_by_type mbind result_bind].
  pose proof (neighbor_count_scan rule_number (closure_decorators (Wrapped dec f)) None None)
    as Hscan. cbn zeta in Hscan. unfold seen in Hscan. rewrite Nat.add_0_r in Hscan.
  rewrite decide_True in Hscan by lia. destruct Hscan as [[et nc] Hrun].
  pose proof (neighbor_count_scan_result _ _ _ _ _ Hrun) as Hres. rewrite Hrun.
  cbn [mbind result_bind]. simpl in Hres. destruct nc as [c|].
  - right. split; [|by eexists]. intros Hno. discriminate (proj2 Hres (conj eq_refl Hno)).
  - left. split; [|done]. by apply Hres.
Qed.

(** C7, as the code has it: the duplicate checks of [sanitize] are
    assertions.  Over a catalogue of decorated rules, a rule with two [Element]
    decorators makes [sanitize] raise the AssertionError naming a rule with
    two [Element] decorators.  With no such rule, a rule with two
    [NeighborCount] decorators makes it raise as well: the AssertionError
    naming a rule with two [NeighborCount] decorators or, when a rule without
    any [NeighborCount] decorator is met first, the TypeError of that rule.
    Nothing is excluded and nothing continues: [find_atomtypes] with [debug]
    on raises the same exception. *)
Theorem duplicate_guard_aborts_sanitize (g : Globals) :
  (∀ rule_number rule, rule_number_to_rule g !! rule_number = Some rule → decorated rule) →
  ((∃ rule_number rule,
      rule_number_to_rule g !! rule_number = Some rule ∧ duplicate_element rule) →
   ∃ rule_number rule,
     rule_number_to_rule g !! rule_number = Some rule ∧ duplicate_element rule ∧
     sanitize g =
       Raised (AssertionError ("Duplicate element type decorators on rule " +:+ rule_number))) ∧
  ((∀ rule_number rule,
      rule_number_to_rule g !! rule_number = Some rule → ¬ duplicate_element rule) →
   (∃ rule_number rule,
      rule_number_to_rule g !! rule_number = Some rule ∧ duplicate_neighbor_count rule) →
   ∃ e, sanitize g = Raised e ∧
        ((e = TypeError ∧
          ∃ rule_number rule,
            rule_number_to_rule g !! rule_number = Some rule ∧
            ∀ c, NeighborCount c ∉ closure_decorators rule) ∨
         ∃ rule_number rule,
           rule_number_to_rule g !! rule_number = Some rule ∧
           duplicate_neighbor_count rule ∧
           e = AssertionError ("Duplicate neighbor count decorators on rule " +:+ rule_number))) ∧
  (∀ oplsaa g0 c forcefield rules log1 e,
     (if decide (forcefield = "OPLS-AA")
      then load_rules oplsaa (rule_number_to_rule g0)
      else mret (rule_number_to_rule g0)) = Returned rules →
     build_rule_map (mkGlobals rules (rule_map g0) (neighbor_types_map g0)) = Returned (g, log1) →
     sanitize g = Raised e →
     find_atomtypes oplsaa g0 c forcefield true = Raised e).
Proof.
  intros Hdec. split_and!.
  - intros (rn & rule & Hrule & Hdup).
    destruct (for_each_raises
                (λ e, ∃ rule_number rule,
                   rule_number_to_rule g !! rule_number = Some rule ∧ duplicate_element rule ∧
                   e = AssertionError ("Duplicate element type decorators on rule " +:+ rule_number))
                (λ entry, duplicate_element entry.2)
                supported_step (items (rule_number_to_rule g)) ∅)
      as (e & Hrun & rn' & rule' & Hrule' & Hdup' & ->).
    + intros s [rule_number rule0] Hin%elem_of_items.
      destruct (supported_step_spec s rule_number rule0) as [(s' & Hs' & Hnd)|[Hraise Hd]];
        [by eapply Hdec|left; by exists s'|right].
      eexists. split; [done|]. by exists rule_number, rule0.
    + exists (rn, rule). split; [by apply elem_of_items|done].
    + exists rn', rule'. split_and!; [done..|]. unfold sanitize. by rewrite Hrun.
  - intros Hnodup (rn & rule & Hrule & Hdup).
    destruct (sanitize_first_loop_returns g) as [supported Hfirst].
    { intros rule_number rule0 H0. split; [by eapply Hdec|by eapply Hnodup]. }
    destruct (for_each_raises
                (λ e, (e = TypeError ∧
                       ∃ rule_number rule,
                         rule_number_to_rule g !! rule_number = Some rule ∧
                         ∀ c, NeighborCount c ∉ closure_decorators rule) ∨
                      ∃ rule_number rule,
                        rule_number_to_rule g !! rule_number = Some rule ∧
                        duplicate_neighbor_count rule ∧
                        e = AssertionError
                              ("Duplicate neighbor count decorators on rule " +:+ rule_number))
                (λ entry, duplicate_neighbor_count entry.2)
                (matches_step (merge_sort str_le (elements supported)))
                (items (rule_number_to_rule g)) ∅)
      as (e & Hrun & HQ).
    + intros s [rule_number rule0] Hin%elem_of_items. pose proof (Hdec _ _ Hin) as Hd.
      destruct (decide (2 ≤ length (filter is_NeighborCount (closure_decorators rule0))))
        as [Hdup0|Hnd0].
      * right. eexists. split; [by apply matches_step_dup|].
        right. by exists rule_number, rule0.
      * destruct (matches_step_cases (merge_sort str_le (elements supported)) s
                    rule_number rule0 Hd Hnd0) as [[Hno Hraise]|[_ [s' Hs']]].
        -- right. eexists. split; [done|]. left. split; [done|].
           by exists rule_number, rule0.
        -- left. by exists s'.
    + exists (rn, rule). split; [by apply elem_of_items|done].
    + exists e. split; [|done]. unfold sanitize. rewrite Hfirst.
      cbn [mbind result_bind]. by rewrite Hrun.
  - intros oplsaa g0 c forcefield rules log1 e Hload Hbuild Hsan.
    unfold find_atomtypes. rewrite Hload. cbn [mbind result_bind].
    rewrite Hbuild. cbn [mbind result_bind]. by rewrite Hsan.
Qed.

Lemma duplicate_catalogue_decorated rule_number rule :
  rule_number_to_rule duplicate_catalogue !! rule_number = Some rule → decorated rule.
Proof.
  simpl. intros [[_ <-]|[_ [_ <-]%lookup_singleton_Some]]%lookup_insert_Some;
    by eexists _, _.
Qed.

Lemma duplicate_count_catalogue_decorated rule_number rule :
  rule_number_to_rule duplicate_count_catalogue !! rule_number = Some rule →
  decorated rule ∧ ¬ duplicate_element rule ∧
  ¬ ∀ c, NeighborCount c ∉ closure_decorators rule.
Proof.
  simpl. intros [[_ <-]|[_ [_ <-]%lookup_singleton_Some]]%lookup_insert_Some;
    (split_and!; [by eexists _, _|unfold duplicate_element; simpl; lia|]);
    intros Hno; apply (Hno 1); simpl; set_solver.
Qed.

Lemma duplicate_guard_aborts_sanitize_witness :
  (∃ rule_number rule,
     rule_number_to_rule duplicate_catalogue !! rule_number = Some rule ∧
     duplicate_element rule ∧
     sanitize duplicate_catalogue =
       Raised (AssertionError ("Duplicate element type decorators on rule " +:+ rule_number))) ∧
  (∃ rule_number rule,
     rule_number_to_rule duplicate_count_catalogue !! rule_number = Some rule ∧
     duplicate_neighbor_count rule ∧
     sanitize duplicate_count_catalogue =
       Raised (AssertionError
                 ("Duplicate neighbor count decorators on rule " +:+ rule_number))) ∧
  find_atomtypes [("opls_8", twice_count_rule); ("opls_1", example_rule)]
                 initial_globals example_compound "OPLS-AA" true =
    Raised (AssertionError "Duplicate neighbor count decorators on rule 8").
Proof.
  destruct (duplicate_guard_aborts_sanitize duplicate_catalogue
              duplicate_catalogue_decorated) as (Helem & _ & _).
  destruct (duplicate_guard_aborts_sanitize duplicate_count_catalogue)
    as (_ & Hcount & _).
  { intros rule_number rule Hrule. by destruct (duplicate_count_catalogue_decorated _ _ Hrule). }
  destruct (duplicate_guard_aborts_sanitize
              (mkGlobals {["8" := twice_count_rule; "1" := example_rule]}
                 {[Some "C" := {[Some 1 := ["1"]; Some 2 := ["8"]]}]} ∅))
    as (_ & _ & Hfind).
  { intros rule_number rule Hrule.
    by destruct (duplicate_count_catalogue_decorated _ _ Hrule). }
  split_and!.
  - apply Helem. exists "9", twice_element_rule. split; [reflexivity|].
    unfold duplicate_element. simpl. lia.
  - destruct Hcount as (e & Hrun & [[_ (rn & rule & Hrule & Hno)]|(rn & rule & Hrule & Hdup & ->)]).
    + intros rule_number rule Hrule.
      by destruct (duplicate_count_catalogue_decorated _ _ Hrule) as (_ & ? & _).
    + exists "8", twice_count_rule. split; [reflexivity|].
      unfold duplicate_neighbor_count. simpl. lia.
    + by destruct (duplicate_count_catalogue_decorated _ _ Hrule) as (_ & _ & ?).
    + by exists rn, rule.
  - apply (Hfind [("opls_8", twice_count_rule); ("opls_1", example_rule)] initial_globals
             example_compound "OPLS-AA" {["8" := twice_count_rule; "1" := example_rule]} []);
      vm_compute; reflexivity.
Defined.

(** The claim that a duplicate guard is reported and the analysis goes on
    with the other rules is false: the assertion ends the analysis, and with it
    the typing run that asked for it. *)
Lemma duplicate_guard_is_fatal :
  sanitize duplicate_catalogue =
    Raised (AssertionError "Duplicate element type decorators on rule 9") ∧
  find_atomtypes [("opls_9", twice_element_rule); ("opls_1", example_rule)]
                 initial_globals example_compound "OPLS-AA" true =
    Raised (AssertionError "Duplicate element type decorators on rule 9").
Proof. split; vm_compute; reflexivity. Qed.

(** ** Sinks of the rule graph *)

Lemma elem_of_add_node (u x : string) (G : nx.DiGraph) :
  x ∈ nx.nodes (nx.add_node u G) ↔ x = u ∨ x ∈ nx.nodes G.
Proof.
  unfold nx.add_node. case_decide; simpl.
  - split; [by right|]. by intros [-> | ?].
  - rewrite elem_of_app, list_elem_of_singleton. tauto.
Qed.

Lemma elem_of_add_edge (u v x : string) (G : nx.DiGraph) :
  x ∈ nx.nodes (nx.add_edge u v G) ↔ x = u ∨ x = v ∨ x ∈ nx.nodes G.
Proof.
  unfold nx.add_edge. case_decide; simpl; rewrite !elem_of_add_node; tauto.
Qed.

(** Every node of a group's graph is an end point of a blacklist edge: the
    rule that blacklists, or the rule it names. *)
Lemma build_graph_nodes (rules_by_number : gmap string RuleFn) (rules : list string)
    (G : nx.DiGraph) :
  build_graph rules_by_number rules = Returned G →
  ∀ x, x ∈ nx.nodes G →
    ∃ rule_number rule blacklisted,
      rule_number ∈ rules ∧ rules_by_number !! rule_number = Some rule ∧
      blacklisted ∈ blacklisted_by (closure_decorators rule) ∧
      (x = rule_number ∨ x = blacklisted).
Proof.
  unfold build_graph.
  apply (for_each_invariant
           (λ G, ∀ x, x ∈ nx.nodes G →
              ∃ rule_number rule blacklisted,
                rule_number ∈ rules ∧ rules_by_number !! rule_number = Some rule ∧
                blacklisted ∈ blacklisted_by (closure_decorators rule) ∧
                (x = rule_number ∨ x = blacklisted))).
  - by intros x ?%elem_of_nil.
  - intros G1 rule_number G2 Hin IH Hstep.
    inv_bind Hstep as rule Hrule. inv_bind Hstep as decorators Hdecs.
    injection Hstep as <-.
    destruct (rules_by_number !! rule_number) as [rule0|] eqn:Hlook; [|done].
    injection Hrule as ->.
    assert (decorators = closure_decorators rule) as ->.
    { destruct rule; [done|]. by injection Hdecs as <-. }
    assert (∀ l G0,
              (∀ b, b ∈ l → b ∈ blacklisted_by (closure_decorators rule)) →
              (∀ x, x ∈ nx.nodes G0 →
                 ∃ rule_number rule blacklisted,
                   rule_number ∈ rules ∧ rules_by_number !! rule_number = Some rule ∧
                   blacklisted ∈ blacklisted_by (closure_decorators rule) ∧
                   (x = rule_number ∨ x = blacklisted)) →
              ∀ x, x ∈ nx.nodes (foldl (λ G b, nx.add_edge rule_number b G) G0 l) →
                 ∃ rule_number rule blacklisted,
                   rule_number ∈ rules ∧ rules_by_number !! rule_number = Some rule ∧
                   blacklisted ∈ blacklisted_by (closure_decorators rule) ∧
                   (x = rule_number ∨ x = blacklisted)) as Hfold.
    { induction l as [|b l IHl]; intros G0 Hl HG0; simpl; [done|].
      apply IHl; [by intros; apply Hl; right|].
      intros x [-> | [-> | Hx]]%elem_of_add_edge; [| |by apply HG0].
      - exists rule_number, rule, b. split_and!; [done..|by apply Hl; left|by left].
      - exists rule_number, rule, b. split_and!; [done..|by apply Hl; left|by right]. }
    apply Hfold; [|done]. intros b Hb. by apply elem_of_elements.
Qed.

Lemma find_sinks_nodes (G : nx.DiGraph) (x : string) :
  x ∈ find_sinks G → x ∈ nx.nodes G.
Proof. unfold find_sinks. by intros [_ ?]%list_elem_of_filter. Qed.

(** A rule of the group that blacklists nothing and that no rule of the
    group blacklists is not a node, so it is never counted as a sink. *)
Lemma isolated_rule_never_sink (rules_by_number : gmap string RuleFn)
    (rules : list string) (G : nx.DiGraph) (r : string) (rule : RuleFn) :
  build_graph rules_by_number rules = Returned G →
  rules_by_number !! r = Some rule →
  blacklisted_by (closure_decorators rule) = ∅ →
  (∀ r' rule', r' ∈ rules → rules_by_number !! r' = Some rule' →
     r ∉ blacklisted_by (closure_decorators rule')) →
  (r ∉ nx.nodes G) ∧ (r ∉ find_sinks G).
Proof.
  intros HG Hr Hnone Hnot.
  assert (r ∉ nx.nodes G) as Hnode.
  { intros (r' & rule' & b & Hin & Hr' & Hb & [-> | ->])%(build_graph_nodes _ _ _ HG).
    - assert (rule' = rule) as -> by congruence. rewrite Hnone in Hb.
      by apply elem_of_empty in Hb.
    - by eapply Hnot. }
  split; [done|]. by intros ?%find_sinks_nodes.
Qed.

(** C8: with "1" and "3" blacklisting "2", the group for a carbon with one
    carbon neighbour has the single sink "2" and [sanitize] raises no flag.
    With the further rule "4", which matches the same pattern and blacklists
    nothing, the group has four rules, but "4" never becomes a node of the
    graph (nodes enter only with edges): the sinks are still just "2" and
    [sanitize], whose second loop puts all four rules into the one group,
    still raises no multiple-sinks flag. *)
Theorem isolated_rule_is_no_sink :
  (build_graph three_rules (elements ({["1"; "2"; "3"]} : gset string))
     ≫= λ G, mret (find_sinks G)) = Returned ["2"] ∧
  sanitize (mkGlobals three_rules ∅ ∅) = Returned [] ∧
  (build_graph four_rules (elements ({["1"; "2"; "3"; "4"]} : gset string))
     ≫= λ G, mret (nx.nodes G, find_sinks G)) = Returned (["3"; "2"; "1"], ["2"]) ∧
  for_each (matches_step ["C"]) (items four_rules) ∅ =
    Returned {[ (Some "C", ["C"]) := ({["1"; "2"; "3"; "4"]} : gset string) ]} ∧
  sanitize (mkGlobals four_rules ∅ ∅) = Returned [].
Proof. split_and!; vm_compute; reflexivity. Qed.

(** ** The neighbour cache *)

Lemma build_rule_map_cache (g g' : Globals) (log : list Warning) :
  build_rule_map g = Returned (g', log) →
  neighbor_types_map g' = neighbor_types_map g ∧
  rule_number_to_rule g' = rule_number_to_rule g.
Proof.
  unfold build_rule_map. intros Hrun. inv_bind Hrun as [rmap log'] Hloop.
  by injection Hrun as <- <-.
Qed.

Lemma find_atomtypes_cache oplsaa (g g' : Globals) (c : Compound) (forcefield : string)
    (debug : bool) (s : Store) (log : list Warning) :
  find_atomtypes oplsaa g c forcefield debug = Returned (g', s, log) →
  neighbor_types_map g ⊆ neighbor_types_map g'.
Proof.
  unfold find_atomtypes. intros Hrun.
  inv_bind Hrun as rules Hrules. inv_bind Hrun as [g1 log1] Hbuild.
  inv_bind Hrun as log2 Hsan. inv_bind Hrun as [h log3] Hloop.
  inv_bind Hrun as [s' log4] Hres. injection Hrun as <- <- <-.
  apply build_rule_map_cache in Hbuild as [Hntm _]. simpl in Hntm.
  apply typing_loop_run in Hloop as [[_ _ Hcache _] _]. simpl in *. by rewrite <-Hntm.
Qed.

(** C9, as the code has it: for an atom that the module-level map does not
    hold, [neighbor_types] counts the neighbours from the atom's bonds and
    stores the tally; for an atom the map holds it returns the stored tally
    and never looks at the bonds; and nothing removes or replaces an entry: a
    run of rounds, and a whole call of [find_atomtypes], keep every entry they
    start with.  The map is not cleared between calls. *)
Theorem neighbor_tally_cached_for_good :
  (∀ ntm (s : Store) i a, ntm !! i = None →
     neighbor_types ntm s i a =
       (count_neighbors s (bonds a), <[i := count_neighbors s (bonds a)]> ntm)) ∧
  (∀ ntm (s : Store) i a tally, ntm !! i = Some tally →
     neighbor_types ntm s i a = (tally, ntm)) ∧
  (∀ cmp neighbor_type count h i a ok h',
     neighbor_guard cmp neighbor_type count h i a = (ok, h') →
     ∃ tally, cache h' !! i = Some tally ∧ cache h ⊆ cache h' ∧
              ok = match tally !! neighbor_type with
                   | Some n => cmp n count
                   | None => false
                   end) ∧
  (∀ cap g h h' log, typing_loop cap g h = Returned (h', log) → cache h ⊆ cache h') ∧
  (∀ oplsaa g c forcefield debug g' s log,
     find_atomtypes oplsaa g c forcefield debug = Returned (g', s, log) →
     neighbor_types_map g ⊆ neighbor_types_map g').
Proof.
  split_and!.
  - intros ntm s i a Hnone. unfold neighbor_types. by rewrite Hnone.
  - intros ntm s i a tally Hsome. unfold neighbor_types. by rewrite Hsome.
  - intros cmp t c h i a ok h' Hguard. unfold neighbor_guard, neighbor_types in Hguard.
    destruct (cache h !! i) as [tally|] eqn:Hc; injection Hguard as <- <-; simpl.
    + exists tally. by split_and!.
    + eexists. split_and!; [by apply lookup_insert_eq|by apply insert_subseteq|done].
  - intros cap g h h' log Hloop. by apply typing_loop_run in Hloop as [[_ _ ? _] _].
  - intros. by eapply find_atomtypes_cache.
Qed.

Lemma neighbor_tally_cached_for_good_witness :
  neighbor_types ∅ (yield_atoms bonded_to_hydrogen) 0 (mkAtom "C" [1] None None None) =
    ({["H" := 1]}, {[0 := {["H" := 1]}]}) ∧
  neighbor_types {[0 := {["H" := 1]}]} (yield_atoms bonded_to_oxygen) 0
                 (mkAtom "C" [2] None None None) =
    ({["H" := 1]}, {[0 := {["H" := 1]}]}).
Proof.
  destruct neighbor_tally_cached_for_good as (Hmiss & Hhit & _).
  split.
  - rewrite (Hmiss ∅ (yield_atoms bonded_to_hydrogen) 0 (mkAtom "C" [1] None None None))
      by reflexivity.
    vm_compute. reflexivity.
  - apply Hhit. reflexivity.
Defined.

(** The claim that a later run on the same atoms with other bonds never sees
    a stale tally is false.  After a first run on the carbon bonded to the
    hydrogen, the second run, on the carbon bonded to the oxygen, still finds
    the tally {H: 1} for the carbon, although its neighbours now count as
    {O: 1}, and types it with the rule for a carbon with one hydrogen
    neighbour; started with an empty map the second run leaves the carbon
    untyped. *)
Lemma stale_tally_is_used :
  find_atomtypes [("opls_1", example_rule)] initial_globals bonded_to_hydrogen
                 "OPLS-AA" true =
    Returned (after_first_run,
              [ mkAtom "C" [1] (Some ["1"]) (Some []) (Some (AtomtypeList ["1"]));
                mkAtom "H" [0] (Some []) (Some []) None;
                mkAtom "O" [] (Some []) (Some []) None ],
              [ NoRuleForKind "H"; NoRuleForKind "O";
                NoRuleForKind "H"; NoRuleForKind "O" ]) ∧
  find_atomtypes [("opls_1", example_rule)] after_first_run bonded_to_oxygen
                 "OPLS-AA" true =
    Returned (mkGlobals {["1" := example_rule]}
                        {[Some "C" := {[Some 1 := ["1"; "1"]]}]}
                        {[0 := {["H" := 1]}]},
              [ mkAtom "C" [2] (Some ["1"]) (Some []) (Some (AtomtypeList ["1"]));
                mkAtom "H" [] (Some []) (Some []) None;
                mkAtom "O" [0] (Some []) (Some []) None ],
              [ NoRuleForKind "H"; NoRuleForKind "O";
                NoRuleForKind "H"; NoRuleForKind "O" ]) ∧
  count_neighbors (yield_atoms bonded_to_oxygen) [2] = {["O" := 1]} ∧
  find_atomtypes [("opls_1", example_rule)]
                 (mkGlobals (rule_number_to_rule after_first_run)
                            (rule_map after_first_run) ∅)
                 bonded_to_oxygen "OPLS-AA" true =
    Returned (mkGlobals {["1" := example_rule]}
                        {[Some "C" := {[Some 1 := ["1"; "1"]]}]}
                        {[0 := {["O" := 1]}]},
              [ mkAtom "C" [2] (Some []) (Some []) (Some (AtomtypeJoined ""));
                mkAtom "H" [] (Some []) (Some []) None;
                mkAtom "O" [0] (Some []) (Some []) None ],
              [ NoRuleForKind "H"; NoRuleForKind "O"; CheckTopology 0 "C" [] ]).
Proof. split_and!; vm_compute; reflexivity. Qed.

(** ** The registry stays closed *)

(** The module-level dictionaries start empty and only [find_atomtypes]
    writes to them; what it writes keeps the registry closed, so the rounds
    never meet a rule number without a rule. *)
Lemma registry_closed_bucket (g : Globals) :
  registry_closed g ↔
  ∀ e n r, r ∈ bucket (rule_map g) e n → is_Some (rule_number_to_rule g !! r).
Proof.
  unfold registry_closed, bucket. split.
  - intros Hclosed e n r Hin. destruct (rule_map g !! e) as [by_count|] eqn:He; simpl in Hin;
      [|by apply elem_of_nil in Hin].
    destruct (by_count !! n) as [rules|] eqn:Hn; simpl in Hin; [|by apply elem_of_nil in Hin].
    by eapply Hclosed.
  - intros Hb e by_count n rules r He Hn Hin. apply (Hb e n). by rewrite He; simpl; rewrite Hn.
Qed.

Lemma load_rules_grows (module : list (string * RuleFn)) (rules rules' : gmap string RuleFn) :
  load_rules module rules = Returned rules' →
  ∀ r, is_Some (rules !! r) → is_Some (rules' !! r).
Proof.
  unfold load_rules.
  apply (for_each_invariant (λ rules', ∀ r, is_Some (rules !! r) → is_Some (rules' !! r)));
    [done|].
  intros m [fn fcn] m' _ IH Hstep r Hr. destruct (String.prefix "opls_" fn).
  - destruct (split_on underscore fn !! 1) as [k|]; [|done]. injection Hstep as <-.
    rewrite lookup_insert_is_Some. destruct (decide (k = r)); [by left|right; auto].
  - injection Hstep as <-. auto.
Qed.

Lemma build_rule_map_closed (g g' : Globals) (log : list Warning) :
  registry_closed g → build_rule_map g = Returned (g', log) → registry_closed g'.
Proof.
  intros Hclosed Hrun. unfold build_rule_map in Hrun.
  inv_bind Hrun as [rmap log'] Hloop. injection Hrun as <- <-.
  apply registry_closed_bucket. simpl. revert Hloop.
  apply (for_each_invariant
           (λ acc : gmap (option string) (gmap (option nat) (list string)) * list Warning,
              ∀ e n r, r ∈ bucket acc.1 e n → is_Some (rule_number_to_rule g !! r))).
  - by apply registry_closed_bucket.
  - intros [rmap1 log1] [rule_number rule] [rmap2 log2] Hin%elem_of_items IH Hstep.
    unfold build_rule_step in Hstep. inv_bind Hstep as decorators Hdecs.
    destruct (scan_guards decorators) as [e0 n0]. injection Hstep as <- _.
    intros e n r. simpl. rewrite bucket_append_rule. case_decide; [|by apply IH].
    intros [?| ->%list_elem_of_singleton]%elem_of_app; [by eapply IH|by eexists].
Qed.

Lemma initial_globals_closed : registry_closed initial_globals.
Proof. by apply registry_closed_empty. Qed.

Lemma find_atomtypes_closed oplsaa (g g' : Globals) (c : Compound) (forcefield : string)
    (debug : bool) (s : Store) (log : list Warning) :
  registry_closed g →
  find_atomtypes oplsaa g c forcefield debug = Returned (g', s, log) →
  registry_closed g'.
Proof.
  intros Hclosed. unfold find_atomtypes. intros Hrun.
  inv_bind Hrun as rules Hrules. inv_bind Hrun as [g1 log1] Hbuild.
  inv_bind Hrun as log2 Hsan. inv_bind Hrun as [h log3] Hloop.
  inv_bind Hrun as [s' log4] Hres. injection Hrun as <- <- <-.
  apply build_rule_map_closed in Hbuild; [done|].
  intros e by_count n rs r He Hn Hin. simpl in *.
  pose proof (Hclosed e by_count n rs r He Hn Hin) as Hr.
  case_decide; [by eapply load_rules_grows|]. by injection Hrules as <-.
Qed.

(** ** Ports, over a whole run *)

(** The warnings of the registry build are about rules. *)
Lemma build_rule_map_log (g g' : Globals) (log : list Warning) :
  build_rule_map g = Returned (g', log) →
  ∀ w, w ∈ log → ∃ rule_number, w = NoElementType rule_number ∨ w = NoNeighborCount rule_number.
Proof.
  unfold build_rule_map. intros Hrun. inv_bind Hrun as [rmap log'] Hloop.
  injection Hrun as _ <-. revert Hloop.
  apply (for_each_invariant
           (λ acc : gmap (option string) (gmap (option nat) (list string)) * list Warning,
              ∀ w, w ∈ acc.2 →
                ∃ rule_number, w = NoElementType rule_number ∨ w = NoNeighborCount rule_number)).
  - by intros w ?%elem_of_nil.
  - intros [rmap1 log1] [rule_number rule] [rmap2 log2] _ IH Hstep. simpl in *.
    inv_bind Hstep as decorators Hdecs.
    destruct (scan_guards decorators) as [element_type neighbor_count].
    injection Hstep as _ <-. intros w Hw.
    destruct (truthy_element element_type), (truthy_count neighbor_count);
      repeat (apply elem_of_app in Hw as [Hw|Hw%list_elem_of_singleton]);
      try (by apply IH); subst w; eauto.
Qed.

(** The warnings of [sanitize] are about the graph of a group of rules. *)
Lemma sanitize_log (g : Globals) (log : list Warning) :
  sanitize g = Returned log →
  ∀ w, w ∈ log → ∃ issue element pattern sinks, w = RuleGraph issue element pattern sinks.
Proof.
  unfold sanitize. intros Hrun. inv_bind Hrun as supported Hsup.
  inv_bind Hrun as rule_matches Hmatches. revert Hrun.
  apply (for_each_invariant
           (λ log : list Warning,
              ∀ w, w ∈ log →
                ∃ issue element pattern sinks, w = RuleGraph issue element pattern sinks)).
  - by intros w ?%elem_of_nil.
  - intros log1 [[element_type pattern] rules] log2 _ IH Hstep. unfold graph_step in Hstep.
    case_decide; [by injection Hstep as <-|].
    inv_bind Hstep as G HG. inv_bind Hstep as connected Hconn. injection Hstep as <-.
    intros w Hw.
    destruct connected, (nx.is_directed_acyclic_graph G),
      (decide (1 < length (find_sinks G)));
      repeat (apply elem_of_app in Hw as [Hw|Hw%list_elem_of_singleton]);
      try (by apply IH); subst w; eauto.
Qed.

(** C4, as the code has it: [prepare] gives every atom that [yield_atoms]
    yields, ports included, an empty whitelist and an empty blacklist.  Apart
    from that a port is left out: the rounds leave it exactly as it is,
    compute no neighbour tally for it and emit no missing-rule warning of kind
    'G'; and over a whole run of [find_atomtypes] on a compound whose [atoms]
    are its real atoms, a port ends as [prepare] left it, with empty sets and
    no atomtype, the cache has no new entry for it, and no warning of the run,
    of the rounds or of the resolution, is about an atom of kind 'G'. *)
Theorem ports_prepared_then_skipped :
  (∀ (s : Store) i a, s !! i = Some a →
     ∃ a', (prepare <$> s) !! i = Some a' ∧ kind a' = kind a ∧
           whitelist a' = Some [] ∧ blacklist a' = Some []) ∧
  (∀ cap g h h' log, typing_loop cap g h = Returned (h', log) →
     (∀ j a, store h !! j = Some a → kind a = "G" →
        store h' !! j = Some a ∧ cache h' !! j = cache h !! j) ∧
     (∀ w, w ∈ log → w ≠ NoRuleForKind "G" ∧ ∀ n, w ≠ NoRuleForNeighbors n "G")) ∧
  (∀ oplsaa g c forcefield debug g' s log,
     real_atoms c →
     find_atomtypes oplsaa g c forcefield debug = Returned (g', s, log) →
     (∀ j a, yield_atoms c !! j = Some a → kind a = "G" →
        s !! j = Some (prepare a) ∧
        neighbor_types_map g' !! j = neighbor_types_map g !! j) ∧
     (∀ w, w ∈ log → ¬ about_port w)).
Proof.
  split_and!.
  - apply prepare_lookup.
  - intros cap g h h' log Hloop. apply typing_loop_run in Hloop as [[_ _ _ Hports] Hlog].
    split; [done|]. intros w [->|(j & a & _ & HG & Hw)]%Hlog; [done|].
    split.
    + intros ->. destruct Hw as [[= Hk]|[n [=]]]. done.
    + intros n ->. destruct Hw as [[=]|[n' [= _ Hk]]]. done.
  - intros oplsaa g c forcefield debug g' s log Hreal Hrun. unfold find_atomtypes in Hrun.
    inv_bind Hrun as rules Hrules. inv_bind Hrun as [g1 log1] Hbuild.
    inv_bind Hrun as log2 Hsan. inv_bind Hrun as [h log3] Hloop.
    inv_bind Hrun as [s' log4] Hres. injection Hrun as <- <- <-.
    apply typing_loop_run in Hloop as [[Hgrows _ _ Hports] Hlog3]. simpl in *.
    assert (∀ ref a0, yield_atoms c !! ref = Some a0 →
              ∃ a, store h !! ref = Some a ∧ kind a = kind a0 ∧
                   is_Some (whitelist a) ∧ is_Some (blacklist a)) as Hat.
    { intros ref a0 Ha0.
      assert ((prepare <$> yield_atoms c) !! ref = Some (prepare a0)) as Hp
        by by rewrite list_lookup_fmap, Ha0.
      destruct (Forall2_lookup_l _ _ _ _ _ Hgrows Hp) as (a & Ha & Hk & _).
      exists a. split_and!; [done..| |].
      - pose proof (store_grows_prepared _ _ Hgrows (proj1 (prepare_prepared _))) as Hprep.
        unfold prepared in Hprep. rewrite Forall_lookup in Hprep.
        by destruct (Hprep ref a Ha).
      - pose proof (store_grows_prepared _ _ Hgrows (proj1 (prepare_prepared _))) as Hprep.
        unfold prepared in Hprep. rewrite Forall_lookup in Hprep.
        by destruct (Hprep ref a Ha). }
    destruct (resolve_loop_spec (enumerate (atoms c)) (store h) [])
      as (s'' & log' & Hrun' & _ & Hatoms & Hlog4).
    { rewrite enumerate_snd. intros ref (a0 & Ha0 & _)%Hreal.
      destruct (Hat ref a0 Ha0) as (a & Ha & _ & [w Hw] & [b Hb]). by exists a, w, b. }
    unfold resolve_all in Hres. rewrite Hrun' in Hres. injection Hres as <- <-.
    split.
    + intros j a Ha HG.
      assert ((prepare <$> yield_atoms c) !! j = Some (prepare a)) as Hp
        by by rewrite list_lookup_fmap, Ha.
      destruct (Hports j (prepare a) Hp HG) as [Hstore Hcache].
      apply build_rule_map_cache in Hbuild as [Hntm _]. simpl in Hntm.
      split; [|by rewrite Hcache, Hntm].
      destruct (Hatoms j (prepare a) Hstore) as (a' & Ha' & _ & _ & Hsame).
      rewrite Ha'. f_equal. apply Hsame. rewrite enumerate_snd.
      intros (a1 & Ha1 & Hk1)%Hreal. congruence.
    + intros w Hw Hport.
      apply elem_of_app in Hw as [Hw|Hw]; [|apply elem_of_app in Hw as [Hw|Hw]];
        [| |apply elem_of_app in Hw as [Hw|Hw]].
      * destruct (build_rule_map_log _ _ _ Hbuild w Hw) as [r [-> | ->]];
          by destruct Hport as [[?|[? ?]]|(? & ? & ?)].
      * destruct debug; [|injection Hsan as <-; by apply elem_of_nil in Hw].
        destruct (sanitize_log _ _ Hsan w Hw) as (? & ? & ? & ? & ->).
        by destruct Hport as [[?|[? ?]]|(? & ? & ?)].
      * destruct (Hlog3 w Hw) as [->|(j & a & Ha & HG & Hcov)].
        { by destruct Hport as [[?|[? ?]]|(? & ? & ?)]. }
        rewrite list_lookup_fmap in Ha.
        destruct (yield_atoms c !! j) as [a0|]; [|done]. injection Ha as <-.
        destruct Hport as [[->|[n ->]]|(i & ts & ->)];
          destruct Hcov as [[=]|[n' [=]]]; done.
      * apply Hlog4 in Hw as (i & ref & a & w0 & b0 & Hin & Ha & _ & _ & _ & ->).
        apply elem_of_enumerate in Hin. apply list_elem_of_lookup_2 in Hin.
        destruct (Hreal ref Hin) as (a0 & Ha0 & HG).
        destruct (Hat ref a0 Ha0) as (a1 & Ha1 & Hk & _).
        assert (a1 = a) as -> by congruence.
        destruct Hport as [[[=]|[n [=]]]|(i' & ts & [= _ Hkind _])]. congruence.
Qed.

Lemma ports_prepared_then_skipped_witness :
  (∃ a', (prepare <$> yield_atoms example_compound) !! 2 = Some a' ∧ kind a' = "G" ∧
         whitelist a' = Some [] ∧ blacklist a' = Some []) ∧
  (∃ h' log,
     typing_loop max_iter example_globals
       (mkHeap ∅ (prepare <$> yield_atoms example_compound)) = Returned (h', log) ∧
     store h' !! 2 = Some (mkAtom "G" [] (Some []) (Some []) None) ∧
     ∀ w, w ∈ log → w ≠ NoRuleForKind "G" ∧ ∀ n, w ≠ NoRuleForNeighbors n "G") ∧
  (∃ g' s log,
     find_atomtypes [("opls_1", example_rule)] initial_globals example_compound
       "OPLS-AA" true = Returned (g', s, log) ∧
     s !! 2 = Some (mkAtom "G" [] (Some []) (Some []) None) ∧
     neighbor_types_map g' !! 2 = None ∧
     CheckTopology 1 "H" [] ∈ log ∧
     Forall (λ w, ¬ about_port w) log).
Proof.
  destruct ports_prepared_then_skipped as (Hprep & Hloop & Hrun).
  split_and!.
  - apply (Hprep (yield_atoms example_compound) 2 (mkAtom "G" [] None None None)).
    reflexivity.
  - destruct (typing_loop max_iter example_globals
                (mkHeap ∅ (prepare <$> yield_atoms example_compound)))
      as [[h' log]|e] eqn:Hr; [|by vm_compute in Hr].
    exists h', log. split; [done|].
    destruct (Hloop _ _ _ _ _ Hr) as [Hports Hlog]. split; [|exact Hlog].
    by destruct (Hports 2 (mkAtom "G" [] (Some []) (Some []) None) eq_refl eq_refl).
  - destruct (find_atomtypes [("opls_1", example_rule)] initial_globals example_compound
                "OPLS-AA" true) as [[[g' s] log]|e] eqn:Hr; [|by vm_compute in Hr].
    exists g', s, log. split; [done|].
    assert (real_atoms example_compound) as Hreal.
    { intros ref Hin. simpl in Hin.
      repeat (apply elem_of_cons in Hin as [->|Hin]); [..|by apply elem_of_nil in Hin];
        by eexists. }
    destruct (Hrun _ _ _ _ _ _ _ _ Hreal Hr) as [Hports Hlog].
    destruct (Hports 2 (mkAtom "G" [] None None None) eq_refl eq_refl) as [Hs Hc].
    split_and!; [exact Hs|exact Hc| |by apply Forall_forall].
    vm_compute in Hr. injection Hr as _ _ <-. by repeat constructor.
Defined.

(** The claim that a port never gets whitelist/blacklist state fails: a
    compound of a single port, not even listed by [compound.atoms]. *)
Lemma port_gets_lists :
  ∃ g s log a,
    find_atomtypes [] initial_globals
      (mkCompound [mkAtom "G" [] None None None] []) "OPLS-AA" true
      = Returned (g, s, log) ∧
    s !! 0 = Some a ∧ kind a = "G" ∧
    whitelist a = Some [] ∧ blacklist a = Some [].
Proof. eexists _, _, _, _. split_and!; [vm_compute; reflexivity|reflexivity..]. Qed.

(** * Further properties of the module *)
(** ** The neighbour tally *)

Lemma count_neighbors_fold (s : Store) (bs : list nat) (m : gmap string nat) (k : string) :
  foldl (λ neighbors b,
           match s !! b with
           | Some other => <[kind other := S (default 0 (neighbors !! kind other))]> neighbors
           | None => neighbors
           end) m bs !! k =
  match m !! k, length (filter (λ x, x = k) (neighbor_kinds s bs)) with
  | Some c, n => Some (c + n)
  | None, 0 => None
  | None, S n => Some (S n)
  end.
Proof.
  revert m. induction bs as [|b bs IH]; intros m.
  - simpl. destruct (m !! k); [f_equal; lia|done].
  - simpl. unfold neighbor_kinds. simpl. fold (neighbor_kinds s bs).
    destruct (s !! b) as [other|] eqn:Hb; simpl; [|apply IH].
    rewrite IH, filter_cons. destruct (decide (kind other = k)) as [->|Hne].
    + rewrite lookup_insert_eq. simpl. destruct (m !! k); simpl; f_equal; lia.
    + rewrite lookup_insert_ne by done. done.
Qed.

(** X1: the tally that [neighbor_types] computes maps a kind to the number
    of bonds whose other atom has that kind, and has no entry for a kind
    with no such bond. *)
Theorem count_neighbors_counts (s : Store) (bs : list nat) (k : string) (n : nat) :
  count_neighbors s bs !! k = Some n ↔
  n = length (filter (λ x, x = k) (neighbor_kinds s bs)) ∧ 0 < n.
Proof.
  unfold count_neighbors. rewrite count_neighbors_fold, lookup_empty.
  destruct (length _) as [|m]; split; try done; try lia.
  - intros [= <-]. lia.
  - intros [-> _]. done.
Qed.

(** ** The contract of a decorated rule *)

Lemma neighbor_guard_spec cmp t c (h : Heap) (i : nat) (a : Atom) :
  neighbor_guard cmp t c h i a =
  (match tally_for h i a !! t with Some n => cmp n c | None => false end,
   mkHeap (<[i := tally_for h i a]> (cache h)) (store h)).
Proof.
  unfold neighbor_guard, tally_for, neighbor_types.
  destruct (cache h !! i) as [tally|] eqn:Hc; simpl; [|done].
  by rewrite insert_id.
Qed.

Lemma tally_for_cached (h : Heap) (i : nat) (a : Atom) :
  tally_for (mkHeap (<[i := tally_for h i a]> (cache h)) (store h)) i a = tally_for h i a.
Proof. unfold tally_for at 1, neighbor_types. simpl. by rewrite lookup_insert_eq. Qed.

Lemma guard_holds_cached (h : Heap) (i : nat) (a : Atom) (dec : RuleDecorator) :
  guard_holds (mkHeap (<[i := tally_for h i a]> (cache h)) (store h)) i a dec =
  guard_holds h i a dec.
Proof. destruct dec; simpl; by rewrite ?tally_for_cached. Qed.

Lemma forallb_pointwise {A} (f g : A → bool) (l : list A) :
  (∀ x, f x = g x) → forallb f l = forallb g l.
Proof. intros Hfg. induction l as [|x l IH]; simpl; [done|]. by rewrite Hfg, IH. Qed.

(** X2: the guards of a rule are combined with "and": whenever a call of the
    rule returns, what it returns is true exactly when every guard in the
    chain holds for the atom and the function under the decorators is true on
    the structure as it was before the call. *)
Theorem call_is_conjunction (fn : RuleFn) (h h' : Heap) (i : nat) (a : Atom) (r : bool) :
  store h !! i = Some a →
  call fn h i = Returned (r, h') →
  r = forallb (guard_holds h i a) (closure_decorators fn) && body_of fn (store h) i.
Proof.
  revert h h' r. induction fn as [f|dec fn IH]; intros h h' r Ha Hcall.
  - simpl in *. by injection Hcall as <- _.
  - cbn [call] in Hcall. rewrite (proj2 (get_Returned _ _ _) Ha) in Hcall.
    cbn [mbind result_bind closure_decorators forallb body_of] in *.
    assert (∀ cmp t c,
      (let '(ok, h1) := neighbor_guard cmp t c h i a in
       if ok then call fn h1 i else mret (false, h1)) = Returned (r, h') →
      r = match tally_for h i a !! t with Some n => cmp n c | None => false end &&
          forallb (guard_holds h i a) (closure_decorators fn) && body_of fn (store h) i)
      as Hguard.
    { intros cmp t c. rewrite neighbor_guard_spec.
      destruct (match tally_for h i a !! t with Some n => cmp n c | None => false end).
      - intros Hin. apply IH in Hin; [|done]. simpl in Hin.
        rewrite Hin. f_equal. apply forallb_pointwise. intros d. apply guard_holds_cached.
      - by intros [= <- _]. }
    destruct dec as [e|c|t c|t c|t c|ids|ids]; cbn [guard_holds].
    + case_decide.
      * rewrite bool_decide_eq_true_2 by done. by eapply IH.
      * rewrite bool_decide_eq_false_2 by done. by injection Hcall as <- _.
    + case_decide.
      * rewrite bool_decide_eq_true_2 by done. by eapply IH.
      * rewrite bool_decide_eq_false_2 by done. by injection Hcall as <- _.
    + by apply Hguard.
    + by apply (Hguard (λ n c, Nat.leb c n)).
    + by apply (Hguard (λ n c, Nat.leb n c)).
    + cbn [andb]. inv_bind Hcall as [r1 h1] Hin. apply IH in Hin; [|done]. rewrite <-Hin.
      destruct r1; [|by injection Hcall as <- _].
      inv_bind Hcall as a1 Ha1. inv_bind Hcall as a2 Ha2. by injection Hcall as <- _.
    + cbn [andb]. inv_bind Hcall as [r1 h1] Hin. apply IH in Hin; [|done]. rewrite <-Hin.
      destruct r1; [|by injection Hcall as <- _].
      inv_bind Hcall as a1 Ha1. inv_bind Hcall as a2 Ha2. by injection Hcall as <- _.
Qed.

(** X3: effects fire only when the whole chain succeeds: a call that returns
    false leaves every atom of the store as it was. *)
Theorem failed_call_changes_no_atom (fn : RuleFn) (h h' : Heap) (i : nat) :
  call fn h i = Returned (false, h') → store h' = store h.
Proof.
  revert h h'. induction fn as [f|dec fn IH]; intros h h' Hcall.
  - simpl in Hcall. by injection Hcall as _ <-.
  - cbn [call] in Hcall. inv_bind Hcall as a Ha.
    assert (∀ cmp t c,
      (let '(ok, h1) := neighbor_guard cmp t c h i a in
       if ok then call fn h1 i else mret (false, h1)) = Returned (false, h') →
      store h' = store h) as Hguard.
    { intros cmp t c. rewrite neighbor_guard_spec.
      destruct (match tally_for h i a !! t with Some n => cmp n c | None => false end).
      - intros Hin. by apply IH in Hin.
      - by intros [= <-]. }
    destruct dec as [e|c|t c|t c|t c|ids|ids]; try by eapply Hguard.
    + case_decide; [by apply IH|by injection Hcall as <-].
    + case_decide; [by apply IH|by injection Hcall as <-].
    + inv_bind Hcall as [r1 h1] Hin. destruct r1.
      * inv_bind Hcall as a1 Ha1. inv_bind Hcall as a2 Ha2. done.
      * injection Hcall as <-. by apply IH.
    + inv_bind Hcall as [r1 h1] Hin. destruct r1.
      * inv_bind Hcall as a1 Ha1. inv_bind Hcall as a2 Ha2. done.
      * injection Hcall as <-. by apply IH.
Qed.

Lemma whitelist_add_elem (rule_numbers : list string) (a a' : Atom) (x : string) :
  whitelist_add rule_numbers a = Returned a' → x ∈ rule_numbers →
  ∃ w, whitelist a' = Some w ∧ x ∈ w.
Proof.
  revert a. induction rule_numbers as [|rule l IH]; intros a Hadd Hin.
  - by apply elem_of_nil in Hin.
  - unfold whitelist_add in Hadd. rewrite for_each_cons in Hadd.
    inv_bind Hadd as a1 Ha1. inv_bind Ha1 as w Hw. injection Ha1 as <-.
    fold (whitelist_add l (set_whitelist (Some (OrderedSet.add rule w)) a)) in Hadd.
    apply elem_of_cons in Hin as [->|Hin]; [|by eapply IH].
    apply whitelist_add_spec in Hadd as ((_ & _ & _ & Hgrow & _) & _). simpl in Hgrow.
    destruct Hgrow as (w' & -> & Hpre). exists w'. split; [done|].
    eapply elem_of_prefix; [|done]. apply OrderedSet_elem_of_add. by left.
Qed.

Lemma blacklist_add_elem (rule_numbers : list string) (a a' : Atom) (x : string) :
  blacklist_add rule_numbers a = Returned a' → x ∈ rule_numbers →
  ∃ b, blacklist a' = Some b ∧ x ∈ b.
Proof.
  revert a. induction rule_numbers as [|rule l IH]; intros a Hadd Hin.
  - by apply elem_of_nil in Hin.
  - unfold blacklist_add in Hadd. rewrite for_each_cons in Hadd.
    inv_bind Hadd as a1 Ha1. inv_bind Ha1 as b Hb. injection Ha1 as <-.
    fold (blacklist_add l (set_blacklist (Some (OrderedSet.add rule b)) a)) in Hadd.
    apply elem_of_cons in Hin as [->|Hin]; [|by eapply IH].
    apply blacklist_add_spec in Hadd as ((_ & _ & _ & _ & Hgrow) & _). simpl in Hgrow.
    destruct Hgrow as (b' & -> & Hpre). exists b'. split; [done|].
    eapply elem_of_prefix; [|done]. apply OrderedSet_elem_of_add. by left.
Qed.

Lemma slot_grows_elem (o o' : option OrderedSet.t) (x : string) :
  slot_grows o o' → (∃ w, o = Some w ∧ x ∈ w) → ∃ w', o' = Some w' ∧ x ∈ w'.
Proof.
  intros Hg (w & -> & Hin). destruct Hg as (w' & -> & Hpre). exists w'.
  split; [done|by eapply elem_of_prefix].
Qed.

(** X4: when a call of a rule returns true, every identifier named by a
    [Whitelist] decorator of the rule is in the atom's whitelist and every
    identifier named by a [Blacklist] decorator is in its blacklist. *)
Theorem successful_call_applies_effects (fn : RuleFn) (h h' : Heap) (i : nat) :
  is_Some (store h !! i) →
  call fn h i = Returned (true, h') →
  ∃ a', store h' !! i = Some a' ∧
    (∀ ids x, Whitelist ids ∈ closure_decorators fn → x ∈ ids →
       ∃ w, whitelist a' = Some w ∧ x ∈ w) ∧
    (∀ ids x, Blacklist ids ∈ closure_decorators fn → x ∈ ids →
       ∃ b, blacklist a' = Some b ∧ x ∈ b).
Proof.
  revert h h'. induction fn as [f|dec fn IH]; intros h h' [a Ha] Hcall.
  - simpl in Hcall. injection Hcall as _ <-. exists a. split; [done|].
    split; intros ids x Hin; by apply elem_of_nil in Hin.
  - cbn [call] in Hcall. rewrite (proj2 (get_Returned _ _ _) Ha) in Hcall.
    cbn [mbind result_bind closure_decorators] in *.
    assert (∀ d h1, (∀ ids, d ≠ Whitelist ids) → (∀ ids, d ≠ Blacklist ids) →
              is_Some (store h1 !! i) → call fn h1 i = Returned (true, h') →
              ∃ a', store h' !! i = Some a' ∧
                (∀ ids x, Whitelist ids ∈ d :: closure_decorators fn → x ∈ ids →
                   ∃ w, whitelist a' = Some w ∧ x ∈ w) ∧
                (∀ ids x, Blacklist ids ∈ d :: closure_decorators fn → x ∈ ids →
                   ∃ b, blacklist a' = Some b ∧ x ∈ b)) as Hpass.
    { intros d h1 Hnw Hnb Hsome Hin. destruct (IH h1 h' Hsome Hin) as (a' & Ha' & Hw & Hb).
      exists a'. split; [done|].
      split; intros ids x [Heq|Hdec]%elem_of_cons Hx; try (by eauto).
      - by destruct (Hnw ids).
      - by destruct (Hnb ids). }
    assert (∀ cmp t c d, (∀ ids, d ≠ Whitelist ids) → (∀ ids, d ≠ Blacklist ids) →
      (let '(ok, h1) := neighbor_guard cmp t c h i a in
       if ok then call fn h1 i else mret (false, h1)) = Returned (true, h') →
      ∃ a', store h' !! i = Some a' ∧
        (∀ ids x, Whitelist ids ∈ d :: closure_decorators fn → x ∈ ids →
           ∃ w, whitelist a' = Some w ∧ x ∈ w) ∧
        (∀ ids x, Blacklist ids ∈ d :: closure_decorators fn → x ∈ ids →
           ∃ b, blacklist a' = Some b ∧ x ∈ b)) as Hguard.
    { intros cmp t c d Hnw Hnb. rewrite neighbor_guard_spec.
      destruct (match tally_for h i a !! t with Some n => cmp n c | None => false end);
        [|done].
      intros Hin. eapply Hpass; [done..| |exact Hin]. simpl. by eexists. }
    destruct dec as [e|c|t c|t c|t c|ids0|ids0]; try (by eapply Hguard).
    + case_decide; [|done]. by eapply Hpass; [..|eexists|].
    + case_decide; [|done]. by eapply Hpass; [..|eexists|].
    + inv_bind Hcall as [r1 h1] Hin. destruct r1; [|done].
      inv_bind Hcall as a1 Ha1. inv_bind Hcall as a2 Ha2. injection Hcall as <-.
      apply get_Returned in Ha1.
      destruct (IH h h1 (ex_intro _ a Ha) Hin) as (a1' & Ha1' & Hw & Hb).
      assert (a1' = a1) as -> by congruence.
      pose proof (whitelist_add_spec _ _ _ Ha2) as ((_ & _ & _ & Hgrow & _) & Hbl & _).
      exists a2. split; [simpl; apply list_lookup_insert_eq; by eapply lookup_lt_Some|].
      split; intros ids x [Heq|Hdec]%elem_of_cons Hx.
      * injection Heq as ->. by eapply whitelist_add_elem.
      * eapply slot_grows_elem; [done|]. by eapply Hw.
      * done.
      * rewrite Hbl. by eapply Hb.
    + inv_bind Hcall as [r1 h1] Hin. destruct r1; [|done].
      inv_bind Hcall as a1 Ha1. inv_bind Hcall as a2 Ha2. injection Hcall as <-.
      apply get_Returned in Ha1.
      destruct (IH h h1 (ex_intro _ a Ha) Hin) as (a1' & Ha1' & Hw & Hb).
      assert (a1' = a1) as -> by congruence.
      pose proof (blacklist_add_spec _ _ _ Ha2) as ((_ & _ & _ & _ & Hgrow) & Hwl & _).
      exists a2. split; [simpl; apply list_lookup_insert_eq; by eapply lookup_lt_Some|].
      split; intros ids x [Heq|Hdec]%elem_of_cons Hx.
      * done.
      * rewrite Hwl. by eapply Hw.
      * injection Heq as ->. by eapply blacklist_add_elem.
      * eapply slot_grows_elem; [done|]. by eapply Hb.
Qed.

(** X5: a call of a rule on one atom touches nothing else: every other atom
    and every other entry of the neighbour cache are as before, the store
    keeps its length, and of the atom itself only the two sets can differ. *)
Theorem call_touches_only_its_atom (fn : RuleFn) (h h' : Heap) (i : nat) (r : bool) :
  call fn h i = Returned (r, h') →
  (∀ j, j ≠ i → store h' !! j = store h !! j ∧ cache h' !! j = cache h !! j) ∧
  length (store h') = length (store h) ∧
  (∀ a, store h !! i = Some a →
     ∃ a', store h' !! i = Some a' ∧
           kind a' = kind a ∧ bonds a' = bonds a ∧ atomtype a' = atomtype a).
Proof.
  intros [Hg Hf _ _ Hcf]%call_step. split_and!.
  - intros j Hj. split; [by apply Hf|by apply Hcf].
  - by apply store_grows_length.
  - intros a Ha. destruct (Forall2_lookup_l _ _ _ _ _ Hg Ha) as (a' & Ha' & Hk & Hb & Ht & _).
    by exists a'.
Qed.

(** X6: a neighbour-composition guard needs at least one neighbour of its
    kind.  On an atom with no cached tally and no neighbour of kind [t], the
    guards [NeighborsExactly t c], [NeighborsAtLeast t c] and
    [NeighborsAtMost t c] all fail, whatever [c] is (also "exactly 0" and "at
    most c"), and the rule under them is not called; the fresh tally is
    cached. *)
Theorem neighbor_guard_needs_a_neighbor (dec : RuleDecorator) (t : string) (c : nat)
    (fn : RuleFn) (h : Heap) (i : nat) (a : Atom) :
  dec = NeighborsExactly t c ∨ dec = NeighborsAtLeast t c ∨ dec = NeighborsAtMost t c →
  store h !! i = Some a →
  cache h !! i = None →
  t ∉ neighbor_kinds (store h) (bonds a) →
  call (Wrapped dec fn) h i =
    Returned (false, mkHeap (<[i := count_neighbors (store h) (bonds a)]> (cache h)) (store h)).
Proof.
  intros Hdec Ha Hmiss Hnone. cbn [call]. rewrite (proj2 (get_Returned _ _ _) Ha).
  cbn [mbind result_bind].
  assert (tally_for h i a = count_neighbors (store h) (bonds a)) as Htally
    by by unfold tally_for, neighbor_types; rewrite Hmiss.
  assert (count_neighbors (store h) (bonds a) !! t = None) as Hnot.
  { unfold count_neighbors. rewrite count_neighbors_fold, lookup_empty.
    destruct (filter _ _) as [|x l] eqn:Hf; [done|].
    assert (x ∈ filter (λ x, x = t) (neighbor_kinds (store h) (bonds a))) as Hx
      by (rewrite Hf; by left).
    apply list_elem_of_filter in Hx as [-> Hx]. done. }
  destruct Hdec as [-> | [-> | ->]]; rewrite neighbor_guard_spec, Htally, Hnot; done.
Qed.

(** ** The registry across calls *)

(** X7: [build_rule_map] appends to the module-level registry and never
    resets it: after the build every bucket is the old bucket followed by
    the rules of the catalogue with that key, and a second build files all
    of them once more, with the same warnings. *)
Theorem build_rule_map_appends (g : Globals) :
  (∀ rule_number rule, rule_number_to_rule g !! rule_number = Some rule → decorated rule) →
  ∃ g1 g2 log,
    build_rule_map g = Returned (g1, log) ∧
    (∀ e n, bucket (rule_map g1) e n = bucket (rule_map g) e n ++ filed g e n) ∧
    build_rule_map g1 = Returned (g2, log) ∧
    (∀ e n, bucket (rule_map g2) e n = bucket (rule_map g) e n ++ filed g e n ++ filed g e n).
Proof.
  intros Hdec. destruct (build_rule_map_spec g Hdec) as (rmap1 & Hrun1 & Hb1).
  destruct (build_rule_map_spec
              (mkGlobals (rule_number_to_rule g) rmap1 (neighbor_types_map g)) Hdec)
    as (rmap2 & Hrun2 & Hb2).
  eexists _, _, _. split_and!; [exact Hrun1|exact Hb1|exact Hrun2|].
  intros e n. simpl in *. rewrite Hb2, Hb1. by rewrite <-(assoc_L (++)).
Qed.

(** ** Loading the rule module *)

Lemma prefix_String (c : Ascii.ascii) (p s : string) :
  String.prefix (String c p) s = true →
  ∃ s', s = String c s' ∧ String.prefix p s' = true.
Proof.
  destruct s as [|c' s]; cbn [String.prefix]; [done|].
  destruct (Ascii.ascii_dec c c') as [<-|]; [|done]. intros Hp. by exists s.
Qed.

Lemma prefix_opls (fn : string) :
  String.prefix "opls_" fn = true → ∃ rest, fn = "opls_" +:+ rest.
Proof.
  intros (s1 & -> & (s2 & -> & (s3 & -> & (s4 & -> & (s5 & -> & _)%prefix_String)
    %prefix_String)%prefix_String)%prefix_String)%prefix_String.
  by exists s5.
Qed.

Lemma split_on_cons (sep : Ascii.ascii) (s : string) :
  ∃ w ws, split_on sep s = w :: ws.
Proof.
  destruct s as [|c s]; simpl; [by eexists _, _|].
  destruct (Ascii.eqb c sep); [by eexists _, _|].
  destruct (split_on sep s); by eexists _, _.
Qed.

Lemma split_on_segment (k rest : string) :
  contains underscore k = false →
  split_on underscore k = [k] ∧
  split_on underscore (k +:+ String underscore rest) = k :: split_on underscore rest.
Proof.
  induction k as [|c k IH]; intros Hk.
  - split; [done|]. simpl. by rewrite ?Ascii.eqb_refl.
  - simpl in Hk. apply orb_false_iff in Hk as [Hc Hk]. destruct (IH Hk) as [IH1 IH2].
    split; simpl; rewrite Hc; [by rewrite IH1|by rewrite IH2].
Qed.

Lemma split_on_opls (rest : string) :
  split_on underscore ("opls_" +:+ rest) = "opls" :: split_on underscore rest.
Proof.
  change ("opls_" +:+ rest) with ("opls" +:+ String underscore rest).
  by apply split_on_segment.
Qed.

Lemma load_step_returns (rules : gmap string RuleFn) (fn : string) (fcn : RuleFn) :
  ∃ rules',
    (if String.prefix "opls_" fn then
       match split_on underscore fn !! 1 with
       | Some rule_number => mret (<[rule_number := fcn]> rules)
       | None => Raised IndexError
       end
     else mret rules) = Returned rules'.
Proof.
  destruct (String.prefix "opls_" fn) eqn:Hp; [|by eexists].
  apply prefix_opls in Hp as [rest ->]. rewrite split_on_opls.
  destruct (split_on_cons underscore rest) as (w & ws & ->). simpl. by eexists.
Qed.

Lemma load_rules_returns (module : list (string * RuleFn)) (rules : gmap string RuleFn) :
  ∃ rules', load_rules module rules = Returned rules'.
Proof.
  unfold load_rules.
  destruct (for_each_returns (λ _, True)
              (λ rules '(fn, fcn),
                 if String.prefix "opls_" fn then
                   match split_on underscore fn !! 1 with
                   | Some rule_number => mret (<[rule_number := fcn]> rules)
                   | None => Raised IndexError
                   end
                 else mret rules) module rules I) as (rules' & Hrun & _); [|by eexists].
  intros s [fn fcn] _ _. destruct (load_step_returns s fn fcn) as [s' Hs']. by exists s'.
Qed.

(** X8: loading the rule module never raises (a name that starts with
    'opls_' always has a second segment), keeps every rule already in the
    dictionary under its key, and changes an entry only to a function of
    the module whose name starts with 'opls_' and has that key as its
    second segment. *)
Theorem load_rules_only_adds_opls (module : list (string * RuleFn))
    (rules : gmap string RuleFn) :
  ∃ rules',
    load_rules module rules = Returned rules' ∧
    ∀ k, rules' !! k = rules !! k ∨
         ∃ fn fcn, (fn, fcn) ∈ module ∧ String.prefix "opls_" fn = true ∧
                   split_on underscore fn !! 1 = Some k ∧ rules' !! k = Some fcn.
Proof.
  destruct (load_rules_returns module rules) as [rules' Hrun]. exists rules'.
  split; [done|]. revert Hrun. unfold load_rules.
  apply (for_each_invariant
           (λ rules', ∀ k, rules' !! k = rules !! k ∨
              ∃ fn fcn, (fn, fcn) ∈ module ∧ String.prefix "opls_" fn = true ∧
                        split_on underscore fn !! 1 = Some k ∧ rules' !! k = Some fcn)).
  - intros k. by left.
  - intros m [fn fcn] m' Hin IH Hstep k.
    destruct (String.prefix "opls_" fn) eqn:Hp; [|injection Hstep as <-; apply IH].
    destruct (split_on underscore fn !! 1) as [rn|] eqn:Hrn; [|done].
    injection Hstep as <-. destruct (decide (rn = k)) as [->|Hne].
    + right. exists fn, fcn. by rewrite lookup_insert_eq.
    + rewrite lookup_insert_ne by done. apply IH.
Qed.

Lemma prefix_app (p s : string) : String.prefix p (p +:+ s) = true.
Proof.
  induction p as [|c p IH]; cbn [String.prefix String.app]; [by destruct s|].
  change (String c p +:+ s) with (String c (p +:+ s)). cbn [String.prefix].
  by destruct (Ascii.ascii_dec c c).
Qed.

Lemma load_rules_cons (fn : string) (fcn : RuleFn) (module : list (string * RuleFn))
    (rules : gmap string RuleFn) :
  load_rules ((fn, fcn) :: module) rules =
  (if String.prefix "opls_" fn then
     match split_on underscore fn !! 1 with
     | Some rule_number => mret (<[rule_number := fcn]> rules)
     | None => Raised IndexError
     end
   else mret rules) ≫= load_rules module.
Proof. reflexivity. Qed.

(** X9: the rule number of a function is the part of its name between
    'opls_' and the next underscore, so [opls_K] and [opls_K_suffix] have
    the same rule number and the one loaded later replaces the other. *)
Theorem variants_share_rule_number (k suffix : string) (f f' : RuleFn)
    (rules : gmap string RuleFn) :
  contains underscore k = false →
  load_rules [("opls_" +:+ k, f); ("opls_" +:+ k +:+ String underscore suffix, f')] rules =
    Returned (<[k := f']> (<[k := f]> rules)).
Proof.
  intros Hk. destruct (split_on_segment k suffix Hk) as [H1 H2].
  assert (split_on underscore ("opls_" +:+ k) !! 1 = Some k) as Hfirst
    by by rewrite split_on_opls, H1.
  assert (split_on underscore ("opls_" +:+ k +:+ String underscore suffix) !! 1 = Some k)
    as Hsecond.
  { change ("opls_" +:+ k +:+ String underscore suffix)
      with ("opls_" +:+ (k +:+ String underscore suffix)).
    by rewrite split_on_opls, H2. }
  rewrite !load_rules_cons.
  rewrite (prefix_app "opls_" k).
  rewrite Hfirst. cbn [mbind result_bind mret result_ret]. rewrite load_rules_cons.
  rewrite (prefix_app "opls_" (k +:+ String underscore suffix)).
  rewrite Hsecond. reflexivity.
Qed.

(** ** Where [find_atomtypes] can raise *)

(** X10: from a closed registry and a compound whose [atoms] are atoms of
    the structure, [find_atomtypes] raises only in its set-up: the exception
    is the one of [build_rule_map] or, with [debug] on, the one of
    [sanitize].  Loading the rules, the rounds (whose KeyError for a rule that
    is not implemented is out of reach) and the resolution never raise. *)
Theorem find_atomtypes_raises_only_in_setup (oplsaa : list (string * RuleFn)) (g : Globals)
    (c : Compound) (forcefield : string) (debug : bool) (e : Exn) :
  registry_closed g →
  (∀ ref, ref ∈ atoms c → ref < length (yield_atoms c)) →
  find_atomtypes oplsaa g c forcefield debug = Raised e →
  ∃ rules,
    (if decide (forcefield = "OPLS-AA")
     then load_rules oplsaa (rule_number_to_rule g)
     else mret (rule_number_to_rule g)) = Returned rules ∧
    (build_rule_map (mkGlobals rules (rule_map g) (neighbor_types_map g)) = Raised e ∨
     ∃ g1 log1,
       build_rule_map (mkGlobals rules (rule_map g) (neighbor_types_map g))
         = Returned (g1, log1) ∧
       debug = true ∧ sanitize g1 = Raised e).
Proof.
  intros Hclosed Hrefs Hraise.
  assert (∃ rules,
            (if decide (forcefield = "OPLS-AA")
             then load_rules oplsaa (rule_number_to_rule g)
             else mret (rule_number_to_rule g)) = Returned rules ∧
            ∀ r, is_Some (rule_number_to_rule g !! r) → is_Some (rules !! r))
    as (rules & Hload & Hgrows).
  { case_decide; [|by eexists].
    destruct (load_rules_returns oplsaa (rule_number_to_rule g)) as [rules Hrules].
    exists rules. split; [done|]. by eapply load_rules_grows. }
  exists rules. split; [done|]. unfold find_atomtypes in Hraise. rewrite Hload in Hraise.
  cbn [mbind result_bind] in Hraise.
  destruct (build_rule_map (mkGlobals rules (rule_map g) (neighbor_types_map g)))
    as [[g1 log1]|e1] eqn:Hbuild; [|left; by injection Hraise as <-].
  right. exists g1, log1. split; [done|]. cbn [mbind result_bind] in Hraise.
  assert (registry_closed g1) as Hclosed1.
  { eapply build_rule_map_closed; [|done].
    intros et by_count n rs r He Hn Hin. simpl in *. eapply Hgrows. by eapply Hclosed. }
  assert (∀ log2, ¬ ('(h, log3) ← typing_loop max_iter g1
                        (mkHeap (neighbor_types_map g1) (prepare <$> yield_atoms c));
                     '(s, log4) ← resolve_all (atoms c) (store h);
                     mret (mkGlobals (rule_number_to_rule g1) (rule_map g1) (cache h), s,
                           log1 ++ log2 ++ log3 ++ log4)) = Raised e) as Hrest.
  { intros log2 Hr. destruct (prepare_prepared (yield_atoms c)) as [Hprep _].
    destruct (typing_loop_returns max_iter g1
                (mkHeap (neighbor_types_map g1) (prepare <$> yield_atoms c)) Hclosed1 Hprep)
      as (h & log3 & Hloop).
    rewrite Hloop in Hr. cbn [mbind result_bind] in Hr.
    apply typing_loop_run in Hloop as [[Hg _ _ _] _].
    pose proof (store_grows_prepared _ _ Hg Hprep) as Hprep'.
    destruct (resolve_loop_spec (enumerate (atoms c)) (store h) []) as (s' & log4 & Hres & _).
    { rewrite enumerate_snd. intros ref Hin%Hrefs.
      assert (ref < length (store h)) as Hlt.
      { rewrite (store_grows_length _ _ Hg). simpl. by rewrite length_fmap. }
      destruct (lookup_lt_is_Some_2 _ _ Hlt) as [a Ha].
      unfold prepared in Hprep'. rewrite Forall_lookup in Hprep'.
      destruct (Hprep' ref a Ha) as [[w Hw] [b Hb]]. by exists a, w, b. }
    unfold resolve_all in Hr. rewrite Hres in Hr. done. }
  destruct debug.
  - destruct (sanitize g1) as [log2|e2] eqn:Hsan.
    + cbn [mbind result_bind] in Hraise. by apply Hrest in Hraise.
    + by injection Hraise as <-.
  - cbn [mbind result_bind mret result_ret] in Hraise. by apply Hrest in Hraise.
Qed.

(** ** A rule without a neighbour count in [sanitize] *)

(** X11: a rule without a [NeighborCount] decorator, which the registry
    build only warns about, stops the analysis: over a catalogue of decorated
    rules without duplicate guards, [sanitize] raises TypeError as soon as one
    rule has no neighbour count (the count is the length of the neighbour
    patterns to enumerate). *)
Theorem sanitize_needs_neighbor_counts (g : Globals) :
  (∀ rule_number rule, rule_number_to_rule g !! rule_number = Some rule →
     decorated rule ∧ ¬ duplicate_element rule ∧ ¬ duplicate_neighbor_count rule) →
  (∃ rule_number rule,
     rule_number_to_rule g !! rule_number = Some rule ∧
     ∀ c, NeighborCount c ∉ closure_decorators rule) →
  sanitize g = Raised TypeError.
Proof.
  intros Hok (rn & rule & Hrule & Hlacks).
  destruct (sanitize_first_loop_returns g) as [supported Hfirst].
  { intros rule_number rule0 H0. destruct (Hok _ _ H0) as (? & ? & _). done. }
  destruct (for_each_raises (λ e, e = TypeError)
              (λ entry, ∀ c, NeighborCount c ∉ closure_decorators entry.2)
              (matches_step (merge_sort str_le (elements supported)))
              (items (rule_number_to_rule g)) ∅) as (e & Hrun & ->).
  - intros s [rule_number rule0] Hin%elem_of_items. destruct (Hok _ _ Hin) as (Hd & _ & Hnd).
    destruct (matches_step_cases (merge_sort str_le (elements supported)) s rule_number rule0
                Hd Hnd) as [[_ Hraise]|[Hhas [s' Hs']]].
    + right. by exists TypeError.
    + left. by exists s'.
  - exists (rn, rule). split; [by apply elem_of_items|done].
  - unfold sanitize. rewrite Hfirst. cbn [mbind result_bind]. by rewrite Hrun.
Qed.

(** ** Atoms the registry does not cover *)

Lemma round_step_gap (g : Globals) (st st' : RoundState) (i : nat) (a : Atom) (w : Warning) :
  store (heap st) !! i = Some a → kind a ≠ "G" → coverage_gap g a = Some w →
  round_step g st i = Returned st' →
  heap st' = heap st ∧ log st' = log st ++ [w].
Proof.
  intros Ha HG Hgap Hrun. unfold round_step in Hrun.
  rewrite (proj2 (get_Returned _ _ _) Ha) in Hrun. cbn [mbind result_bind] in Hrun.
  inv_bind Hrun as wl Hwl. inv_bind Hrun as bl Hbl. rewrite decide_False in Hrun by done.
  inv_bind Hrun as [h1 log1] Hrules. inv_bind Hrun as a' Ha'.
  inv_bind Hrun as wl' Hwl'. inv_bind Hrun as bl' Hbl'. injection Hrun as <-. simpl.
  unfold coverage_gap in Hgap.
  destruct (rule_map g !! Some (kind a)) as [by_count|].
  - destruct (by_count !! Some (length (bonds a))) as [rules|]; [done|].
    injection Hgap as <-. by injection Hrules as <- <-.
  - injection Hgap as <-. by injection Hrules as <- <-.
Qed.

(** X12: an atom that is not a port and whose kind has no entry in the
    registry, or whose kind has no entry for its number of neighbours, gets
    the matching 'No rule for ...' warning in every round that returns, and
    the round leaves the atom as it found it. *)
Theorem uncovered_atom_is_warned_about (g : Globals) (h : Heap) (st : RoundState)
    (i : nat) (a : Atom) :
  typing_round g h = Returned st →
  store h !! i = Some a → kind a ≠ "G" →
  (rule_map g !! Some (kind a) = None →
     NoRuleForKind (kind a) ∈ log st ∧ store (heap st) !! i = Some a) ∧
  (∀ by_count, rule_map g !! Some (kind a) = Some by_count →
     by_count !! Some (length (bonds a)) = None →
     NoRuleForNeighbors (length (bonds a)) (kind a) ∈ log st ∧
     store (heap st) !! i = Some a).
Proof.
  intros Hrun Ha HG.
  assert (∀ w, coverage_gap g a = Some w → store (heap st) !! i = Some a ∧ w ∈ log st)
    as Hgap.
  { intros w Hw. unfold typing_round in Hrun.
    pose proof (lookup_lt_Some _ _ _ Ha) as Hlt.
    assert ((∀ j, length (store h) ≤ j → store (heap st) !! j = store h !! j) ∧
            (i < length (store h) → store (heap st) !! i = Some a ∧ w ∈ log st))
      as [_ Hend]; [|by apply Hend].
    revert Hrun.
    apply (for_each_seq_invariant
             (λ k st, (∀ j, k ≤ j → store (heap st) !! j = store h !! j) ∧
                      (i < k → store (heap st) !! i = Some a ∧ w ∈ log st))).
    - split; [done|lia].
    - intros k s s' Hk [Hrest Hdone] Hstep.
      pose proof (round_step_spec _ _ _ _ Hstep)
        as (ak & Hak & _ & _ & [_ Hframe _ _ _] & _ & HGk & HnGk).
      split.
      + intros j Hj. rewrite Hframe by lia. apply Hrest. lia.
      + intros Hik. destruct (decide (i = k)) as [->|Hne].
        * assert (store (heap s) !! k = Some a) as Hk' by (rewrite Hrest; [done|lia]).
          destruct (round_step_gap g s s' k a w Hk' HG Hw Hstep) as [-> ->].
          split; [done|]. apply elem_of_app. right. by left.
        * destruct Hdone as [Hi Hin]; [lia|]. split; [by rewrite Hframe|].
          destruct (decide (kind ak = "G")) as [HGak|HGak].
          -- destruct (HGk HGak) as (_ & _ & ->). done.
          -- destruct (HnGk HGak) as (_ & extra & _ & _ & -> & _).
             apply elem_of_app. by left. }
  split.
  - intros Hnone. apply and_comm, Hgap. unfold coverage_gap. by rewrite Hnone.
  - intros by_count Hsome Hnone. apply and_comm, Hgap. unfold coverage_gap.
    by rewrite Hsome, Hnone.
Qed.

(** ** The stop test of the loop *)

Lemma atom_grows_len (a a' : Atom) :
  atom_grows a a' → atom_len a ≤ atom_len a' ∧ (atom_len a' ≤ atom_len a → a' = a).
Proof.
  intros (Hk & Hb & Ht & Hw & Hbl). unfold atom_len.
  destruct a as [k bo w b t], a' as [k' bo' w' b' t']. simpl in *. subst.
  assert (∀ o o' : option OrderedSet.t, slot_grows o o' →
            length (default [] o) ≤ length (default [] o') ∧
            (length (default [] o') ≤ length (default [] o) → o' = o)) as Hslot.
  { intros [l|] o' Hg; simpl in Hg.
    - destruct Hg as (l' & -> & Hpre). simpl. split; [by apply prefix_length|].
      intros Hle. f_equal. symmetry. by apply prefix_length_eq.
    - by subst. }
  destruct (Hslot _ _ Hw) as [Hw1 Hw2], (Hslot _ _ Hbl) as [Hb1 Hb2].
  split; [lia|]. intros Hle. rewrite Hw2, Hb2 by lia. done.
Qed.

Lemma store_grows_total (s s' : Store) :
  store_grows s s' → total_len s ≤ total_len s' ∧ (total_len s' ≤ total_len s → s' = s).
Proof.
  unfold store_grows, total_len. induction 1 as [|a a' s s' Ha _ IH]; simpl; [done|].
  destruct (atom_grows_len a a' Ha) as [Hle Heq], IH as [IHle IHeq].
  split; [lia|]. intros Hsum. rewrite Heq, IHeq by lia. done.
Qed.

(** X13: the stop test finds a true fixed point of the sets: on a store
    whose ports hold nothing, a round whose two counters agree has left every
    whitelist and blacklist, indeed the whole store, exactly as it was. *)
Theorem unchanged_total_is_unchanged_store (g : Globals) (h : Heap) (st : RoundState) :
  ports_blank (store h) →
  typing_round g h = Returned st →
  old_len st = new_len st →
  store (heap st) = store h.
Proof.
  intros Hblank Hrun Hsame.
  destruct (typing_round_counts g h st Hblank Hrun) as (Hold & Hnew & _).
  apply typing_round_run in Hrun as [Hg _ _ _].
  apply store_grows_total in Hg as [_ Heq]. apply Heq. lia.
Qed.

(** ** [check_atom] on an atom without a whitelist *)

(** X14: on an atom that has not been prepared, [check_atom] raises for
    every input that names at least one identifier (the whitelist is read for
    the first of them), and still returns [None] for an empty collection,
    which never reads it. *)
Theorem check_atom_unprepared (a : Atom) (input_rule_ids : RuleIds) :
  whitelist a = None →
  check_atom a (ManyIds []) = Returned None ∧
  (asked input_rule_ids ≠ [] → check_atom a input_rule_ids = Raised AttributeError).
Proof.
  intros Hw. split; [reflexivity|]. intros Hasked. unfold check_atom.
  destruct (elements (collect_rule_ids input_rule_ids)) as [|rule rest] eqn:Hel.
  - exfalso. apply elements_empty_inv in Hel. apply leibniz_equiv in Hel.
    destruct input_rule_ids as [r|[|r l]]; simpl in *; [|done|].
    + assert (str r ∈ (∅ : gset string)) as Hin by (rewrite <-Hel; by apply elem_of_singleton).
      by apply elem_of_empty in Hin.
    + assert (str r ∈ (∅ : gset string)) as Hin.
      { rewrite <-Hel.
        apply (elem_of_collect_rule_ids (str r) (ManyIds (r :: l))). exists r.
        split; [by left|done]. }
      by apply elem_of_empty in Hin.
  - simpl. unfold read_whitelist. by rewrite Hw.
Qed.

(** ** The graph of a rule group *)

Lemma add_edge_edges (u v : string) (e : string * string) (G : nx.DiGraph) :
  e ∈ nx.edges (nx.add_edge u v G) ↔ e = (u, v) ∨ e ∈ nx.edges G.
Proof.
  assert (∀ w G0, nx.edges (nx.add_node w G0) = nx.edges G0) as Hnode.
  { intros w G0. unfold nx.add_node. by case_decide. }
  unfold nx.add_edge. case_decide as Hin; simpl.
  - rewrite !Hnode in *. split; [by right|]. by intros [-> | ?].
  - rewrite !Hnode. rewrite elem_of_app, list_elem_of_singleton. tauto.
Qed.

Lemma add_edges_edges (u : string) (l : list string) (e : string * string)
    (G : nx.DiGraph) :
  e ∈ nx.edges (foldl (λ G b, nx.add_edge u b G) G l) ↔
  e ∈ nx.edges G ∨ ∃ b, b ∈ l ∧ e = (u, b).
Proof.
  revert G. induction l as [|b l IH]; intros G; simpl.
  - split; [by left|]. by intros [?|(b & ?%elem_of_nil & _)].
  - rewrite IH, add_edge_edges. split.
    + intros [[-> | ?]|(b' & Hb' & ->)]; [right|by left|right].
      * exists b. split; [by left|done].
      * exists b'. split; [by right|done].
    + intros [?|(b' & [-> | Hb']%elem_of_cons & ->)];
        [by left; right|by left; left|right]. by exists b'.
Qed.

Lemma add_edges_nodes (u : string) (l : list string) (x : string) (G : nx.DiGraph) :
  x ∈ nx.nodes (foldl (λ G b, nx.add_edge u b G) G l) ↔
  x ∈ nx.nodes G ∨ ∃ b, b ∈ l ∧ (x = u ∨ x = b).
Proof.
  revert G. induction l as [|b l IH]; intros G; simpl.
  - split; [by left|]. by intros [?|(b & ?%elem_of_nil & _)].
  - rewrite IH, elem_of_add_edge. split.
    + intros [[-> | [-> | ?]]|(b' & Hb' & Hx)]; [right|right|by left|right].
      * exists b. split; [by left|by left].
      * exists b. split; [by left|by right].
      * exists b'. split; [by right|done].
    + intros [?|(b' & [-> | Hb']%elem_of_cons & Hx)].
      * left. by right; right.
      * left. destruct Hx as [-> | ->]; [by left|by right; left].
      * right. by exists b'.
Qed.

(** X15: the graph that [sanitize] builds for a group of rules is exactly the
    blacklist relation of the group: there is an edge from [u] to [v] if and
    only if [u] is a rule of the group whose [Blacklist] decorators name [v]
    ([v] itself need not belong to the group), and the nodes are the end
    points of these edges and nothing else. *)
Theorem group_graph_is_blacklist_relation (rules_by_number : gmap string RuleFn)
    (rules : list string) (G : nx.DiGraph) :
  build_graph rules_by_number rules = Returned G →
  (∀ u v, (u, v) ∈ nx.edges G ↔
          u ∈ rules ∧ ∃ rule, rules_by_number !! u = Some rule ∧
                              v ∈ blacklisted_by (closure_decorators rule)) ∧
  (∀ x, x ∈ nx.nodes G ↔ ∃ u v, (u, v) ∈ nx.edges G ∧ (x = u ∨ x = v)).
Proof.
  unfold build_graph.
  set (body := λ (G : nx.DiGraph) (rule_number : string), _).
  set (rel := λ (l : list string) (u v : string),
                u ∈ l ∧ ∃ rule, rules_by_number !! u = Some rule ∧
                                v ∈ blacklisted_by (closure_decorators rule)).
  assert (∀ l G0 G1, for_each body l G0 = Returned G1 →
            (∀ u v, (u, v) ∈ nx.edges G1 ↔ (u, v) ∈ nx.edges G0 ∨ rel l u v) ∧
            (∀ x, x ∈ nx.nodes G1 ↔
                  x ∈ nx.nodes G0 ∨ ∃ u v, rel l u v ∧ (x = u ∨ x = v))) as Hgen.
  { induction l as [|r l IH]; intros G0 G1 Hrun.
    - injection Hrun as <-. split.
      + intros u v. split; [by left|]. by intros [?|[?%elem_of_nil _]].
      + intros x. split; [by left|]. by intros [?|(u & v & [?%elem_of_nil _] & _)].
    - rewrite for_each_cons in Hrun. inv_bind Hrun as G2 Hstep.
      destruct (IH _ _ Hrun) as [Hedges Hnodes]. unfold body in Hstep.
      inv_bind Hstep as rule Hrule. inv_bind Hstep as decorators Hdecs.
      injection Hstep as <-.
      destruct (rules_by_number !! r) as [rule0|] eqn:Hlook; [|done].
      injection Hrule as ->.
      assert (decorators = closure_decorators rule) as ->.
      { destruct rule; [done|]. by injection Hdecs as <-. }
      assert (∀ u v, rel (r :: l) u v ↔
                (u = r ∧ v ∈ elements (blacklisted_by (closure_decorators rule))) ∨
                rel l u v) as Hrel.
      { intros u v. unfold rel. rewrite elem_of_cons, elem_of_elements. split.
        - intros [[-> | Hin] (rule' & Hrule' & Hv)]; [left|right; by eauto].
          split; [done|]. congruence.
        - intros [[-> Hv]|[Hin Hex]]; [|by split; [right|]].
          split; [by left|]. by exists rule. }
      split.
      + intros u v. rewrite Hedges, add_edges_edges, Hrel. split.
        * intros [[?|(b & Hb & [= -> ->])]|?]; [by left|right; by left|right; by right].
        * intros [?|[[-> Hv]|?]]; [by left; left| |by right].
          left. right. by exists v.
      + intros x. rewrite Hnodes, add_edges_nodes. split.
        * intros [[?|(b & Hb & Hx)]|(u & v & Hr & Hx)]; [by left| |].
          -- right. exists r, b. split; [|done]. apply Hrel. by left.
          -- right. exists u, v. split; [|done]. apply Hrel. by right.
        * intros [?|(u & v & [[-> Hv]|Hr]%Hrel & Hx)]; [by left; left| |].
          -- left. right. by exists v.
          -- right. by exists u, v. }
  intros Hrun. destruct (Hgen _ _ _ Hrun) as [Hedges Hnodes]. split.
  - intros u v. rewrite Hedges. split; [|by right].
    by intros [?%elem_of_nil|?].
  - intros x. rewrite Hnodes. split.
    + intros [?%elem_of_nil|(u & v & Hr & Hx)]; [done|].
      exists u, v. split; [|done]. apply Hedges. by right.
    + intros (u & v & [?%elem_of_nil|Hr]%Hedges & Hx); [done|].
      right. by exists u, v.
Qed.

(** ** What the resolution leaves alone *)

Lemma atom_eq (a a' : Atom) :
  same_lists a a' → atomtype a' = atomtype a → a' = a.
Proof.
  intros (Hk & Hb & Hw & Hbl) Ht. destruct a, a'. simpl in *. by subst.
Qed.

(** X16: the resolution writes nothing but [extras['atomtype']] of the atoms
    that [compound.atoms] lists: the store keeps its length, every atom keeps
    its kind, bonds, whitelist and blacklist, an atom that is not listed is
    not touched at all; and resolving once more changes nothing and warns
    about the same atoms. *)
Theorem resolve_all_only_sets_atomtype (atoms : list nat) (s : Store) :
  (∀ ref, ref ∈ atoms →
     ∃ a w b, s !! ref = Some a ∧ whitelist a = Some w ∧ blacklist a = Some b) →
  ∃ s' log,
    resolve_all atoms s = Returned (s', log) ∧
    length s' = length s ∧
    (∀ ref a, s !! ref = Some a →
       ∃ a', s' !! ref = Some a' ∧ kind a' = kind a ∧ bonds a' = bonds a ∧
             whitelist a' = whitelist a ∧ blacklist a' = blacklist a ∧
             (ref ∉ atoms → a' = a)) ∧
    ∃ log', resolve_all atoms s' = Returned (s', log') ∧ ∀ w, w ∈ log' ↔ w ∈ log.
Proof.
  intros Hprep. unfold resolve_all.
  destruct (resolve_loop_spec (enumerate atoms) s [])
    as (s' & log & Hrun & Hlen & Hst & Hlog); [by rewrite enumerate_snd|].
  rewrite enumerate_snd in Hst.
  assert (∀ ref, ref ∈ atoms →
            ∃ a w b, s' !! ref = Some a ∧ whitelist a = Some w ∧ blacklist a = Some b)
    as Hprep'.
  { intros ref (a & w & b & Ha & Hw & Hb)%Hprep.
    destruct (Hst ref a Ha) as (a' & Ha' & (_ & _ & Hw' & Hb') & _).
    exists a', w, b. split_and!; congruence. }
  destruct (resolve_loop_spec (enumerate atoms) s' [])
    as (s'' & log' & Hrun' & Hlen' & Hst' & Hlog'); [by rewrite enumerate_snd|].
  rewrite enumerate_snd in Hst'.
  assert (s'' = s') as ->.
  { apply list_eq. intros ref. destruct (s' !! ref) as [a'|] eqn:Ha'.
    - destruct (Hst' ref a' Ha') as (a'' & Ha'' & Hsame' & Hin' & Hout'). rewrite Ha''.
      f_equal. destruct (decide (ref ∈ atoms)) as [Hin|Hout]; [|by apply Hout'].
      destruct (Hprep ref Hin) as (a & w & b & Ha & Hw & Hb).
      destruct (Hst ref a Ha) as (a1 & Ha1 & (_ & _ & Hw1 & Hb1) & Hin1 & _).
      assert (a1 = a') as -> by congruence.
      apply atom_eq; [done|].
      rewrite (Hin1 Hin w b Hw Hb). apply (Hin' Hin); congruence.
    - apply lookup_ge_None. apply lookup_ge_None in Ha'. lia. }
  exists s', log. split_and!; [done..| |].
  - intros ref a Ha. destruct (Hst ref a Ha) as (a' & Ha' & (Hk & Hb & Hw & Hbl) & _ & Hout).
    exists a'. by split_and!.
  - exists log'. split; [done|]. intros w. rewrite Hlog, Hlog'. split.
    + intros (i & ref & a' & wl & bl & Hin & Ha' & Hwl & Hbl & Hne & ->).
      pose proof Hin as Hi%elem_of_enumerate.
      destruct (Hprep ref ltac:(by eapply list_elem_of_lookup_2)) as (a & w0 & b0 & Ha & Hw0 & Hb0).
      destruct (Hst ref a Ha) as (a1 & Ha1 & (Hk & _ & Hw1 & Hb1) & _).
      assert (a1 = a') as -> by congruence.
      exists i, ref, a, wl, bl. rewrite <-Hk. split_and!; congruence.
    + intros (i & ref & a & wl & bl & Hin & Ha & Hwl & Hbl & Hne & ->).
      destruct (Hst ref a Ha) as (a' & Ha' & (Hk & _ & Hw1 & Hb1) & _).
      exists i, ref, a', wl, bl. rewrite Hk. split_and!; congruence.
Qed.

(** ** The cache within a first run *)

Lemma count_neighbors_shape (s s' : Store) (bs : list nat) :
  same_shape s s' → count_neighbors s' bs = count_neighbors s bs.
Proof.
  intros Hshape. unfold count_neighbors. generalize (∅ : gmap string nat).
  induction bs as [|b bs IH]; intros m; simpl; [done|].
  destruct (s !! b) as [a|] eqn:Ha.
  - destruct (Forall2_lookup_l _ _ _ _ _ Hshape Ha) as (a' & -> & -> & _). apply IH.
  - assert (s' !! b = None) as ->; [|apply IH].
    apply lookup_ge_None. apply lookup_ge_None in Ha.
    by rewrite <-(Forall2_length _ _ _ Hshape).
Qed.

Lemma cache_right_shape (s s' : Store) (ntm : gmap nat (gmap string nat)) :
  same_shape s s' → cache_right s ntm → cache_right s' ntm.
Proof.
  intros Hshape Hright i tally (a & Ha & ->)%Hright.
  destruct (Forall2_lookup_l _ _ _ _ _ Hshape Ha) as (a' & Ha' & _ & Hb).
  exists a'. split; [done|]. by rewrite Hb, (count_neighbors_shape s s').
Qed.

Lemma store_grows_shape (s s' : Store) : store_grows s s' → same_shape s s'.
Proof.
  unfold store_grows, same_shape. intros Hg. eapply Forall2_impl; [exact Hg|].
  by intros a a' (? & ? & _).
Qed.

Lemma insert_shape (s : Store) (i : nat) (a1 a2 : Atom) :
  s !! i = Some a1 → kind a2 = kind a1 → bonds a2 = bonds a1 →
  same_shape s (<[i := a2]> s).
Proof.
  intros Ha Hk Hb. apply Forall2_same_length_lookup. split; [by rewrite length_insert|].
  intros j x y Hx Hy. destruct (decide (j = i)) as [->|Hne].
  - rewrite list_lookup_insert_eq in Hy by by eapply lookup_lt_Some.
    assert (x = a1) as -> by congruence. by injection Hy as <-.
  - rewrite list_lookup_insert_ne in Hy by done. by assert (x = y) as -> by congruence.
Qed.

Lemma neighbor_guard_right (h : Heap) (i : nat) (a : Atom) :
  store h !! i = Some a → cache_right (store h) (cache h) →
  cache_right (store h) (<[i := tally_for h i a]> (cache h)).
Proof.
  intros Ha Hright j tally. destruct (decide (j = i)) as [->|Hne].
  - rewrite lookup_insert_eq. intros [= <-]. unfold tally_for, neighbor_types.
    destruct (cache h !! i) as [cached|] eqn:Hc; simpl; [|by exists a].
    destruct (Hright i cached Hc) as (a0 & Ha0 & ->). exists a0. split; [done|]. congruence.
  - rewrite lookup_insert_ne by done. apply Hright.
Qed.

Lemma call_cache_right (fn : RuleFn) (h h' : Heap) (i : nat) (r : bool) :
  call fn h i = Returned (r, h') →
  cache_right (store h) (cache h) → cache_right (store h') (cache h').
Proof.
  revert h h' r. induction fn as [f|dec fn IH]; intros h h' r Hcall Hright.
  - simpl in Hcall. by injection Hcall as _ <-.
  - cbn [call] in Hcall. inv_bind Hcall as a Ha. apply get_Returned in Ha.
    assert (∀ cmp t c,
      (let '(ok, h1) := neighbor_guard cmp t c h i a in
       if ok then call fn h1 i else mret (false, h1)) = Returned (r, h') →
      cache_right (store h') (cache h')) as Hguard.
    { intros cmp t c. rewrite neighbor_guard_spec.
      pose proof (neighbor_guard_right h i a Ha Hright) as Hr1.
      destruct (match tally_for h i a !! t with Some n => cmp n c | None => false end).
      - intros Hin. by eapply IH.
      - by intros [= _ <-]. }
    assert (∀ h1 a1 a2, cache_right (store h1) (cache h1) → store h1 !! i = Some a1 →
              atom_grows a1 a2 →
              cache_right (<[i := a2]> (store h1)) (cache h1)) as Hupdate.
    { intros h1 a1 a2 Hr1 Ha1 (Hk & Hb & _). eapply cache_right_shape; [|done].
      by eapply insert_shape. }
    destruct dec as [e|c|t c|t c|t c|ids|ids]; try (by eapply Hguard).
    + case_decide; [by eapply IH|by injection Hcall as _ <-].
    + case_decide; [by eapply IH|by injection Hcall as _ <-].
    + inv_bind Hcall as [r1 h1] Hin. apply IH in Hin; [|done].
      destruct r1; [|by injection Hcall as _ <-].
      inv_bind Hcall as a1 Ha1. inv_bind Hcall as a2 Ha2. injection Hcall as _ <-.
      apply get_Returned in Ha1. apply whitelist_add_spec in Ha2 as [Hg _].
      simpl. by eapply Hupdate.
    + inv_bind Hcall as [r1 h1] Hin. apply IH in Hin; [|done].
      destruct r1; [|by injection Hcall as _ <-].
      inv_bind Hcall as a1 Ha1. inv_bind Hcall as a2 Ha2. injection Hcall as _ <-.
      apply get_Returned in Ha1. apply blacklist_add_spec in Ha2 as [Hg _].
      simpl. by eapply Hupdate.
Qed.

Lemma run_rule_cache_right (rules : gmap string RuleFn) (h h' : Heap) (i : nat)
    (rule_id : string) :
  run_rule rules h i rule_id = Returned h' →
  cache_right (store h) (cache h) → cache_right (store h') (cache h').
Proof.
  unfold run_rule. intros Hrun Hright. inv_bind Hrun as a Ha. inv_bind Hrun as w Hw.
  case_decide; [by injection Hrun as <-|].
  destruct (rules !! rule_id) as [rule_fn|]; [|done].
  inv_bind Hrun as [r h1] Hcall. injection Hrun as <-. by eapply call_cache_right.
Qed.

Lemma round_step_cache_right (g : Globals) (st st' : RoundState) (i : nat) :
  round_step g st i = Returned st' →
  cache_right (store (heap st)) (cache (heap st)) →
  cache_right (store (heap st')) (cache (heap st')).
Proof.
  unfold round_step. intros Hrun Hright.
  inv_bind Hrun as a Ha. inv_bind Hrun as w Hw. inv_bind Hrun as b Hb.
  case_decide; [by injection Hrun as <-|].
  inv_bind Hrun as [h1 log1] Hrules. inv_bind Hrun as a' Ha'.
  inv_bind Hrun as w' Hw'. inv_bind Hrun as b' Hb'. injection Hrun as <-. simpl.
  destruct (rule_map g !! Some (kind a)) as [by_count|]; [|by injection Hrules as <- _].
  destruct (by_count !! Some (length (bonds a))) as [rules|]; [|by injection Hrules as <- _].
  inv_bind Hrules as h2 Hh2. injection Hrules as <- _. revert Hh2.
  apply (for_each_invariant (λ h, cache_right (store h) (cache h))); [done|].
  intros h3 rule h4 _ Hr3 Hstep. by eapply run_rule_cache_right.
Qed.

Lemma typing_loop_cache_right (cap : nat) (g : Globals) (h h' : Heap) (log : list Warning) :
  typing_loop cap g h = Returned (h', log) →
  cache_right (store h) (cache h) → cache_right (store h') (cache h').
Proof.
  revert h h' log. induction cap as [|n IH]; intros h h' log Hrun Hright; simpl in Hrun.
  - by injection Hrun as <- _.
  - inv_bind Hrun as st Hst.
    assert (cache_right (store (heap st)) (cache (heap st))) as Hst'.
    { revert Hst. unfold typing_round.
      apply (for_each_invariant (λ st, cache_right (store (heap st)) (cache (heap st))));
        [done|].
      intros s k s' _ Hs Hstep. by eapply round_step_cache_right. }
    case_decide; [by injection Hrun as <- _|].
    inv_bind Hrun as [h1 log1] Hrest. injection Hrun as <- _. by eapply IH.
Qed.

(** X17: within a first run the cache is right: when [find_atomtypes]
    starts with an empty [neighbor_types_map] and returns, every tally the map
    then holds belongs to an atom of the compound and is the neighbour count of
    that atom's bonds in the compound. *)
Theorem first_run_caches_right_tallies (oplsaa : list (string * RuleFn)) (g g' : Globals)
    (c : Compound) (forcefield : string) (debug : bool) (s : Store) (log : list Warning) :
  neighbor_types_map g = ∅ →
  find_atomtypes oplsaa g c forcefield debug = Returned (g', s, log) →
  ∀ i tally, neighbor_types_map g' !! i = Some tally →
    ∃ a, yield_atoms c !! i = Some a ∧
         tally = count_neighbors (yield_atoms c) (bonds a).
Proof.
  intros Hempty Hrun. unfold find_atomtypes in Hrun.
  inv_bind Hrun as rules Hrules. inv_bind Hrun as [g1 log1] Hbuild.
  inv_bind Hrun as log2 Hsan. inv_bind Hrun as [h log3] Hloop.
  inv_bind Hrun as [s' log4] Hres. injection Hrun as <- <- <-.
  apply build_rule_map_cache in Hbuild as [Hntm _]. simpl in Hntm.
  rewrite Hntm, Hempty in Hloop. pose proof Hloop as Hg.
  apply typing_loop_cache_right in Hloop; [|by intros i tally ?].
  apply typing_loop_run in Hg as [[Hg _ _ _] _]. simpl in *.
  assert (same_shape (store h) (yield_atoms c)) as Hshape.
  { apply Forall2_same_length_lookup. split.
    - by rewrite (store_grows_length _ _ Hg), length_fmap.
    - intros j x y Hx Hy.
      destruct (Forall2_lookup_r _ _ _ _ _ Hg Hx) as (x0 & Hx0 & Hk & Hb & _).
      rewrite list_lookup_fmap, Hy in Hx0. injection Hx0 as <-. simpl in *. by split. }
  by apply (cache_right_shape (store h) (yield_atoms c)).
Qed.

(** ** Groups of rules without blacklists *)

Lemma build_graph_no_edges (rules_by_number : gmap string RuleFn) (rules : list string) :
  (∀ r, r ∈ rules →
     ∃ rule, rules_by_number !! r = Some rule ∧ decorated rule ∧
             blacklisted_by (closure_decorators rule) = ∅) →
  build_graph rules_by_number rules = Returned nx.empty.
Proof.
  unfold build_graph. generalize nx.empty.
  induction rules as [|r rules IH]; intros G Hrules; [done|].
  rewrite for_each_cons.
  destruct (Hrules r) as (rule & Hrule & (dec & f & ->) & Hnone); [by left|].
  rewrite Hrule. cbn [mbind result_bind mret result_ret get_decorator_objects_by_type].
  rewrite Hnone, elements_empty. cbn [foldl].
  apply IH. intros. apply Hrules. by right.
Qed.

Lemma matches_step_within (rules_by_number : gmap string RuleFn)
    (supported_elements : list string)
    (rule_matches rule_matches' : gmap (option string * list string) (gset string))
    (entry : string * RuleFn) :
  is_Some (rules_by_number !! entry.1) →
  groups_within rules_by_number rule_matches →
  matches_step supported_elements rule_matches entry = Returned rule_matches' →
  groups_within rules_by_number rule_matches'.
Proof.
  destruct entry as [rule_number rule]. intros Hin Hgroups Hstep.
  unfold matches_step in Hstep.
  inv_bind Hstep as decorators Hdecs. inv_bind Hstep as [element_type neighbor_count] Hscan.
  inv_bind Hstep as count Hcount. injection Hstep as <-.
  generalize (list_difference
                (remove_dups (combinations_with_replacement count supported_elements))
                (decorators ≫= λ dec,
                   filter (λ pattern, excluded_by dec pattern = true)
                     (remove_dups (combinations_with_replacement count supported_elements)))).
  intros patterns. revert rule_matches Hgroups.
  induction patterns as [|pattern patterns IH]; intros rule_matches Hgroups; [done|].
  cbn [foldl]. apply IH. intros key rules r Hkey Hr.
  destruct (rule_matches !! (element_type, pattern)) as [old|] eqn:Hold.
  - apply lookup_insert_Some in Hkey as [[<- <-]|[_ Hkey]]; [|by eapply Hgroups].
    apply elem_of_union in Hr as [Hr| ->%elem_of_singleton]; [by eapply Hgroups|done].
  - apply lookup_insert_Some in Hkey as [[<- <-]|[_ Hkey]]; [|by eapply Hgroups].
    by apply elem_of_singleton in Hr as ->.
Qed.

(** X18: in a catalogue of decorated rules that blacklist nothing, the third
    loop of [sanitize] has no warning to give: when the first two loops have
    returned the groups, [sanitize] returns without a warning if every group
    has fewer than two rules, and raises networkx's NetworkXPointlessConcept
    as soon as one group has two (the graph of the group has no edge, so it is
    the null graph, for which [is_connected] is not defined). *)
Theorem overlap_without_blacklist_is_fatal (g : Globals) (supported : gset string)
    (rule_matches : gmap (option string * list string) (gset string)) :
  (∀ rule_number rule, rule_number_to_rule g !! rule_number = Some rule →
     decorated rule ∧ blacklisted_by (closure_decorators rule) = ∅) →
  for_each supported_step (items (rule_number_to_rule g)) ∅ = Returned supported →
  for_each (matches_step (merge_sort str_le (elements supported)))
           (items (rule_number_to_rule g)) ∅ = Returned rule_matches →
  ((∀ key rules, rule_matches !! key = Some rules → size rules < 2) →
     sanitize g = Returned []) ∧
  (∀ key rules, rule_matches !! key = Some rules → 2 ≤ size rules →
     sanitize g = Raised NetworkXPointlessConcept).
Proof.
  intros Hcat Hsupported Hmatches.
  assert (groups_within (rule_number_to_rule g) rule_matches) as Hwithin.
  { revert Hmatches.
    apply (for_each_invariant (groups_within (rule_number_to_rule g))).
    - intros key rules r Hkey. by rewrite lookup_empty in Hkey.
    - intros s [rule_number rule] s' Hin Hs Hstep.
      eapply matches_step_within; [|done..]. apply elem_of_items in Hin. by eexists. }
  assert (∀ log key rules, rule_matches !! key = Some rules →
            graph_step (rule_number_to_rule g) log (key, rules) =
              if decide (size rules < 2) then Returned log
              else Raised NetworkXPointlessConcept) as Hstep.
  { intros log [element_type pattern] rules Hkey. unfold graph_step.
    case_decide as Hsize; [done|].
    rewrite build_graph_no_edges; [done|].
    intros r Hr%elem_of_elements.
    destruct (Hwithin _ _ _ Hkey Hr) as [rule Hrule].
    exists rule. by destruct (Hcat _ _ Hrule). }
  unfold sanitize. rewrite Hsupported. cbn [mbind result_bind].
  rewrite Hmatches. cbn [mbind result_bind]. split.
  - intros Hsmall.
    destruct (for_each_returns (λ log, log = [])
                (graph_step (rule_number_to_rule g)) (items rule_matches) [])
      as (log & -> & ->); [done| |done].
    intros log [key rules] Hin ->. apply elem_of_items in Hin.
    exists []. split; [|done].
    rewrite (Hstep _ _ _ Hin). rewrite decide_True; [done|by eapply Hsmall].
  - intros key rules Hkey Hsize.
    destruct (for_each_raises (λ e, e = NetworkXPointlessConcept)
                (λ entry : (option string * list string) * gset string, 2 ≤ size entry.2)
                (graph_step (rule_number_to_rule g)) (items rule_matches) [])
      as (e & -> & ->); [| |done].
    + intros log [key' rules'] Hin. apply elem_of_items in Hin.
      rewrite (Hstep _ _ _ Hin). case_decide.
      * left. exists log. split; [done|]. simpl. lia.
      * right. by eexists.
    + exists (key, rules). split; [by apply elem_of_items|done].
Qed.

(** ** Where the entries of the sets come from *)

Lemma whitelist_add_source (rule_numbers : list string) (a a' : Atom) :
  whitelist_add rule_numbers a = Returned a' →
  kind a' = kind a ∧ bonds a' = bonds a ∧ blacklist a' = blacklist a ∧
  ∀ w' x, whitelist a' = Some w' → x ∈ w' →
    (∃ w, whitelist a = Some w ∧ x ∈ w) ∨ x ∈ rule_numbers.
Proof.
  unfold whitelist_add.
  apply (for_each_invariant
           (λ a', kind a' = kind a ∧ bonds a' = bonds a ∧ blacklist a' = blacklist a ∧
                  ∀ w' x, whitelist a' = Some w' → x ∈ w' →
                    (∃ w, whitelist a = Some w ∧ x ∈ w) ∨ x ∈ rule_numbers)).
  - split_and!; [done..|]. intros w' x Hw' Hx. left. by exists w'.
  - intros a1 rule a2 Hin (Hk & Hb & Hbl & Hsrc) Hstep.
    inv_bind Hstep as w Hw. apply read_whitelist_Returned in Hw.
    injection Hstep as <-. simpl. split_and!; [done..|].
    intros w' x [= <-] [-> | Hx]%OrderedSet_elem_of_add; [by right|by eapply Hsrc].
Qed.

Lemma blacklist_add_source (rule_numbers : list string) (a a' : Atom) :
  blacklist_add rule_numbers a = Returned a' →
  kind a' = kind a ∧ bonds a' = bonds a ∧ whitelist a' = whitelist a ∧
  ∀ b' x, blacklist a' = Some b' → x ∈ b' →
    (∃ b, blacklist a = Some b ∧ x ∈ b) ∨ x ∈ rule_numbers.
Proof.
  unfold blacklist_add.
  apply (for_each_invariant
           (λ a', kind a' = kind a ∧ bonds a' = bonds a ∧ whitelist a' = whitelist a ∧
                  ∀ b' x, blacklist a' = Some b' → x ∈ b' →
                    (∃ b, blacklist a = Some b ∧ x ∈ b) ∨ x ∈ rule_numbers)).
  - split_and!; [done..|]. intros b' x Hb' Hx. left. by exists b'.
  - intros a1 rule a2 Hin (Hk & Hb & Hwl & Hsrc) Hstep.
    inv_bind Hstep as b Hbl. apply read_blacklist_Returned in Hbl.
    injection Hstep as <-. simpl. split_and!; [done..|].
    intros b' x [= <-] [-> | Hx]%OrderedSet_elem_of_add; [by right|by eapply Hsrc].
Qed.

(** What a call adds to the sets of its atom is named by the rule's own
    effect decorators. *)
Lemma call_source (fn : RuleFn) (h h' : Heap) (i : nat) (r : bool) (a : Atom) :
  store h !! i = Some a →
  call fn h i = Returned (r, h') →
  ∃ a', store h' !! i = Some a' ∧ kind a' = kind a ∧ bonds a' = bonds a ∧
    (∀ w' x, whitelist a' = Some w' → x ∈ w' →
       (∃ w, whitelist a = Some w ∧ x ∈ w) ∨
       ∃ ids, Whitelist ids ∈ closure_decorators fn ∧ x ∈ ids) ∧
    (∀ b' x, blacklist a' = Some b' → x ∈ b' →
       (∃ b, blacklist a = Some b ∧ x ∈ b) ∨
       ∃ ids, Blacklist ids ∈ closure_decorators fn ∧ x ∈ ids).
Proof.
  revert h h' r a. induction fn as [f|dec fn IH]; intros h h' r a Ha Hcall.
  - simpl in Hcall. injection Hcall as _ <-. exists a. split_and!; [done..| |].
    + intros w' x Hw' Hx. left. by exists w'.
    + intros b' x Hb' Hx. left. by exists b'.
  - assert (∀ h1 r1 h2, store h1 = store h → call fn h1 i = Returned (r1, h2) →
              ∃ a', store h2 !! i = Some a' ∧ kind a' = kind a ∧ bonds a' = bonds a ∧
                (∀ w' x, whitelist a' = Some w' → x ∈ w' →
                   (∃ w, whitelist a = Some w ∧ x ∈ w) ∨
                   ∃ ids, Whitelist ids ∈ closure_decorators (Wrapped dec fn) ∧ x ∈ ids) ∧
                (∀ b' x, blacklist a' = Some b' → x ∈ b' →
                   (∃ b, blacklist a = Some b ∧ x ∈ b) ∨
                   ∃ ids, Blacklist ids ∈ closure_decorators (Wrapped dec fn) ∧ x ∈ ids))
      as Hinner.
    { intros h1 r1 h2 Hst Hc. destruct (IH h1 h2 r1 a) as (a' & Ha' & Hk & Hb & Hw & Hbl);
        [by rewrite Hst|done|].
      exists a'. split_and!; [done..| |].
      - intros w' x Hw' Hx. destruct (Hw w' x Hw' Hx) as [?|(ids & Hids & Hin)]; [by left|].
        right. exists ids. split; [by right|done].
      - intros b' x Hb' Hx. destruct (Hbl b' x Hb' Hx) as [?|(ids & Hids & Hin)]; [by left|].
        right. exists ids. split; [by right|done]. }
    assert (∀ h1, store h1 = store h →
              ∃ a', store h1 !! i = Some a' ∧ kind a' = kind a ∧ bonds a' = bonds a ∧
                (∀ w' x, whitelist a' = Some w' → x ∈ w' →
                   (∃ w, whitelist a = Some w ∧ x ∈ w) ∨
                   ∃ ids, Whitelist ids ∈ closure_decorators (Wrapped dec fn) ∧ x ∈ ids) ∧
                (∀ b' x, blacklist a' = Some b' → x ∈ b' →
                   (∃ b, blacklist a = Some b ∧ x ∈ b) ∨
                   ∃ ids, Blacklist ids ∈ closure_decorators (Wrapped dec fn) ∧ x ∈ ids))
      as Hsame.
    { intros h1 Hst. exists a. rewrite Hst. split_and!; [done..| |].
      - intros w' x Hw' Hx. left. by exists w'.
      - intros b' x Hb' Hx. left. by exists b'. }
    assert (∀ cmp t c,
      (let '(ok, h1) := neighbor_guard cmp t c h i a in
       if ok then call fn h1 i else mret (false, h1)) = Returned (r, h') →
      ∃ a', store h' !! i = Some a' ∧ kind a' = kind a ∧ bonds a' = bonds a ∧
        (∀ w' x, whitelist a' = Some w' → x ∈ w' →
           (∃ w, whitelist a = Some w ∧ x ∈ w) ∨
           ∃ ids, Whitelist ids ∈ closure_decorators (Wrapped dec fn) ∧ x ∈ ids) ∧
        (∀ b' x, blacklist a' = Some b' → x ∈ b' →
           (∃ b, blacklist a = Some b ∧ x ∈ b) ∨
           ∃ ids, Blacklist ids ∈ closure_decorators (Wrapped dec fn) ∧ x ∈ ids))
      as Hguard.
    { intros cmp t c. pose proof (neighbor_guard_store cmp t c h i a) as Hst.
      destruct (neighbor_guard cmp t c h i a) as [ok h1]. simpl in Hst. destruct ok.
      - intros Hc. by eapply Hinner.
      - intros [= _ <-]. by apply Hsame. }
    cbn [call] in Hcall. rewrite (proj2 (get_Returned _ _ _) Ha) in Hcall.
    cbn [mbind result_bind] in Hcall.
    destruct dec as [e|c|t c|t c|t c|ids|ids].
    + case_decide; [by eapply Hinner|]. injection Hcall as _ <-. by apply Hsame.
    + case_decide; [by eapply Hinner|]. injection Hcall as _ <-. by apply Hsame.
    + by eapply Hguard.
    + by eapply Hguard.
    + by eapply Hguard.
    + inv_bind Hcall as [r1 h1] Hc.
      destruct (Hinner _ _ _ eq_refl Hc) as (a1 & Ha1 & Hk & Hb & Hw & Hbl).
      destruct r1; [|by injection Hcall as _ <-; exists a1].
      inv_bind Hcall as a1' Hget. apply get_Returned in Hget.
      assert (a1' = a1) as -> by congruence.
      inv_bind Hcall as a2 Hadd. injection Hcall as _ <-. simpl.
      apply whitelist_add_source in Hadd as (Hk2 & Hb2 & Hbl2 & Hsrc).
      exists a2. split_and!; [|congruence..| |].
      * apply list_lookup_insert_eq. by eapply lookup_lt_Some.
      * intros w' x Hw' Hx. destruct (Hsrc w' x Hw' Hx) as [(w1 & Hw1 & Hx1)|Hin].
        -- by eapply Hw.
        -- right. exists ids. split; [by left|done].
      * intros b' x Hb' Hx. rewrite Hbl2 in Hb'. by eapply Hbl.
    + inv_bind Hcall as [r1 h1] Hc.
      destruct (Hinner _ _ _ eq_refl Hc) as (a1 & Ha1 & Hk & Hb & Hw & Hbl).
      destruct r1; [|by injection Hcall as _ <-; exists a1].
      inv_bind Hcall as a1' Hget. apply get_Returned in Hget.
      assert (a1' = a1) as -> by congruence.
      inv_bind Hcall as a2 Hadd. injection Hcall as _ <-. simpl.
      apply blacklist_add_source in Hadd as (Hk2 & Hb2 & Hwl2 & Hsrc).
      exists a2. split_and!; [|congruence..| |].
      * apply list_lookup_insert_eq. by eapply lookup_lt_Some.
      * intros w' x Hw' Hx. rewrite Hwl2 in Hw'. by eapply Hw.
      * intros b' x Hb' Hx. destruct (Hsrc b' x Hb' Hx) as [(b1 & Hb1 & Hx1)|Hin].
        -- by eapply Hbl.
        -- right. exists ids. split; [by left|done].
Qed.

Lemma run_rule_sourced (g : Globals) (h h' : Heap) (i : nat) (rule_id : string) (a : Atom) :
  store h !! i = Some a →
  rule_id ∈ bucket (rule_map g) (Some (kind a)) (Some (length (bonds a))) →
  run_rule (rule_number_to_rule g) h i rule_id = Returned h' →
  sourced g (store h) →
  sourced g (store h') ∧
  ∃ a', store h' !! i = Some a' ∧ kind a' = kind a ∧ bonds a' = bonds a.
Proof.
  intros Ha Hin Hrun Hsrc. unfold run_rule in Hrun.
  inv_bind Hrun as a0 Hget. inv_bind Hrun as w Hw.
  case_decide; [injection Hrun as <-; split; [done|by exists a]|].
  destruct (rule_number_to_rule g !! rule_id) as [rule_fn|] eqn:Hrule; [|done].
  inv_bind Hrun as [r h1] Hcall. injection Hrun as <-.
  destruct (call_source _ _ _ _ _ _ Ha Hcall) as (a' & Ha' & Hk & Hb & Hwl & Hbl).
  apply call_step in Hcall as [_ Hframe _ _ _].
  split; [|by exists a'].
  intros j aj Haj. destruct (decide (j = i)) as [->|Hne].
  - assert (aj = a') as -> by congruence. destruct (Hsrc i a Ha) as [Hsw Hsb].
    unfold offered. rewrite Hk, Hb. split.
    + intros w' x Hw' Hx. destruct (Hwl w' x Hw' Hx) as [(w0 & Hw0 & Hx0)|(ids & Hids & Hx0)].
      * by eapply Hsw.
      * by exists rule_id, rule_fn, ids.
    + intros b' x Hb' Hx. destruct (Hbl b' x Hb' Hx) as [(b0 & Hb0 & Hx0)|(ids & Hids & Hx0)].
      * by eapply Hsb.
      * by exists rule_id, rule_fn, ids.
  - rewrite Hframe in Haj by done. by apply (Hsrc j).
Qed.

Lemma round_step_sourced (g : Globals) (st st' : RoundState) (i : nat) :
  round_step g st i = Returned st' →
  sourced g (store (heap st)) → sourced g (store (heap st')).
Proof.
  unfold round_step. intros Hrun Hsrc.
  inv_bind Hrun as a Ha. inv_bind Hrun as w Hw. inv_bind Hrun as b Hb.
  apply get_Returned in Ha.
  case_decide; [by injection Hrun as <-|].
  inv_bind Hrun as [h1 log1] Hrules. inv_bind Hrun as a' Ha'.
  inv_bind Hrun as w' Hw'. inv_bind Hrun as b' Hb'. injection Hrun as <-. simpl.
  destruct (rule_map g !! Some (kind a)) as [by_count|] eqn:Hkind;
    [|by injection Hrules as <- _].
  destruct (by_count !! Some (length (bonds a))) as [rules|] eqn:Hcount;
    [|by injection Hrules as <- _].
  inv_bind Hrules as h2 Hh2. injection Hrules as <- _.
  assert (bucket (rule_map g) (Some (kind a)) (Some (length (bonds a))) = rules) as Hbucket.
  { unfold bucket. rewrite Hkind. simpl. by rewrite Hcount. }
  assert (sourced g (store h2) ∧
          ∃ a2, store h2 !! i = Some a2 ∧ kind a2 = kind a ∧ bonds a2 = bonds a) as [? _];
    [|done].
  revert Hh2.
  apply (for_each_invariant
           (λ h, sourced g (store h) ∧
                 ∃ a2, store h !! i = Some a2 ∧ kind a2 = kind a ∧ bonds a2 = bonds a)).
  - split; [done|by exists a].
  - intros h3 rule h4 Hin (Hs3 & a3 & Ha3 & Hk3 & Hb3) Hstep.
    destruct (run_rule_sourced g h3 h4 i rule a3) as (Hs4 & a4 & Ha4 & Hk4 & Hb4);
      [done|by rewrite Hk3, Hb3, Hbucket|done..|].
    split; [done|]. exists a4. split_and!; [done|congruence..].
Qed.

Lemma typing_loop_sourced (cap : nat) (g : Globals) (h h' : Heap) (log : list Warning) :
  typing_loop cap g h = Returned (h', log) →
  sourced g (store h) → sourced g (store h').
Proof.
  revert h h' log. induction cap as [|n IH]; intros h h' log Hrun Hsrc; simpl in Hrun.
  - by injection Hrun as <- _.
  - inv_bind Hrun as st Hst.
    assert (sourced g (store (heap st))) as Hst'.
    { revert Hst. unfold typing_round.
      apply (for_each_invariant (λ st, sourced g (store (heap st)))); [done|].
      intros s k s' _ Hs Hstep. by eapply round_step_sourced. }
    case_decide; [by injection Hrun as <- _|].
    inv_bind Hrun as [h1 log1] Hrest. injection Hrun as <- _. by eapply IH.
Qed.

(** The resolution loop leaves the sets, the kind and the bonds of every
    atom as they are. *)
Lemma resolve_loop_back (l : list (nat * nat)) (s s' : Store) (log log' : list Warning)
    (i : nat) (a : Atom) :
  for_each resolve_step l (s, log) = Returned (s', log') →
  s' !! i = Some a →
  ∃ a0, s !! i = Some a0 ∧ same_lists a0 a.
Proof.
  revert s' log' a.
  induction l as [|[k ref] l IH] using rev_ind; intros s' log' a Hres Ha.
  - injection Hres as <- _. exists a. by split; [|apply same_lists_refl].
  - rewrite for_each_app in Hres. inv_bind Hres as [s1 log1] Hfirst.
    rewrite for_each_cons in Hres. inv_bind Hres as [s2 log2] Hlast.
    injection Hres as <- _. unfold resolve_step in Hlast.
    inv_bind Hlast as a1 Ha1. apply get_Returned in Ha1.
    inv_bind Hlast as w1 Hw1. inv_bind Hlast as b1 Hb1.
    assert (∃ a2, s1 !! i = Some a2 ∧ same_lists a2 a) as (a2 & Ha2 & Hsame).
    { destruct (decide (i = ref)) as [->|Hne].
      - exists a1. split; [done|].
        destruct (OrderedSet.difference w1 b1) as [|t [|t' rest]];
          injection Hlast as <- _;
          rewrite list_lookup_insert_eq in Ha by (by eapply lookup_lt_Some);
          injection Ha as <-; by unfold same_lists.
      - exists a. split; [|apply same_lists_refl].
        destruct (OrderedSet.difference w1 b1) as [|t [|t' rest]];
          injection Hlast as <- _;
          by rewrite list_lookup_insert_ne in Ha. }
    destruct (IH _ _ _ Hfirst Ha2) as (a0 & Ha0 & Hsame0).
    exists a0. split; [done|]. by eapply same_lists_trans.
Qed.

(** X19: an atom is typed only by rules filed for it.  When [find_atomtypes]
    returns, every identifier in an atom's whitelist is named by a [Whitelist]
    decorator, and every identifier in its blacklist by a [Blacklist]
    decorator, of a rule that the registry files under the atom's own kind and
    number of bonds. *)
Theorem atoms_typed_by_own_rules (oplsaa : list (string * RuleFn)) (g g' : Globals)
    (c : Compound) (forcefield : string) (debug : bool) (s : Store) (log : list Warning)
    (i : nat) (a : Atom) :
  find_atomtypes oplsaa g c forcefield debug = Returned (g', s, log) →
  s !! i = Some a →
  (∀ w x, whitelist a = Some w → x ∈ w → offered g' Whitelist a x) ∧
  (∀ b x, blacklist a = Some b → x ∈ b → offered g' Blacklist a x).
Proof.
  intros Hrun Ha. unfold find_atomtypes in Hrun.
  inv_bind Hrun as rules Hrules. inv_bind Hrun as [g1 log1] Hbuild.
  inv_bind Hrun as log2 Hsan. inv_bind Hrun as [h log3] Hloop.
  inv_bind Hrun as [s' log4] Hres. injection Hrun as <- <- <-.
  apply typing_loop_sourced in Hloop.
  2:{ intros j aj Haj. simpl in Haj. rewrite list_lookup_fmap in Haj.
      destruct (yield_atoms c !! j) as [a0|]; [|done]. injection Haj as <-. simpl.
      split; intros l x [= <-] Hx; by apply elem_of_nil in Hx. }
  destruct (resolve_loop_back _ _ _ _ _ _ _ Hres Ha) as (a0 & Ha0 & Hk & Hb & Hw & Hbl).
  destruct (Hloop i a0 Ha0) as [Hsw Hsb]. unfold offered in *. simpl.
  rewrite Hk, Hb, Hw, Hbl in *. by split.
Qed.

(** ** The pattern test of [sanitize] and the guards *)

Lemma count_neighbors_lookup (s : Store) (bs : list nat) (t : string) :
  count_neighbors s bs !! t =
  match pattern_count (neighbor_kinds s bs) t with
  | 0 => None
  | S n => Some (S n)
  end.
Proof. unfold count_neighbors, pattern_count. by rewrite count_neighbors_fold, lookup_empty. Qed.

Lemma pattern_count_pos (pattern : list string) (t : string) :
  t ∈ pattern ↔ 0 < pattern_count pattern t.
Proof.
  unfold pattern_count. split.
  - intros Hin. assert (t ∈ filter (λ x, x = t) pattern) as Hf
      by by apply list_elem_of_filter.
    destruct (filter _ _); [by apply elem_of_nil in Hf|simpl; lia].
  - destruct (filter (λ x, x = t) pattern) as [|x l] eqn:Hf; simpl; [lia|]. intros _.
    assert (x ∈ filter (λ x, x = t) pattern) as Hx by (rewrite Hf; by left).
    by apply list_elem_of_filter in Hx as [-> Hx].
Qed.

(** X20: the pattern test by which [sanitize] decides which neighbour
    patterns a rule matches agrees with the guard that runs on an atom only
    where the atom has a neighbour of the guard's kind.  For a neighbour
    guard on kind [t] and an atom without a cached tally: if one of the
    atom's neighbours has kind [t], the guard holds exactly when the pattern
    of the atom's neighbour kinds is not excluded; if none has, the guard
    fails, although [sanitize] keeps that pattern for [NeighborsAtMost t c]
    and for [NeighborsExactly t 0]. *)
Theorem pattern_test_agrees_with_guard (dec : RuleDecorator) (t : string) (c : nat)
    (h : Heap) (i : nat) (a : Atom) :
  dec = NeighborsExactly t c ∨ dec = NeighborsAtLeast t c ∨ dec = NeighborsAtMost t c →
  cache h !! i = None →
  (t ∈ neighbor_kinds (store h) (bonds a) →
     guard_holds h i a dec = negb (excluded_by dec (neighbor_kinds (store h) (bonds a)))) ∧
  (t ∉ neighbor_kinds (store h) (bonds a) →
     guard_holds h i a dec = false ∧
     excluded_by (NeighborsAtMost t c) (neighbor_kinds (store h) (bonds a)) = false ∧
     excluded_by (NeighborsExactly t 0) (neighbor_kinds (store h) (bonds a)) = false).
Proof.
  intros Hdec Hmiss.
  assert (tally_for h i a = count_neighbors (store h) (bonds a)) as Htally
    by by unfold tally_for, neighbor_types; rewrite Hmiss.
  split.
  - intros Hin%pattern_count_pos.
    destruct Hdec as [-> | [-> | ->]]; cbn [guard_holds excluded_by];
      rewrite Htally, count_neighbors_lookup;
      destruct (pattern_count _ t) as [|n]; try lia; by rewrite negb_involutive.
  - intros Hnot. assert (pattern_count (neighbor_kinds (store h) (bonds a)) t = 0) as Hzero.
    { destruct (pattern_count _ t) as [|n] eqn:Hn; [done|].
      destruct Hnot. apply pattern_count_pos. lia. }
    split_and!.
    + destruct Hdec as [-> | [-> | ->]]; cbn [guard_holds];
        by rewrite Htally, count_neighbors_lookup, Hzero.
    + cbn [excluded_by]. by rewrite Hzero.
    + cbn [excluded_by]. by rewrite Hzero.
Qed.

(** ** The groups of [sanitize] *)

Lemma neighbor_count_scan_guards (rule_number : string) (decorators : list RuleDecorator)
    (st0 st : option string * option nat) :
  for_each (λ '(element_type, neighbor_count) dec,
              match dec with
              | Element t => mret (Some t, neighbor_count)
              | NeighborCount c =>
                  _ ← check_duplicate_neighbor_count neighbor_count rule_number;
                  mret (element_type, Some c)
              | _ => mret (element_type, neighbor_count)
              end) decorators st0 = Returned st →
  st = foldl (λ '(element_type, neighbor_count) dec,
                match dec with
                | Element t => (Some t, neighbor_count)
                | NeighborCount c => (element_type, Some c)
                | _ => (element_type, neighbor_count)
                end) st0 decorators.
Proof.
  revert st0. induction decorators as [|dec l IH]; intros [et nc] Hrun.
  - simpl in Hrun. by injection Hrun as <-.
  - rewrite for_each_cons in Hrun. cbn [foldl].
    destruct dec as [t|c0| | | | |]; cbn [mbind result_bind mret result_ret] in Hrun;
      try (by apply IH).
    destruct nc as [c1|]; [done|]. by apply IH.
Qed.

Lemma file_patterns (rule_number : string) (element_type : option string)
    (patterns : list (list string))
    (rule_matches : gmap (option string * list string) (gset string))
    (key : option string * list string) (r : string) :
  r ∈ default ∅ (foldl (λ rule_matches pattern,
                          match rule_matches !! (element_type, pattern) with
                          | None => <[(element_type, pattern) := {[rule_number]}]> rule_matches
                          | Some rules =>
                              <[(element_type, pattern) := rules ∪ {[rule_number]}]> rule_matches
                          end) rule_matches patterns !! key) ↔
  r ∈ default ∅ (rule_matches !! key) ∨
  (r = rule_number ∧ key.1 = element_type ∧ key.2 ∈ patterns).
Proof.
  revert rule_matches. induction patterns as [|pattern patterns IH]; intros rule_matches.
  - simpl. split; [by left|]. by intros [?|(_ & _ & ?%elem_of_nil)].
  - cbn [foldl]. rewrite IH. destruct key as [e p]. simpl.
    assert (r ∈ default ∅
              (match rule_matches !! (element_type, pattern) with
               | None => <[(element_type, pattern) := {[rule_number]}]> rule_matches
               | Some rules =>
                   <[(element_type, pattern) := rules ∪ {[rule_number]}]> rule_matches
               end !! (e, p)) ↔
            r ∈ default ∅ (rule_matches !! (e, p)) ∨
            (r = rule_number ∧ e = element_type ∧ p = pattern)) as ->.
    { destruct (decide ((element_type, pattern) = (e, p))) as [[= <- <-]|Hne].
      - destruct (rule_matches !! (element_type, pattern)) as [rules|] eqn:Hold;
          rewrite lookup_insert_eq; simpl.
        + rewrite elem_of_union, elem_of_singleton. tauto.
        + rewrite elem_of_singleton. split; [by right|].
          by intros [?%elem_of_empty|(? & _)].
      - destruct (rule_matches !! (element_type, pattern)) as [rules|] eqn:Hold;
          rewrite lookup_insert_ne by done;
          (split; [by left|]); (intros [?|(_ & -> & ->)]; [done|by destruct Hne]). }
    rewrite elem_of_cons. tauto.
Qed.

(** X21: what the second loop of [sanitize] does with one rule.  When the
    step returns, the rule has a neighbour count, and the rule number is added
    to exactly the groups whose element is the rule's element guard and whose
    pattern is a combination (with replacement) of that many supported
    elements that none of the rule's decorators excludes; every group keeps
    the rules it had and gains no other. *)
Theorem matches_step_files_matching_patterns (supported_elements : list string)
    (rule_matches rule_matches' : gmap (option string * list string) (gset string))
    (rule_number : string) (rule : RuleFn) :
  matches_step supported_elements rule_matches (rule_number, rule) = Returned rule_matches' →
  ∃ count, (guards_of rule).2 = Some count ∧
    ∀ element_type pattern r,
      r ∈ default ∅ (rule_matches' !! (element_type, pattern)) ↔
      r ∈ default ∅ (rule_matches !! (element_type, pattern)) ∨
      (r = rule_number ∧ element_type = (guards_of rule).1 ∧
       pattern ∈ combinations_with_replacement count supported_elements ∧
       ∀ dec, dec ∈ closure_decorators rule → excluded_by dec pattern = false).
Proof.
  unfold matches_step. intros Hstep.
  inv_bind Hstep as decorators Hdecs. inv_bind Hstep as [element_type neighbor_count] Hscan.
  inv_bind Hstep as count Hcount. injection Hstep as <-.
  assert (decorators = closure_decorators rule) as ->.
  { destruct rule; [done|]. by injection Hdecs as <-. }
  apply neighbor_count_scan_guards in Hscan.
  assert (guards_of rule = (element_type, neighbor_count)) as Hguards by done.
  destruct neighbor_count as [c|]; [|done]. injection Hcount as ->.
  exists count. rewrite Hguards. split; [done|].
  intros e pattern r. rewrite file_patterns. simpl.
  rewrite list_elem_of_difference, elem_of_remove_dups.
  split; (intros [?|(-> & -> & Hin & Hkeep)]; [by left|right]);
    (split_and!; [done..|]).
  - intros dec Hdec. destruct (excluded_by dec pattern) eqn:Hex; [|done].
    destruct Hkeep. apply list_elem_of_bind. exists dec. split; [|done].
    apply list_elem_of_filter. split; [done|]. by apply elem_of_remove_dups.
  - intros (dec & [Hex _]%list_elem_of_filter & Hdec)%list_elem_of_bind.
    by rewrite (Hkeep dec Hdec) in Hex.
Qed.

(** ** The properties above at concrete inputs *)

Lemma call_is_conjunction_witness :
  true = forallb (guard_holds example_heap 0 (mkAtom "C" [1] (Some []) (Some []) None))
                 (closure_decorators example_rule)
         && body_of example_rule (store example_heap) 0.
Proof.
  eapply (call_is_conjunction example_rule example_heap
            (mkHeap {[0 := {["H" := 1]}]}
               [ mkAtom "C" [1] (Some ["1"]) (Some []) None;
                 mkAtom "H" [0] (Some []) (Some []) None;
                 mkAtom "G" [] (Some []) (Some []) None ]) 0).
  - reflexivity.
  - vm_compute. reflexivity.
Defined.

Lemma failed_call_changes_no_atom_witness :
  call (Wrapped (NeighborsExactly "O" 1) example_rule) example_heap 0 =
    Returned (false, mkHeap {[0 := {["H" := 1]}]} (store example_heap)) ∧
  store (mkHeap {[0 := {["H" := 1]}]} (store example_heap)) = store example_heap.
Proof.
  assert (call (Wrapped (NeighborsExactly "O" 1) example_rule) example_heap 0 =
            Returned (false, mkHeap {[0 := {["H" := 1]}]} (store example_heap))) as Hcall
    by (vm_compute; reflexivity).
  split; [exact Hcall|].
  exact (failed_call_changes_no_atom _ _ _ _ Hcall).
Defined.

Lemma successful_call_applies_effects_witness :
  ∃ a', [ mkAtom "C" [1] (Some ["1"]) (Some []) None;
          mkAtom "H" [0] (Some []) (Some []) None;
          mkAtom "G" [] (Some []) (Some []) None ] !! 0 = Some a' ∧
    (∀ ids x, Whitelist ids ∈ closure_decorators example_rule → x ∈ ids →
       ∃ w, whitelist a' = Some w ∧ x ∈ w) ∧
    (∀ ids x, Blacklist ids ∈ closure_decorators example_rule → x ∈ ids →
       ∃ b, blacklist a' = Some b ∧ x ∈ b).
Proof.
  apply (successful_call_applies_effects example_rule example_heap
           (mkHeap {[0 := {["H" := 1]}]}
              [ mkAtom "C" [1] (Some ["1"]) (Some []) None;
                mkAtom "H" [0] (Some []) (Some []) None;
                mkAtom "G" [] (Some []) (Some []) None ]) 0).
  - by eexists.
  - vm_compute. reflexivity.
Defined.

Lemma call_touches_only_its_atom_witness :
  ∃ h', call example_rule example_heap 0 = Returned (true, h') ∧
        store h' !! 1 = store example_heap !! 1 ∧
        cache h' !! 1 = cache example_heap !! 1 ∧
        length (store h') = length (store example_heap).
Proof.
  destruct (call example_rule example_heap 0) as [[r h']|e] eqn:Hcall;
    [|by vm_compute in Hcall].
  assert (r = true) as -> by (vm_compute in Hcall; by injection Hcall as <- _).
  exists h'. split; [done|].
  destruct (call_touches_only_its_atom example_rule example_heap h' 0 true Hcall)
    as (Hframe & Hlen & _).
  destruct (Hframe 1) as [Hstore Hcache]; [lia|]. done.
Defined.

Lemma neighbor_guard_needs_a_neighbor_witness :
  call (Wrapped (NeighborsAtMost "O" 2) (Body (λ _ _, true))) example_heap 0 =
    Returned (false,
              mkHeap (<[0 := count_neighbors (store example_heap) [1]]> (cache example_heap))
                     (store example_heap)).
Proof.
  apply (neighbor_guard_needs_a_neighbor (NeighborsAtMost "O" 2) "O" 2 (Body (λ _ _, true))
           example_heap 0 (mkAtom "C" [1] (Some []) (Some []) None)).
  - right. by right.
  - reflexivity.
  - reflexivity.
  - unfold neighbor_kinds. simpl. by intros [=]%list_elem_of_singleton.
Defined.

Lemma build_rule_map_appends_witness :
  ∃ g1 g2 log,
    build_rule_map unguarded_catalogue = Returned (g1, log) ∧
    (∀ e n, bucket (rule_map g1) e n =
            bucket (rule_map unguarded_catalogue) e n ++ filed unguarded_catalogue e n) ∧
    build_rule_map g1 = Returned (g2, log) ∧
    (∀ e n, bucket (rule_map g2) e n =
            bucket (rule_map unguarded_catalogue) e n ++
            filed unguarded_catalogue e n ++ filed unguarded_catalogue e n).
Proof.
  apply (build_rule_map_appends unguarded_catalogue). apply unguarded_catalogue_decorated.
Defined.

Lemma variants_share_rule_number_witness :
  load_rules [("opls_" +:+ "135", example_rule);
              ("opls_" +:+ "135" +:+ String underscore "b", unguarded_rule)] ∅ =
    Returned (<["135" := unguarded_rule]> (<["135" := example_rule]> ∅)).
Proof. apply (variants_share_rule_number "135" "b"). reflexivity. Defined.

Lemma find_atomtypes_raises_only_in_setup_witness :
  ∃ rules,
    (if decide ("OPLS-AA" = "OPLS-AA")
     then load_rules [("opls_9", twice_element_rule); ("opls_1", example_rule)]
                     (rule_number_to_rule initial_globals)
     else mret (rule_number_to_rule initial_globals)) = Returned rules ∧
    (build_rule_map (mkGlobals rules (rule_map initial_globals)
                               (neighbor_types_map initial_globals))
       = Raised (AssertionError "Duplicate element type decorators on rule 9") ∨
     ∃ g1 log1,
       build_rule_map (mkGlobals rules (rule_map initial_globals)
                                 (neighbor_types_map initial_globals))
         = Returned (g1, log1) ∧
       true = true ∧
       sanitize g1 = Raised (AssertionError "Duplicate element type decorators on rule 9")).
Proof.
  apply (find_atomtypes_raises_only_in_setup
           [("opls_9", twice_element_rule); ("opls_1", example_rule)]
           initial_globals example_compound "OPLS-AA" true).
  - apply initial_globals_closed.
  - intros ref Hin. simpl in *.
    repeat (apply elem_of_cons in Hin as [->|Hin]); [lia..|by apply elem_of_nil in Hin].
  - vm_compute. reflexivity.
Defined.

Lemma sanitize_needs_neighbor_counts_witness :
  sanitize unguarded_catalogue = Raised TypeError.
Proof.
  apply (sanitize_needs_neighbor_counts unguarded_catalogue).
  - simpl. intros rule_number rule
      [[_ <-]|[_ [_ <-]%lookup_singleton_Some]]%lookup_insert_Some;
      (split; [by eexists _, _|]);
      unfold duplicate_element, duplicate_neighbor_count; simpl; lia.
  - exists "7", unguarded_rule. split; [reflexivity|].
    intros c [[=]|?%elem_of_nil]%elem_of_cons. done.
Defined.

Lemma uncovered_atom_is_warned_about_witness :
  ∃ st, typing_round example_globals example_heap = Returned st ∧
        NoRuleForKind "H" ∈ log st ∧
        store (heap st) !! 1 = Some (mkAtom "H" [0] (Some []) (Some []) None).
Proof.
  destruct (typing_round example_globals example_heap) as [st|e] eqn:Hrun;
    [|by vm_compute in Hrun].
  exists st. split; [done|].
  destruct (uncovered_atom_is_warned_about example_globals example_heap st 1
              (mkAtom "H" [0] (Some []) (Some []) None) Hrun eq_refl) as [Hkind _]; [done|].
  apply Hkind. reflexivity.
Defined.

Lemma unchanged_total_is_unchanged_store_witness :
  ∃ st, typing_round initial_globals example_heap = Returned st ∧
        store (heap st) = store example_heap.
Proof.
  destruct (typing_round initial_globals example_heap) as [st|e] eqn:Hrun;
    [|by vm_compute in Hrun].
  exists st. split; [done|].
  apply (unchanged_total_is_unchanged_store initial_globals example_heap st).
  - apply prepare_prepared.
  - exact Hrun.
  - vm_compute in Hrun. by injection Hrun as <-.
Defined.

Lemma check_atom_unprepared_witness :
  check_atom (mkAtom "C" [] None None None) (ManyIds []) = Returned None ∧
  check_atom (mkAtom "C" [] None None None) (OneId (IdInt 145)) = Raised AttributeError.
Proof.
  destruct (check_atom_unprepared (mkAtom "C" [] None None None) (OneId (IdInt 145)) eq_refl)
    as [Hnone Hraise].
  split; [exact Hnone|]. by apply Hraise.
Defined.

Lemma group_graph_is_blacklist_relation_witness :
  ∃ G, build_graph four_rules ["1"; "2"; "3"; "4"] = Returned G ∧
       (∀ u v, (u, v) ∈ nx.edges G ↔
               u ∈ ["1"; "2"; "3"; "4"] ∧
               ∃ rule, four_rules !! u = Some rule ∧
                       v ∈ blacklisted_by (closure_decorators rule)) ∧
       (∀ x, x ∈ nx.nodes G ↔ ∃ u v, (u, v) ∈ nx.edges G ∧ (x = u ∨ x = v)).
Proof.
  destruct (build_graph four_rules ["1"; "2"; "3"; "4"]) as [G|e] eqn:HG;
    [|by vm_compute in HG].
  exists G. split; [done|].
  exact (group_graph_is_blacklist_relation four_rules ["1"; "2"; "3"; "4"] G HG).
Defined.

Lemma resolve_all_only_sets_atomtype_witness :
  ∃ s' log,
    resolve_all [0; 2] resolution_example = Returned (s', log) ∧
    length s' = length resolution_example ∧
    (∀ ref a, resolution_example !! ref = Some a →
       ∃ a', s' !! ref = Some a' ∧ kind a' = kind a ∧ bonds a' = bonds a ∧
             whitelist a' = whitelist a ∧ blacklist a' = blacklist a ∧
             (ref ∉ [0; 2] → a' = a)) ∧
    ∃ log', resolve_all [0; 2] s' = Returned (s', log') ∧ ∀ w, w ∈ log' ↔ w ∈ log.
Proof.
  apply (resolve_all_only_sets_atomtype [0; 2] resolution_example).
  intros ref Hin.
  repeat (apply elem_of_cons in Hin as [->|Hin]);
    [by eexists _, _, _..|by apply elem_of_nil in Hin].
Defined.

Lemma first_run_caches_right_tallies_witness :
  ∃ a, yield_atoms bonded_to_hydrogen !! 0 = Some a ∧
       ({["H" := 1]} : gmap string nat) =
         count_neighbors (yield_atoms bonded_to_hydrogen) (bonds a).
Proof.
  apply (first_run_caches_right_tallies [("opls_1", example_rule)] initial_globals
           after_first_run bonded_to_hydrogen "OPLS-AA" true
           [ mkAtom "C" [1] (Some ["1"]) (Some []) (Some (AtomtypeList ["1"]));
             mkAtom "H" [0] (Some []) (Some []) None;
             mkAtom "O" [] (Some []) (Some []) None ]
           [ NoRuleForKind "H"; NoRuleForKind "O"; NoRuleForKind "H"; NoRuleForKind "O" ]).
  - reflexivity.
  - vm_compute. reflexivity.
  - reflexivity.
Defined.

Lemma overlap_without_blacklist_is_fatal_witness :
  sanitize overlapping_catalogue = Raised NetworkXPointlessConcept.
Proof.
  destruct (overlap_without_blacklist_is_fatal overlapping_catalogue {["C"]}
              {[ (Some "C", ["C"]) := ({["1"; "2"]} : gset string) ]}) as [_ Hraise].
  - simpl. intros rule_number rule
      [[_ <-]|[_ [_ <-]%lookup_singleton_Some]]%lookup_insert_Some;
      (split; [by eexists _, _|]); vm_compute; reflexivity.
  - vm_compute. reflexivity.
  - vm_compute. reflexivity.
  - apply (Hraise (Some "C", ["C"]) {["1"; "2"]}); [reflexivity|].
    vm_compute. lia.
Defined.

Lemma atoms_typed_by_own_rules_witness :
  offered after_first_run Whitelist
    (mkAtom "C" [1] (Some ["1"]) (Some []) (Some (AtomtypeList ["1"]))) "1".
Proof.
  destruct (atoms_typed_by_own_rules [("opls_1", example_rule)] initial_globals
              after_first_run bonded_to_hydrogen "OPLS-AA" true
              [ mkAtom "C" [1] (Some ["1"]) (Some []) (Some (AtomtypeList ["1"]));
                mkAtom "H" [0] (Some []) (Some []) None;
                mkAtom "O" [] (Some []) (Some []) None ]
              [ NoRuleForKind "H"; NoRuleForKind "O"; NoRuleForKind "H"; NoRuleForKind "O" ]
              0 (mkAtom "C" [1] (Some ["1"]) (Some []) (Some (AtomtypeList ["1"]))))
    as [Hw _].
  - vm_compute. reflexivity.
  - reflexivity.
  - apply (Hw ["1"] "1"); [reflexivity|]. by left.
Defined.

Lemma pattern_test_agrees_with_guard_witness :
  guard_holds example_heap 0 (mkAtom "C" [1] (Some []) (Some []) None)
    (NeighborsAtMost "O" 2) = false ∧
  excluded_by (NeighborsAtMost "O" 2) (neighbor_kinds (store example_heap) [1]) = false ∧
  guard_holds example_heap 0 (mkAtom "C" [1] (Some []) (Some []) None)
    (NeighborsAtMost "H" 2) = true.
Proof.
  destruct (pattern_test_agrees_with_guard (NeighborsAtMost "O" 2) "O" 2 example_heap 0
              (mkAtom "C" [1] (Some []) (Some []) None)) as [_ Hnone];
    [by right; right|reflexivity|].
  destruct (pattern_test_agrees_with_guard (NeighborsAtMost "H" 2) "H" 2 example_heap 0
              (mkAtom "C" [1] (Some []) (Some []) None)) as [Hsome _];
    [by right; right|reflexivity|].
  destruct Hnone as (Hfalse & Hkept & _).
  { simpl. by intros [=]%list_elem_of_singleton. }
  split_and!; [exact Hfalse|exact Hkept|].
  rewrite Hsome; [reflexivity|]. simpl. by left.
Defined.

Lemma matches_step_files_matching_patterns_witness :
  ∃ count, (guards_of (sink_rule 1 [])).2 = Some count ∧
    ∀ element_type pattern r,
      r ∈ default ∅
            (({[ (Some "C", ["C"]) := {["1"]} ]}
                : gmap (option string * list string) (gset string))
               !! (element_type, pattern)) ↔
      r ∈ default ∅
            ((∅ : gmap (option string * list string) (gset string))
               !! (element_type, pattern)) ∨
      (r = "1" ∧ element_type = (guards_of (sink_rule 1 [])).1 ∧
       pattern ∈ combinations_with_replacement count ["C"] ∧
       ∀ dec, dec ∈ closure_decorators (sink_rule 1 []) → excluded_by dec pattern = false).
Proof.
  apply (matches_step_files_matching_patterns ["C"] ∅ _ "1" (sink_rule 1 [])).
  vm_compute. reflexivity.
Defined.
